(** * MoxApp: a shallow embedding of the runtime traffic core

    The development follows the Go packages of the repository:

    - [Go]: the few primitives of the Go language and its standard library
      that the embedded code relies on (64-bit integers, IEEE binary64
      floats, byte strings, [sort.Float64s]);
    - [metrics]: [RingBuffer] (internal/metrics/percentile.go) and
      [EndpointMetrics];
    - [config]: [AuthConfig], [Endpoint], [IncomingEndpoint], [Config] and
      the [Manager] operations (internal/config);
    - [client]: the token manager (internal/client/token_manager.go);
    - [domain], [collector], [incoming]: the DNS metrics, the collector of
      request results and the metrics of the incoming routes
      (internal/metrics);
    - [scheduler]: the dispatch task and the control operations;
    - [api]: the inbound responder, the import of a configuration and the
      bulk switch of the endpoints.

    Conventions.  A Go [int]/[int64] is a [Z] whose arithmetic wraps with
    [Go.wrap64].  A [float64] is a primitive binary64 [float].  A Go
    [string] is a [string] (a sequence of bytes).  A run-time panic is the
    result [None].  A pointer to a record is modelled by the record it
    points to ([nil] is [None]); the one place where two names share an
    object (the candidate configuration of the import handler) threads the
    object explicitly.  Every read of shared state made by a concurrent
    task is an explicit argument of the step that reads it. *)

From Stdlib Require Import ZArith Lia List Floats Uint63 Bool Permutation Sorted.
From Stdlib Require Import Ascii.
From stdpp Require Import gmap strings list.
Import ListNotations.

Local Open Scope Z_scope.
Local Open Scope bool_scope.

(* ===================================================================== *)
(** * Part I: definitions                                                 *)
(* ===================================================================== *)

(** ** Go primitives *)

Module Go.

(** *** Machine integers *)

Definition min_int64 : Z := - 2 ^ 63.
Definition max_int64 : Z := 2 ^ 63 - 1.

(** Two's complement wrap-around of a 64-bit signed integer. *)
Definition wrap64 (z : Z) : Z := (z + 2 ^ 63) mod 2 ^ 64 - 2 ^ 63.

Definition in_int64 (z : Z) : Prop := min_int64 <= z <= max_int64.

(** [a + b] on [int64]. *)
Definition add64 (a b : Z) : Z := wrap64 (a + b).

(** *** Floats *)

(** [float64(z)] for an [int] [z]: round to nearest even. *)
Definition float_of_int (z : Z) : float :=
  if z <? 0 then PrimFloat.opp (PrimFloat.of_uint63 (Uint63.of_Z (- z)))
  else PrimFloat.of_uint63 (Uint63.of_Z z).

(** [int(f)] for a [float64] [f]: the fraction is discarded.  The Go
    specification leaves the result open when the value does not fit;
    the value below is what amd64 produces (the "integer indefinite"
    [-2^63]), also for NaN and the infinities. *)
Definition int_of_float (f : float) : Z :=
  match Prim2SF f with
  | S754_zero _ => 0
  | S754_finite s m e =>
      let a := Z.shiftl (Zpos m) e in
      let v := if s then - a else a in
      if (min_int64 <=? v) && (v <=? max_int64) then v else min_int64
  | _ => min_int64
  end.

(** [math.IsNaN]. *)
Definition IsNaN (f : float) : bool := negb (PrimFloat.eqb f f).

(** The order of [sort.Float64Slice.Less]: [<] with the NaNs first. *)
Definition float64_less (x y : float) : bool :=
  PrimFloat.ltb x y || (IsNaN x && negb (IsNaN y)).

Fixpoint insert_float64 (x : float) (l : list float) : list float :=
  match l with
  | [] => [x]
  | y :: l' => if float64_less y x then y :: insert_float64 x l' else x :: l
  end.

(** [sort.Float64s].  The library sorts in place with an unstable
    pattern-defeating quicksort; elements that compare equal under
    [float64_less] are the two zeros or two NaNs, so the result is
    determined up to their order.  The model inserts each element before
    the first element that is not less than it. *)
Definition Float64s (l : list float) : list float :=
  fold_right insert_float64 [] l.


(** *** Strings *)

(** The remainder of [s] after [prefix], when [s] starts with it. *)
Fixpoint strip_prefix (prefix s : string) : option string :=
  match prefix, s with
  | EmptyString, _ => Some s
  | String a p', String b s' =>
      if Ascii.eqb a b then strip_prefix p' s' else None
  | String _ _, EmptyString => None
  end.

(** [strings.HasPrefix]. *)
Definition HasPrefix (s prefix : string) : bool :=
  match strip_prefix prefix s with Some _ => true | None => false end.

(** [strings.TrimPrefix]. *)
Definition TrimPrefix (s prefix : string) : string :=
  match strip_prefix prefix s with Some r => r | None => s end.

(** [len(s)]. *)
Definition len_string (s : string) : Z := Z.of_nat (String.length s).

(** *** Dynamic values *)

(** An [interface{}] as the YAML and JSON decoders produce it. *)
#[warnings="-register-all"]
Inductive iface :=
  | INil
  | IString (s : string)
  | IBool (b : bool)
  | INumber (f : float)
  | ISlice (l : list iface)
  | IMap (m : gmap string iface).

(** [v.(string)] with the comma-ok form. *)
Definition as_string (v : option iface) : option string :=
  match v with Some (IString s) => Some s | _ => None end.

(** *** Slices *)

(** [len(l)]. *)
Definition len {A} (l : list A) : Z := Z.of_nat (length l).

(** [l[i]]; [None] is the out-of-range panic. *)
Definition index {A} (l : list A) (i : Z) : option A :=
  if (0 <=? i) && (i <? len l) then l !! Z.to_nat i else None.

(** [append(l[:i], l[i+1:]...)]. *)
Definition remove_at {A} (i : nat) (l : list A) : list A :=
  take i l ++ drop (S i) l.

(** *** Dotted paths *)

(** [strings.Split(s, ".")]: the pieces of [s] between the dots. *)
Fixpoint split_dots (s : string) : list string :=
  match s with
  | EmptyString => [EmptyString]
  | String c s' =>
      if Ascii.eqb c "."%char then EmptyString :: split_dots s'
      else
        match split_dots s' with
        | piece :: pieces => String c piece :: pieces
        | [] => [String c EmptyString]
        end
  end.

(** [strings.Join(parts, ".")]. *)
Fixpoint join_dots (parts : list string) : string :=
  match parts with
  | [] => EmptyString
  | [part] => part
  | part :: parts' => String.append part (String "."%char (join_dots parts'))
  end.

End Go.

(** ** Package metrics *)

Module metrics.

(** *** RingBuffer (internal/metrics/percentile.go) *)

Record RingBuffer := {
  data : list float;
  capacity : Z;
  index : Z;
  size : Z;
}.

(** [make([]float64, capacity)] panics on a negative length. *)
Definition NewRingBuffer (capacity : Z) : option RingBuffer :=
  if capacity <? 0 then None
  else Some {| data := replicate (Z.to_nat capacity) 0%float;
               capacity := capacity; index := 0; size := 0 |}.

(** [Add]: the store into [data[index]] panics out of range, and [%]
    panics on a zero capacity. *)
Definition Add (value : float) (rb : RingBuffer) : option RingBuffer :=
  if (0 <=? index rb) && (index rb <? Go.len (data rb)) then
    if capacity rb =? 0 then None
    else
      Some {| data := <[Z.to_nat (index rb) := value]> (data rb);
              capacity := capacity rb;
              index := Z.rem (Go.wrap64 (index rb + 1)) (capacity rb);
              size := if size rb <? capacity rb
                      then Go.wrap64 (size rb + 1) else size rb |}
  else None.

(** [rb.data[:rb.size]] panics unless [0 <= size <= cap(data)]. *)
Definition live (rb : RingBuffer) : option (list float) :=
  if (0 <=? size rb) && (size rb <=? Go.len (data rb))
  then Some (take (Z.to_nat (size rb)) (data rb)) else None.

(** The index [Percentile] reads, after the clamp. *)
Definition percentile_index (size : Z) (p : float) : Z :=
  let index :=
    Go.int_of_float (PrimFloat.div (PrimFloat.mul (Go.float_of_int size) p) 100%float) in
  if size <=? index then size - 1 else index.

Definition Percentile (p : float) (rb : RingBuffer) : option float :=
  if size rb =? 0 then Some 0%float
  else
    match live rb with
    | None => None
    | Some region =>
        let sortedData := Go.Float64s region in
        Go.index sortedData (percentile_index (size rb) p)
    end.

(** The body of the loops of [Max] and [Min]: [i] runs over [from],
    [from+1], ... for [n] iterations. *)
Fixpoint scan (better : float -> float -> bool) (d : list float)
    (from : Z) (n : nat) (acc : float) : option float :=
  match n with
  | O => Some acc
  | S n' =>
      match Go.index d from with
      | None => None
      | Some x => scan better d (from + 1) n' (if better x acc then x else acc)
      end
  end.

Definition Max (rb : RingBuffer) : option float :=
  if size rb =? 0 then Some 0%float
  else
    match Go.index (data rb) 0 with
    | None => None
    | Some d0 =>
        scan (fun x acc => PrimFloat.ltb acc x) (data rb) 1 (Z.to_nat (size rb - 1)) d0
    end.

Definition Min (rb : RingBuffer) : option float :=
  if size rb =? 0 then Some 0%float
  else
    match Go.index (data rb) 0 with
    | None => None
    | Some d0 =>
        scan (fun x acc => PrimFloat.ltb x acc) (data rb) 1 (Z.to_nat (size rb - 1)) d0
    end.

Fixpoint sum_from (d : list float) (from : Z) (n : nat) (acc : float) : option float :=
  match n with
  | O => Some acc
  | S n' =>
      match Go.index d from with
      | None => None
      | Some x => sum_from d (from + 1) n' (PrimFloat.add acc x)
      end
  end.

Definition Average (rb : RingBuffer) : option float :=
  if size rb =? 0 then Some 0%float
  else
    match sum_from (data rb) 0 (Z.to_nat (size rb)) 0%float with
    | None => None
    | Some sum => Some (PrimFloat.div sum (Go.float_of_int (size rb)))
    end.

Definition Size (rb : RingBuffer) : Z := size rb.

Definition Reset (rb : RingBuffer) : RingBuffer :=
  {| data := data rb; capacity := capacity rb; index := 0; size := 0 |}.

Definition Values (rb : RingBuffer) : option (list float) := live rb.

(** The buffers the program can build: out of [NewRingBuffer], by [Add]
    and [Reset].  A slice of [2^53] floats exceeds every address space, so
    the capacity handed to [NewRingBuffer] is below that. *)
Inductive reachable : RingBuffer -> Prop :=
  | reach_new (c : Z) (rb : RingBuffer) :
      c < 2 ^ 53 -> NewRingBuffer c = Some rb -> reachable rb
  | reach_add (v : float) (rb rb' : RingBuffer) :
      reachable rb -> Add v rb = Some rb' -> reachable rb'
  | reach_reset (rb : RingBuffer) :
      reachable rb -> reachable (Reset rb).

(** What [NewRingBuffer] establishes and [Add] and [Reset] keep. *)
Record wf (rb : RingBuffer) : Prop := {
  wf_capacity : 0 <= capacity rb < 2 ^ 53;
  wf_data : Go.len (data rb) = capacity rb;
  wf_index : 0 <= index rb <= Z.max 0 (capacity rb - 1);
  wf_size : 0 <= size rb <= capacity rb;
}.

(** [Add] applied to each value of [l] in turn. *)
Fixpoint add_all (l : list float) (rb : RingBuffer) : option RingBuffer :=
  match l with
  | [] => Some rb
  | v :: l' => match Add v rb with Some rb' => add_all l' rb' | None => None end
  end.



(** A buffer of capacity 4 after 3, 1 and 2 were added. *)
Definition small_buffer : RingBuffer :=
  {| data := [3%float; 1%float; 2%float; 0%float]; capacity := 4; index := 3; size := 3 |}.




(** *** EndpointMetrics *)

Record EndpointMetrics := {
  TotalRequests : Z;
  Successful : Z;
  Failed : Z;
  TimeoutErrors : Z;
  DNSErrors : Z;
  ConnectionErrors : Z;
  HTTPErrors : Z;
  OtherErrors : Z;
  TotalTimeMs : float;
  TotalDNSTimeMs : float;
  TotalConnectMs : float;
  ResponseTimes : RingBuffer;
  DNSTimes : RingBuffer;
  LastStatusCode : Z;
  LastError : string;
  LastSuccess : option Z;   (* [time.Time]; [None] is the zero time *)
  URLPattern : string;
  Hostname : string;
}.

Definition NewEndpointMetrics (urlPattern hostname : string) : option EndpointMetrics :=
  match NewRingBuffer 1000, NewRingBuffer 1000 with
  | Some rt, Some dt =>
      Some {| TotalRequests := 0; Successful := 0; Failed := 0;
              TimeoutErrors := 0; DNSErrors := 0; ConnectionErrors := 0;
              HTTPErrors := 0; OtherErrors := 0;
              TotalTimeMs := 0; TotalDNSTimeMs := 0; TotalConnectMs := 0;
              ResponseTimes := rt; DNSTimes := dt;
              LastStatusCode := 0; LastError := ""; LastSuccess := None;
              URLPattern := urlPattern; Hostname := hostname |}
  | _, _ => None
  end.

(** [em.DNSTimes.Add(dnsTimeMs)] guarded by [dnsTimeMs > 0]. *)
Definition add_dns (dnsTimeMs : float) (rb : RingBuffer) : option RingBuffer :=
  if PrimFloat.ltb 0 dnsTimeMs then Add dnsTimeMs rb else Some rb.

(** [now] is the reading of [time.Now()]. *)
Definition RecordSuccess (totalTimeMs dnsTimeMs connectTimeMs : float)
    (statusCode : Z) (now : Z) (em : EndpointMetrics) : option EndpointMetrics :=
  match Add totalTimeMs (ResponseTimes em), add_dns dnsTimeMs (DNSTimes em) with
  | Some rt, Some dt =>
      Some {| TotalRequests := Go.wrap64 (TotalRequests em + 1);
              Successful := Go.wrap64 (Successful em + 1);
              Failed := Failed em;
              TimeoutErrors := TimeoutErrors em; DNSErrors := DNSErrors em;
              ConnectionErrors := ConnectionErrors em;
              HTTPErrors := HTTPErrors em; OtherErrors := OtherErrors em;
              TotalTimeMs := PrimFloat.add (TotalTimeMs em) totalTimeMs;
              TotalDNSTimeMs := PrimFloat.add (TotalDNSTimeMs em) dnsTimeMs;
              TotalConnectMs := PrimFloat.add (TotalConnectMs em) connectTimeMs;
              ResponseTimes := rt; DNSTimes := dt;
              LastStatusCode := statusCode; LastError := LastError em;
              LastSuccess := Some now;
              URLPattern := URLPattern em; Hostname := Hostname em |}
  | _, _ => None
  end.

Definition RecordFailure (totalTimeMs dnsTimeMs connectTimeMs : float)
    (statusCode : Z) (errorType errorMsg : string)
    (em : EndpointMetrics) : option EndpointMetrics :=
  match Add totalTimeMs (ResponseTimes em), add_dns dnsTimeMs (DNSTimes em) with
  | Some rt, Some dt =>
      let bump (kind : string) (c : Z) : Z :=
        if String.eqb errorType kind then Go.wrap64 (c + 1) else c in
      let other (c : Z) : Z :=
        if String.eqb errorType "timeout" || String.eqb errorType "dns"
           || String.eqb errorType "connection" || String.eqb errorType "http"
        then c else Go.wrap64 (c + 1) in
      Some {| TotalRequests := Go.wrap64 (TotalRequests em + 1);
              Successful := Successful em;
              Failed := Go.wrap64 (Failed em + 1);
              TimeoutErrors := bump "timeout" (TimeoutErrors em);
              DNSErrors := bump "dns" (DNSErrors em);
              ConnectionErrors := bump "connection" (ConnectionErrors em);
              HTTPErrors := bump "http" (HTTPErrors em);
              OtherErrors := other (OtherErrors em);
              TotalTimeMs := PrimFloat.add (TotalTimeMs em) totalTimeMs;
              TotalDNSTimeMs := PrimFloat.add (TotalDNSTimeMs em) dnsTimeMs;
              TotalConnectMs := PrimFloat.add (TotalConnectMs em) connectTimeMs;
              ResponseTimes := rt; DNSTimes := dt;
              LastStatusCode := statusCode; LastError := errorMsg;
              LastSuccess := LastSuccess em;
              URLPattern := URLPattern em; Hostname := Hostname em |}
  | _, _ => None
  end.

Definition ResetMetrics (em : EndpointMetrics) : EndpointMetrics :=
  {| TotalRequests := 0; Successful := 0; Failed := 0;
     TimeoutErrors := 0; DNSErrors := 0; ConnectionErrors := 0;
     HTTPErrors := 0; OtherErrors := 0;
     TotalTimeMs := 0; TotalDNSTimeMs := 0; TotalConnectMs := 0;
     ResponseTimes := Reset (ResponseTimes em); DNSTimes := Reset (DNSTimes em);
     LastStatusCode := 0; LastError := ""; LastSuccess := None;
     URLPattern := URLPattern em; Hostname := Hostname em |}.

(** The counters and derived figures of [EndpointSnapshot]; the formatted
    time of the last success is kept as the time itself. *)
Record EndpointSnapshot := {
  snap_TotalRequests : Z;
  snap_Successful : Z;
  snap_Failed : Z;
  snap_SuccessRate : float;
  snap_TimeoutErrors : Z;
  snap_DNSErrors : Z;
  snap_ConnectionErrors : Z;
  snap_HTTPErrors : Z;
  snap_OtherErrors : Z;
  snap_AvgTotalTimeMs : float;
  snap_AvgDNSTimeMs : float;
  snap_AvgConnectTimeMs : float;
  snap_P95TotalTimeMs : float;
  snap_P99TotalTimeMs : float;
  snap_MaxTotalTimeMs : float;
  snap_P95DNSTimeMs : float;
  snap_LastStatusCode : Z;
  snap_LastError : string;
  snap_LastSuccess : option Z;
  snap_URLPattern : string;
  snap_Hostname : string;
}.

Definition GetStats (em : EndpointMetrics) : option EndpointSnapshot :=
  match Percentile 95 (ResponseTimes em), Percentile 99 (ResponseTimes em),
        Max (ResponseTimes em), Percentile 95 (DNSTimes em) with
  | Some p95, Some p99, Some mx, Some d95 =>
      let total := Go.float_of_int (TotalRequests em) in
      let some := 0 <? TotalRequests em in
      Some {| snap_TotalRequests := TotalRequests em;
              snap_Successful := Successful em;
              snap_Failed := Failed em;
              snap_SuccessRate :=
                if some
                then PrimFloat.mul (PrimFloat.div (Go.float_of_int (Successful em)) total) 100
                else 0%float;
              snap_TimeoutErrors := TimeoutErrors em;
              snap_DNSErrors := DNSErrors em;
              snap_ConnectionErrors := ConnectionErrors em;
              snap_HTTPErrors := HTTPErrors em;
              snap_OtherErrors := OtherErrors em;
              snap_AvgTotalTimeMs :=
                if some then PrimFloat.div (TotalTimeMs em) total else 0%float;
              snap_AvgDNSTimeMs :=
                if some && PrimFloat.ltb 0 (TotalDNSTimeMs em)
                then PrimFloat.div (TotalDNSTimeMs em) total else 0%float;
              snap_AvgConnectTimeMs :=
                if some && PrimFloat.ltb 0 (TotalConnectMs em)
                then PrimFloat.div (TotalConnectMs em) total else 0%float;
              snap_P95TotalTimeMs := p95;
              snap_P99TotalTimeMs := p99;
              snap_MaxTotalTimeMs := mx;
              snap_P95DNSTimeMs := d95;
              snap_LastStatusCode := LastStatusCode em;
              snap_LastError := LastError em;
              snap_LastSuccess := LastSuccess em;
              snap_URLPattern := URLPattern em;
              snap_Hostname := Hostname em |}
  | _, _, _, _ => None
  end.

(** The operations a collector applies to a record. *)
Inductive op :=
  | OpSuccess (totalTimeMs dnsTimeMs connectTimeMs : float) (statusCode now : Z)
  | OpFailure (totalTimeMs dnsTimeMs connectTimeMs : float) (statusCode : Z)
              (errorType errorMsg : string)
  | OpReset.

Definition apply_op (o : op) (em : EndpointMetrics) : option EndpointMetrics :=
  match o with
  | OpSuccess t d c sc now => RecordSuccess t d c sc now em
  | OpFailure t d c sc ty msg => RecordFailure t d c sc ty msg em
  | OpReset => Some (ResetMetrics em)
  end.

Fixpoint run (ops : list op) (em : EndpointMetrics) : option EndpointMetrics :=
  match ops with
  | [] => Some em
  | o :: ops' => match apply_op o em with Some em' => run ops' em' | None => None end
  end.

(** *** What a buffer holds *)

(** The last [n] elements of [l]. *)
Definition last_n {A} (n : nat) (l : list A) : list A := drop (length l - n) l.

(** The live region read from the write position on: the stored values,
    oldest first. *)
Definition window (rb : RingBuffer) : list float :=
  rotate (Z.to_nat (index rb)) (take (Z.to_nat (size rb)) (data rb)).

(** Until the buffer is full the write position is the size. *)
Definition fills_in_order (rb : RingBuffer) : Prop :=
  size rb < capacity rb -> index rb = size rb.

(** What the reads of two buffers have in common when they agree. *)
Definition same_reads (a b : RingBuffer) : Prop :=
  Size a = Size b /\ Values a = Values b
  /\ (forall p, Percentile p a = Percentile p b)
  /\ Max a = Max b /\ Min a = Min b /\ Average a = Average b.

(** The sum of the five error counters on [int64]. *)
Definition error_kinds64 (t d c h o : Z) : Z :=
  Go.add64 (Go.add64 (Go.add64 (Go.add64 t d) c) h) o.

End metrics.

(** ** Package config *)

Module config.

(** *** Errors *)

(** One constructor for each message that a [Validate] method appends. *)
Inductive problem :=
  | NameRequired
  | EndpointMethodRequired (name : string)
  | EndpointInvalidMethod (name method : string)
  | EndpointURLRequired (name : string)
  | EndpointFrequencyNegative (name : string)
  | EndpointTimeoutNotPositive (name : string)
  | AuthNameRequired
  | AuthInvalidType (name type : string)
  | AuthHeaderNameRequired (name type : string)
  | AuthCredentialRequired (name : string)
  | AuthQueryParamRequired (name : string)
  | AuthQueryEnvVarRequired (name : string)
  | AuthBasicEnvRequired (name : string)
  | AuthBearerCredentialRequired (name : string)
  | TokenEndpointURLRequired (name : string)
  | TokenEndpointMethodRequired (name : string)
  | TokenEndpointTokenPathRequired (name : string)
  | RoutePathRequired (name : string)
  | RoutePathNoSlash (name : string)
  | RouteMethodRequired (name : string)
  | RouteInvalidMethod (name method : string)
  | RouteNoResponses (name : string)
  | RouteSharesSum (name : string) (total : float)
  | ResponseStatusRange (name : string) (i : nat)
  | ResponseShareRange (name : string) (i : nat)
  | ResponseMinNegative (name : string) (i : nat)
  | ResponseMaxNegative (name : string) (i : nat)
  | ResponseMaxBelowMin (name : string) (i : nat)
  | GlobalMultiplierNegative
  | ConcurrentRequestsNotPositive
  | NoEndpoints
  | DuplicateEndpointName (name : string).

(** One constructor for each [fmt.Errorf] of the package. *)
Inductive error :=
  | ErrConfigNil                              (* config cannot be nil *)
  | ErrEndpointNotFound (name : string)       (* endpoint not found: %s *)
  | ErrEndpointExists (name : string)         (* endpoint already exists: %s *)
  | ErrEndpointNameTaken (name : string)      (* endpoint with name %s already exists *)
  | ErrResolveAuth (cause : error)            (* failed to resolve auth: %w *)
  | ErrValidationFailed (errors : list problem) (* validation failed: ... *)
  | ErrAuthNameRequired                       (* auth config name is required *)
  | ErrAuthConfigExists (name : string)       (* auth config already exists: %s *)
  | ErrAuthConfigNotFound (name : string)     (* auth config not found: %s *)
  | ErrAuthConfigNameTaken (name : string)    (* auth config with name %s already exists *)
  | ErrAuthConfigInUse (name endpoint : string) (* cannot delete auth config %s: used by endpoint %s *)
  | ErrInvalidAuthFormat                      (* invalid auth format: expected string or object *)
  | ErrInlineAuthMissingType                  (* inline auth config missing required field: type *)
  | ErrRouteExists (name : string)            (* incoming route already exists: %s *)
  | ErrRouteNameTaken (name : string)         (* incoming route with name %s already exists *)
  | ErrRouteNotFound (name : string).         (* incoming route not found: %s *)

Inductive result (A : Type) :=
  | Ok (a : A)
  | Err (e : error).
Arguments Ok {A} a.
Arguments Err {A} e.

(** [if c { errors = append(errors, p) }]. *)
Definition check (c : bool) (p : problem) : list problem :=
  if c then [p] else [].

Definition is_empty (s : string) : bool := String.eqb s "".

(** *** Auth configs (auth.go of the package) *)

Definition AuthTypeNone : string := "none".
Definition AuthTypeBearer : string := "bearer".
Definition AuthTypeAPIKey : string := "api_key".
Definition AuthTypeAPIKeyQuery : string := "api_key_query".
Definition AuthTypeBasic : string := "basic".
Definition AuthTypeCustom : string := "custom_header".

Record TokenEndpointConfig := {
  te_URL : string;
  te_URLEnv : string;
  te_Method : string;
  te_UsernameEnv : string;
  te_PasswordEnv : string;
  te_Headers : gmap string string;
  te_Body : Go.iface;
  te_TokenPath : string;
  te_ExpiresPath : string;
}.

Record AuthConfig := {
  ac_Name : string;
  ac_Type : string;
  ac_Description : string;
  ac_HeaderName : string;
  ac_QueryParam : string;
  ac_EnvVar : string;
  ac_UsernameEnv : string;
  ac_PasswordEnv : string;
  ac_TokenEndpoint : option TokenEndpointConfig;
  ac_RefreshBeforeExpiry : Z;
}.

(** [AuthConfig{}]. *)
Definition zero_AuthConfig : AuthConfig :=
  {| ac_Name := ""; ac_Type := ""; ac_Description := ""; ac_HeaderName := "";
     ac_QueryParam := ""; ac_EnvVar := ""; ac_UsernameEnv := "";
     ac_PasswordEnv := ""; ac_TokenEndpoint := None; ac_RefreshBeforeExpiry := 0 |}.

Definition with_ac_Name (v : string) (a : AuthConfig) : AuthConfig :=
  {| ac_Name := v; ac_Type := ac_Type a; ac_Description := ac_Description a;
     ac_HeaderName := ac_HeaderName a; ac_QueryParam := ac_QueryParam a;
     ac_EnvVar := ac_EnvVar a; ac_UsernameEnv := ac_UsernameEnv a;
     ac_PasswordEnv := ac_PasswordEnv a; ac_TokenEndpoint := ac_TokenEndpoint a;
     ac_RefreshBeforeExpiry := ac_RefreshBeforeExpiry a |}.

Definition with_ac_Type (v : string) (a : AuthConfig) : AuthConfig :=
  {| ac_Name := ac_Name a; ac_Type := v; ac_Description := ac_Description a;
     ac_HeaderName := ac_HeaderName a; ac_QueryParam := ac_QueryParam a;
     ac_EnvVar := ac_EnvVar a; ac_UsernameEnv := ac_UsernameEnv a;
     ac_PasswordEnv := ac_PasswordEnv a; ac_TokenEndpoint := ac_TokenEndpoint a;
     ac_RefreshBeforeExpiry := ac_RefreshBeforeExpiry a |}.

Definition with_ac_HeaderName (v : string) (a : AuthConfig) : AuthConfig :=
  {| ac_Name := ac_Name a; ac_Type := ac_Type a; ac_Description := ac_Description a;
     ac_HeaderName := v; ac_QueryParam := ac_QueryParam a;
     ac_EnvVar := ac_EnvVar a; ac_UsernameEnv := ac_UsernameEnv a;
     ac_PasswordEnv := ac_PasswordEnv a; ac_TokenEndpoint := ac_TokenEndpoint a;
     ac_RefreshBeforeExpiry := ac_RefreshBeforeExpiry a |}.

Definition with_ac_QueryParam (v : string) (a : AuthConfig) : AuthConfig :=
  {| ac_Name := ac_Name a; ac_Type := ac_Type a; ac_Description := ac_Description a;
     ac_HeaderName := ac_HeaderName a; ac_QueryParam := v;
     ac_EnvVar := ac_EnvVar a; ac_UsernameEnv := ac_UsernameEnv a;
     ac_PasswordEnv := ac_PasswordEnv a; ac_TokenEndpoint := ac_TokenEndpoint a;
     ac_RefreshBeforeExpiry := ac_RefreshBeforeExpiry a |}.

Definition with_ac_EnvVar (v : string) (a : AuthConfig) : AuthConfig :=
  {| ac_Name := ac_Name a; ac_Type := ac_Type a; ac_Description := ac_Description a;
     ac_HeaderName := ac_HeaderName a; ac_QueryParam := ac_QueryParam a;
     ac_EnvVar := v; ac_UsernameEnv := ac_UsernameEnv a;
     ac_PasswordEnv := ac_PasswordEnv a; ac_TokenEndpoint := ac_TokenEndpoint a;
     ac_RefreshBeforeExpiry := ac_RefreshBeforeExpiry a |}.

Definition with_ac_UsernameEnv (v : string) (a : AuthConfig) : AuthConfig :=
  {| ac_Name := ac_Name a; ac_Type := ac_Type a; ac_Description := ac_Description a;
     ac_HeaderName := ac_HeaderName a; ac_QueryParam := ac_QueryParam a;
     ac_EnvVar := ac_EnvVar a; ac_UsernameEnv := v;
     ac_PasswordEnv := ac_PasswordEnv a; ac_TokenEndpoint := ac_TokenEndpoint a;
     ac_RefreshBeforeExpiry := ac_RefreshBeforeExpiry a |}.

Definition with_ac_PasswordEnv (v : string) (a : AuthConfig) : AuthConfig :=
  {| ac_Name := ac_Name a; ac_Type := ac_Type a; ac_Description := ac_Description a;
     ac_HeaderName := ac_HeaderName a; ac_QueryParam := ac_QueryParam a;
     ac_EnvVar := ac_EnvVar a; ac_UsernameEnv := ac_UsernameEnv a;
     ac_PasswordEnv := v; ac_TokenEndpoint := ac_TokenEndpoint a;
     ac_RefreshBeforeExpiry := ac_RefreshBeforeExpiry a |}.

(** [if v, ok := authMap[key].(string); ok { cfg = set v cfg }]. *)
Definition override (authMap : gmap string Go.iface) (key : string)
    (set : string -> AuthConfig -> AuthConfig) (cfg : AuthConfig) : AuthConfig :=
  match Go.as_string (authMap !! key) with
  | Some v => set v cfg
  | None => cfg
  end.

Definition validTypes : list string :=
  [AuthTypeNone; AuthTypeBearer; AuthTypeAPIKey; AuthTypeAPIKeyQuery;
   AuthTypeBasic; AuthTypeCustom].

Definition mem_string (s : string) (l : list string) : bool :=
  existsb (String.eqb s) l.

Definition validateTokenEndpoint (a : AuthConfig) (te : TokenEndpointConfig) : list problem :=
  check (is_empty (te_URL te) && is_empty (te_URLEnv te)) (TokenEndpointURLRequired (ac_Name a))
  ++ check (is_empty (te_Method te)) (TokenEndpointMethodRequired (ac_Name a))
  ++ check (is_empty (te_TokenPath te)) (TokenEndpointTokenPathRequired (ac_Name a)).

Definition has_token_endpoint (a : AuthConfig) : bool :=
  match ac_TokenEndpoint a with Some _ => true | None => false end.

Definition ValidateAuthConfig (a : AuthConfig) : list problem :=
  check (is_empty (ac_Name a)) AuthNameRequired
  ++ check (negb (mem_string (ac_Type a) validTypes)) (AuthInvalidType (ac_Name a) (ac_Type a))
  ++ (if String.eqb (ac_Type a) AuthTypeAPIKey || String.eqb (ac_Type a) AuthTypeCustom then
        check (is_empty (ac_HeaderName a)) (AuthHeaderNameRequired (ac_Name a) (ac_Type a))
        ++ check (is_empty (ac_EnvVar a) && negb (has_token_endpoint a))
             (AuthCredentialRequired (ac_Name a))
      else if String.eqb (ac_Type a) AuthTypeAPIKeyQuery then
        check (is_empty (ac_QueryParam a)) (AuthQueryParamRequired (ac_Name a))
        ++ check (is_empty (ac_EnvVar a)) (AuthQueryEnvVarRequired (ac_Name a))
      else if String.eqb (ac_Type a) AuthTypeBasic then
        check (is_empty (ac_UsernameEnv a) || is_empty (ac_PasswordEnv a))
          (AuthBasicEnvRequired (ac_Name a))
      else if String.eqb (ac_Type a) AuthTypeBearer then
        check (is_empty (ac_EnvVar a) && negb (has_token_endpoint a))
          (AuthBearerCredentialRequired (ac_Name a))
        ++ match ac_TokenEndpoint a with
           | Some te => validateTokenEndpoint a te
           | None => []
           end
      else []).

(** The inline branch of [parseAuthConfigMap]. *)
Definition inline_auth (authMap : gmap string Go.iface) : result AuthConfig :=
  let cfg :=
    override authMap "password_env" with_ac_PasswordEnv
      (override authMap "username_env" with_ac_UsernameEnv
         (override authMap "env_var" with_ac_EnvVar
            (override authMap "query_param" with_ac_QueryParam
               (override authMap "header_name" with_ac_HeaderName
                  (override authMap "type" with_ac_Type zero_AuthConfig))))) in
  if is_empty (ac_Type cfg) then Err ErrInlineAuthMissingType else Ok cfg.

(** [parseAuthConfigMap]: a reference with overrides when the map has a
    non-empty string under ["ref"], an inline definition otherwise. *)
Definition parseAuthConfigMap (authMap : gmap string Go.iface)
    (configs : gmap string AuthConfig) : result AuthConfig :=
  match Go.as_string (authMap !! "ref") with
  | Some ref =>
      if negb (is_empty ref) then
        match configs !! ref with
        | None => Err (ErrAuthConfigNotFound ref)
        | Some baseCfg =>
            Ok (override authMap "query_param" with_ac_QueryParam
                  (override authMap "header_name" with_ac_HeaderName baseCfg))
        end
      else inline_auth authMap
  | None => inline_auth authMap
  end.

Definition none_AuthConfig : AuthConfig := with_ac_Type AuthTypeNone zero_AuthConfig.

Definition ResolveEndpointAuth (auth : Go.iface)
    (configs : gmap string AuthConfig) : result AuthConfig :=
  match auth with
  | Go.INil => Ok none_AuthConfig
  | Go.IString ref =>
      if is_empty ref || String.eqb ref AuthTypeNone then Ok none_AuthConfig
      else
        match configs !! ref with
        | None => Err (ErrAuthConfigNotFound ref)
        | Some cfg => Ok cfg
        end
  | Go.IMap authMap => parseAuthConfigMap authMap configs
  | _ => Err ErrInvalidAuthFormat
  end.

(** *** Outgoing endpoints (endpoint.go of the package) *)

Record Endpoint := {
  ep_Name : string;
  ep_Method : string;
  ep_URLTemplate : string;
  ep_ConfigPath : string;
  ep_FrequencyPerMin : float;
  ep_Auth : Go.iface;
  ep_ResolvedAuth : option AuthConfig;
  ep_Headers : gmap string string;
  ep_Body : Go.iface;
  ep_Timeout : Z;
  ep_Enabled : bool;
  ep_EnabledSet : bool;
}.

Definition with_ep_Timeout (v : Z) (e : Endpoint) : Endpoint :=
  {| ep_Name := ep_Name e; ep_Method := ep_Method e; ep_URLTemplate := ep_URLTemplate e;
     ep_ConfigPath := ep_ConfigPath e; ep_FrequencyPerMin := ep_FrequencyPerMin e;
     ep_Auth := ep_Auth e; ep_ResolvedAuth := ep_ResolvedAuth e;
     ep_Headers := ep_Headers e; ep_Body := ep_Body e; ep_Timeout := v;
     ep_Enabled := ep_Enabled e; ep_EnabledSet := ep_EnabledSet e |}.

Definition with_ep_Method (v : string) (e : Endpoint) : Endpoint :=
  {| ep_Name := ep_Name e; ep_Method := v; ep_URLTemplate := ep_URLTemplate e;
     ep_ConfigPath := ep_ConfigPath e; ep_FrequencyPerMin := ep_FrequencyPerMin e;
     ep_Auth := ep_Auth e; ep_ResolvedAuth := ep_ResolvedAuth e;
     ep_Headers := ep_Headers e; ep_Body := ep_Body e; ep_Timeout := ep_Timeout e;
     ep_Enabled := ep_Enabled e; ep_EnabledSet := ep_EnabledSet e |}.

Definition with_ep_Auth (v : Go.iface) (e : Endpoint) : Endpoint :=
  {| ep_Name := ep_Name e; ep_Method := ep_Method e; ep_URLTemplate := ep_URLTemplate e;
     ep_ConfigPath := ep_ConfigPath e; ep_FrequencyPerMin := ep_FrequencyPerMin e;
     ep_Auth := v; ep_ResolvedAuth := ep_ResolvedAuth e;
     ep_Headers := ep_Headers e; ep_Body := ep_Body e; ep_Timeout := ep_Timeout e;
     ep_Enabled := ep_Enabled e; ep_EnabledSet := ep_EnabledSet e |}.

Definition with_ep_ResolvedAuth (v : option AuthConfig) (e : Endpoint) : Endpoint :=
  {| ep_Name := ep_Name e; ep_Method := ep_Method e; ep_URLTemplate := ep_URLTemplate e;
     ep_ConfigPath := ep_ConfigPath e; ep_FrequencyPerMin := ep_FrequencyPerMin e;
     ep_Auth := ep_Auth e; ep_ResolvedAuth := v;
     ep_Headers := ep_Headers e; ep_Body := ep_Body e; ep_Timeout := ep_Timeout e;
     ep_Enabled := ep_Enabled e; ep_EnabledSet := ep_EnabledSet e |}.

Definition with_ep_Enabled (v : bool) (e : Endpoint) : Endpoint :=
  {| ep_Name := ep_Name e; ep_Method := ep_Method e; ep_URLTemplate := ep_URLTemplate e;
     ep_ConfigPath := ep_ConfigPath e; ep_FrequencyPerMin := ep_FrequencyPerMin e;
     ep_Auth := ep_Auth e; ep_ResolvedAuth := ep_ResolvedAuth e;
     ep_Headers := ep_Headers e; ep_Body := ep_Body e; ep_Timeout := ep_Timeout e;
     ep_Enabled := v; ep_EnabledSet := ep_EnabledSet e |}.

Definition validMethods : list string :=
  ["GET"; "POST"; "PUT"; "DELETE"; "PATCH"; "HEAD"; "OPTIONS"].

Definition ValidateEndpoint (e : Endpoint) : list problem :=
  check (is_empty (ep_Name e)) NameRequired
  ++ (if is_empty (ep_Method e) then [EndpointMethodRequired (ep_Name e)]
      else check (negb (mem_string (ep_Method e) validMethods))
             (EndpointInvalidMethod (ep_Name e) (ep_Method e)))
  ++ check (is_empty (ep_URLTemplate e) && is_empty (ep_ConfigPath e))
       (EndpointURLRequired (ep_Name e))
  ++ check (PrimFloat.ltb (ep_FrequencyPerMin e) 0) (EndpointFrequencyNegative (ep_Name e))
  ++ check (ep_Timeout e <=? 0) (EndpointTimeoutNotPositive (ep_Name e)).

(** *** Incoming routes (incoming.go of the package) *)

Record IncomingResponseConfig := {
  StatusCode : Z;
  Share : float;
  MinResponseMs : Z;
  MaxResponseMs : Z;
}.

Record IncomingEndpoint := {
  ie_Name : string;
  ie_Path : string;
  ie_Method : string;
  ie_Responses : list IncomingResponseConfig;
  ie_Enabled : bool;
  ie_EnabledSet : bool;
}.

Definition with_ie_Method (v : string) (e : IncomingEndpoint) : IncomingEndpoint :=
  {| ie_Name := ie_Name e; ie_Path := ie_Path e; ie_Method := v;
     ie_Responses := ie_Responses e; ie_Enabled := ie_Enabled e;
     ie_EnabledSet := ie_EnabledSet e |}.

Definition with_ie_Enabled (v : bool) (e : IncomingEndpoint) : IncomingEndpoint :=
  {| ie_Name := ie_Name e; ie_Path := ie_Path e; ie_Method := ie_Method e;
     ie_Responses := ie_Responses e; ie_Enabled := v;
     ie_EnabledSet := ie_EnabledSet e |}.

Definition ValidateResponse (r : IncomingResponseConfig)
    (endpointName : string) (i : nat) : list problem :=
  check ((StatusCode r <? 100) || (599 <? StatusCode r)) (ResponseStatusRange endpointName i)
  ++ check (PrimFloat.ltb (Share r) 0 || PrimFloat.ltb 1 (Share r))
       (ResponseShareRange endpointName i)
  ++ check (MinResponseMs r <? 0) (ResponseMinNegative endpointName i)
  ++ check (MaxResponseMs r <? 0) (ResponseMaxNegative endpointName i)
  ++ check (MaxResponseMs r <? MinResponseMs r) (ResponseMaxBelowMin endpointName i).

(** [totalShare] after the loop over the responses. *)
Definition totalShare (rs : list IncomingResponseConfig) : float :=
  fold_left (fun acc r => PrimFloat.add acc (Share r)) rs 0%float.

(** The tolerance [0.001] as the compiler rounds it. *)
Definition share_tolerance : float := 0x1.0624dd2f1a9fcp-10%float.

Definition ValidateIncomingEndpoint (e : IncomingEndpoint) : list problem :=
  check (is_empty (ie_Name e)) NameRequired
  ++ (if is_empty (ie_Path e) then [RoutePathRequired (ie_Name e)]
      else check (negb (Go.HasPrefix (ie_Path e) "/")) (RoutePathNoSlash (ie_Name e)))
  ++ (if is_empty (ie_Method e) then [RouteMethodRequired (ie_Name e)]
      else if negb (String.eqb (ie_Method e) "*") then
        check (negb (mem_string (ie_Method e) validMethods))
          (RouteInvalidMethod (ie_Name e) (ie_Method e))
      else [])
  ++ check (Go.len (ie_Responses e) =? 0) (RouteNoResponses (ie_Name e))
  ++ concat (imap (fun i r => ValidateResponse r (ie_Name e) i) (ie_Responses e))
  ++ check ((0 <? Go.len (ie_Responses e))
            && PrimFloat.ltb share_tolerance
                 (PrimFloat.abs (PrimFloat.sub (totalShare (ie_Responses e)) 1)))
       (RouteSharesSum (ie_Name e) (totalShare (ie_Responses e))).

(** [Clone] copies the record and its slice of responses; on values the
    copy is the value itself. *)
Definition Clone (e : IncomingEndpoint) : IncomingEndpoint := e.

(** *** The configuration and its manager (config.go) *)

Record Config := {
  Enabled : bool;
  GlobalMultiplier : float;
  ConcurrentRequests : Z;
  LogAllRequests : bool;
  APIPort : Z;
  AuthConfigs : gmap string AuthConfig;
  Endpoints : list Endpoint;
  IncomingEnabled : bool;
  IncomingRoutes : list IncomingEndpoint;
}.

Definition with_Enabled (v : bool) (c : Config) : Config :=
  {| Enabled := v; GlobalMultiplier := GlobalMultiplier c;
     ConcurrentRequests := ConcurrentRequests c; LogAllRequests := LogAllRequests c;
     APIPort := APIPort c; AuthConfigs := AuthConfigs c; Endpoints := Endpoints c;
     IncomingEnabled := IncomingEnabled c; IncomingRoutes := IncomingRoutes c |}.

Definition with_GlobalMultiplier (v : float) (c : Config) : Config :=
  {| Enabled := Enabled c; GlobalMultiplier := v;
     ConcurrentRequests := ConcurrentRequests c; LogAllRequests := LogAllRequests c;
     APIPort := APIPort c; AuthConfigs := AuthConfigs c; Endpoints := Endpoints c;
     IncomingEnabled := IncomingEnabled c; IncomingRoutes := IncomingRoutes c |}.

Definition with_ConcurrentRequests (v : Z) (c : Config) : Config :=
  {| Enabled := Enabled c; GlobalMultiplier := GlobalMultiplier c;
     ConcurrentRequests := v; LogAllRequests := LogAllRequests c;
     APIPort := APIPort c; AuthConfigs := AuthConfigs c; Endpoints := Endpoints c;
     IncomingEnabled := IncomingEnabled c; IncomingRoutes := IncomingRoutes c |}.

Definition with_APIPort (v : Z) (c : Config) : Config :=
  {| Enabled := Enabled c; GlobalMultiplier := GlobalMultiplier c;
     ConcurrentRequests := ConcurrentRequests c; LogAllRequests := LogAllRequests c;
     APIPort := v; AuthConfigs := AuthConfigs c; Endpoints := Endpoints c;
     IncomingEnabled := IncomingEnabled c; IncomingRoutes := IncomingRoutes c |}.

Definition with_AuthConfigs (v : gmap string AuthConfig) (c : Config) : Config :=
  {| Enabled := Enabled c; GlobalMultiplier := GlobalMultiplier c;
     ConcurrentRequests := ConcurrentRequests c; LogAllRequests := LogAllRequests c;
     APIPort := APIPort c; AuthConfigs := v; Endpoints := Endpoints c;
     IncomingEnabled := IncomingEnabled c; IncomingRoutes := IncomingRoutes c |}.

Definition with_Endpoints (v : list Endpoint) (c : Config) : Config :=
  {| Enabled := Enabled c; GlobalMultiplier := GlobalMultiplier c;
     ConcurrentRequests := ConcurrentRequests c; LogAllRequests := LogAllRequests c;
     APIPort := APIPort c; AuthConfigs := AuthConfigs c; Endpoints := v;
     IncomingEnabled := IncomingEnabled c; IncomingRoutes := IncomingRoutes c |}.

Definition with_IncomingEnabled (v : bool) (c : Config) : Config :=
  {| Enabled := Enabled c; GlobalMultiplier := GlobalMultiplier c;
     ConcurrentRequests := ConcurrentRequests c; LogAllRequests := LogAllRequests c;
     APIPort := APIPort c; AuthConfigs := AuthConfigs c; Endpoints := Endpoints c;
     IncomingEnabled := v; IncomingRoutes := IncomingRoutes c |}.

Definition with_IncomingRoutes (v : list IncomingEndpoint) (c : Config) : Config :=
  {| Enabled := Enabled c; GlobalMultiplier := GlobalMultiplier c;
     ConcurrentRequests := ConcurrentRequests c; LogAllRequests := LogAllRequests c;
     APIPort := APIPort c; AuthConfigs := AuthConfigs c; Endpoints := Endpoints c;
     IncomingEnabled := IncomingEnabled c; IncomingRoutes := v |}.

(** The manager: the configuration it owns and the path it was loaded
    from.  Its two file readers take no part in the operations below. *)
Record Manager := {
  config : Config;
  configPath : string;
}.

Definition with_config (c : Config) (m : Manager) : Manager :=
  {| config := c; configPath := configPath m |}.

Definition NewManager : Manager :=
  {| config := {| Enabled := true; GlobalMultiplier := 1;
                  ConcurrentRequests := 30; LogAllRequests := false;
                  APIPort := 8080; AuthConfigs := ∅; Endpoints := [];
                  IncomingEnabled := true; IncomingRoutes := [] |};
     configPath := "" |}.

(** The position of the first element that satisfies [f]. *)
Fixpoint find_index {A} (f : A -> bool) (l : list A) : option nat :=
  match l with
  | [] => None
  | x :: l' => if f x then Some O else option_map S (find_index f l')
  end.

(** *** Normalization *)

(** The statements of the loop body of [normalizeEndpoints], one function
    each. *)

(** [if e.Timeout == 0 { e.Timeout = 30 }]. *)
Definition default_timeout (e : Endpoint) : Endpoint :=
  if ep_Timeout e =? 0 then with_ep_Timeout 30 e else e.

(** [if e.Method == "" { e.Method = "GET" }]. *)
Definition default_method (e : Endpoint) : Endpoint :=
  if is_empty (ep_Method e) then with_ep_Method "GET" e else e.

(** [if e.Enabled == false && e.EnabledSet == false { e.Enabled = true }]. *)
Definition default_enabled (e : Endpoint) : Endpoint :=
  if negb (ep_Enabled e) && negb (ep_EnabledSet e) then with_ep_Enabled true e else e.

(** [if e.Auth == nil { e.Auth = "none" }]. *)
Definition default_auth (e : Endpoint) : Endpoint :=
  match ep_Auth e with
  | Go.INil => with_ep_Auth (Go.IString "none") e
  | _ => e
  end.

(** The resolution of [e.Auth], with the fallback to no auth when it
    fails. *)
Definition resolve_or_none (configs : gmap string AuthConfig) (e : Endpoint) : Endpoint :=
  match ResolveEndpointAuth (ep_Auth e) configs with
  | Err _ => with_ep_ResolvedAuth (Some none_AuthConfig) e
  | Ok resolvedAuth => with_ep_ResolvedAuth (Some resolvedAuth) e
  end.

Definition normalize_endpoint (configs : gmap string AuthConfig) (e : Endpoint) : Endpoint :=
  resolve_or_none configs
    (default_auth (default_enabled (default_method (default_timeout e)))).

Definition normalizeEndpoints (m : Manager) : Manager :=
  with_config
    (with_Endpoints
       (map (normalize_endpoint (AuthConfigs (config m))) (Endpoints (config m)))
       (config m)) m.

(** [if r.Method == "" { r.Method = "GET" }]. *)
Definition default_route_method (r : IncomingEndpoint) : IncomingEndpoint :=
  if is_empty (ie_Method r) then with_ie_Method "GET" r else r.

(** [if r.Enabled == false && r.EnabledSet == false { r.Enabled = true }]. *)
Definition default_route_enabled (r : IncomingEndpoint) : IncomingEndpoint :=
  if negb (ie_Enabled r) && negb (ie_EnabledSet r) then with_ie_Enabled true r else r.

Definition normalize_route (r : IncomingEndpoint) : IncomingEndpoint :=
  default_route_enabled (default_route_method r).

Definition normalizeIncomingRoutes (m : Manager) : Manager :=
  with_config
    (with_IncomingRoutes (map normalize_route (IncomingRoutes (config m))) (config m)) m.

(** The normalization every load and replacement ends with. *)
Definition normalize (m : Manager) : Manager :=
  normalizeIncomingRoutes (normalizeEndpoints m).

(** [ReplaceConfig]; [None] is the nil candidate. *)
Definition ReplaceConfig (newCfg : option Config) (m : Manager) : option error * Manager :=
  match newCfg with
  | None => (Some ErrConfigNil, m)
  | Some c =>
      let c := if ConcurrentRequests c <=? 0 then with_ConcurrentRequests 30 c else c in
      let c := if APIPort c <=? 0 then with_APIPort 8080 c else c in
      let c := if PrimFloat.eqb (GlobalMultiplier c) 0
               then with_GlobalMultiplier 1 c else c in
      let c := with_AuthConfigs
                 (map_imap (fun name authCfg => Some (with_ac_Name name authCfg))
                    (AuthConfigs c)) c in
      (None, normalize (with_config c m))
  end.

(** *** Global switches *)

Definition SetEnabled (enabled : bool) (m : Manager) : Manager :=
  with_config (with_Enabled enabled (config m)) m.

Definition IsEnabled (m : Manager) : bool := Enabled (config m).

Definition SetIncomingEnabled (enabled : bool) (m : Manager) : Manager :=
  with_config (with_IncomingEnabled enabled (config m)) m.

Definition has_name (name : string) (e : Endpoint) : bool := String.eqb (ep_Name e) name.

Definition SetEndpointEnabled (name : string) (enabled : bool)
    (m : Manager) : option error * Manager :=
  match find_index (has_name name) (Endpoints (config m)) with
  | Some i =>
      (None, with_config
               (with_Endpoints (alter (with_ep_Enabled enabled) i (Endpoints (config m)))
                  (config m)) m)
  | None => (Some (ErrEndpointNotFound name), m)
  end.

Definition IsEndpointEnabled (name : string) (m : Manager) : result bool :=
  match find (has_name name) (Endpoints (config m)) with
  | Some e => Ok (ep_Enabled e)
  | None => Err (ErrEndpointNotFound name)
  end.

(** *** Endpoint CRUD *)

(** The defaults [AddEndpoint] and [UpdateEndpoint] set: timeout, auth and
    method, in this order. *)
Definition endpoint_defaults (e : Endpoint) : Endpoint :=
  default_method (default_auth (default_timeout e)).

(** Defaults, auth resolution and validation of a candidate endpoint. *)
Definition prepare_endpoint (endpoint : Endpoint) (m : Manager) : result Endpoint :=
  let endpoint := endpoint_defaults endpoint in
  match ResolveEndpointAuth (ep_Auth endpoint) (AuthConfigs (config m)) with
  | Err e => Err (ErrResolveAuth e)
  | Ok resolvedAuth =>
      let endpoint := with_ep_ResolvedAuth (Some resolvedAuth) endpoint in
      match ValidateEndpoint endpoint with
      | [] => Ok endpoint
      | errors => Err (ErrValidationFailed errors)
      end
  end.

Definition AddEndpoint (endpoint : Endpoint) (m : Manager) : option error * Manager :=
  if existsb (has_name (ep_Name endpoint)) (Endpoints (config m))
  then (Some (ErrEndpointExists (ep_Name endpoint)), m)
  else
    match prepare_endpoint endpoint m with
    | Err e => (Some e, m)
    | Ok endpoint =>
        (None, with_config
                 (with_Endpoints (Endpoints (config m) ++ [endpoint]) (config m)) m)
    end.

(** [ep.Name == name && i != j] for some [j, ep]. *)
Definition taken_elsewhere {A} (name_of : A -> string) (name : string)
    (i : nat) (l : list A) : bool :=
  existsb (fun je => String.eqb (name_of (snd je)) name && negb (Nat.eqb i (fst je)))
    (imap pair l).

Definition UpdateEndpoint (name : string) (endpoint : Endpoint)
    (m : Manager) : option error * Manager :=
  match find_index (has_name name) (Endpoints (config m)) with
  | None => (Some (ErrEndpointNotFound name), m)
  | Some i =>
      if negb (String.eqb (ep_Name endpoint) name)
         && taken_elsewhere ep_Name (ep_Name endpoint) i (Endpoints (config m))
      then (Some (ErrEndpointNameTaken (ep_Name endpoint)), m)
      else
        match prepare_endpoint endpoint m with
        | Err e => (Some e, m)
        | Ok endpoint =>
            (None, with_config
                     (with_Endpoints (<[i := endpoint]> (Endpoints (config m)))
                        (config m)) m)
        end
  end.

Definition DeleteEndpoint (name : string) (m : Manager) : option error * Manager :=
  match find_index (has_name name) (Endpoints (config m)) with
  | Some i =>
      (None, with_config
               (with_Endpoints (Go.remove_at i (Endpoints (config m))) (config m)) m)
  | None => (Some (ErrEndpointNotFound name), m)
  end.

(** *** Auth config CRUD *)

Definition AddAuthConfig (authCfg : AuthConfig) (m : Manager) : option error * Manager :=
  if is_empty (ac_Name authCfg) then (Some ErrAuthNameRequired, m)
  else
    match AuthConfigs (config m) !! ac_Name authCfg with
    | Some _ => (Some (ErrAuthConfigExists (ac_Name authCfg)), m)
    | None =>
        match ValidateAuthConfig authCfg with
        | [] =>
            (None, with_config
                     (with_AuthConfigs
                        (<[ac_Name authCfg := authCfg]> (AuthConfigs (config m)))
                        (config m)) m)
        | errors => (Some (ErrValidationFailed errors), m)
        end
    end.

(** [UpdateAuthConfig]: the old name is removed before the candidate is
    validated. *)
Definition UpdateAuthConfig (name : string) (authCfg : AuthConfig)
    (m : Manager) : option error * Manager :=
  match AuthConfigs (config m) !! name with
  | None => (Some (ErrAuthConfigNotFound name), m)
  | Some _ =>
      let renamed := negb (String.eqb (ac_Name authCfg) name) in
      match (if renamed then AuthConfigs (config m) !! ac_Name authCfg else None) with
      | Some _ => (Some (ErrAuthConfigNameTaken (ac_Name authCfg)), m)
      | None =>
          let m := if renamed
                   then with_config
                          (with_AuthConfigs (delete name (AuthConfigs (config m)))
                             (config m)) m
                   else m in
          match ValidateAuthConfig authCfg with
          | [] =>
              (None, with_config
                       (with_AuthConfigs
                          (<[ac_Name authCfg := authCfg]> (AuthConfigs (config m)))
                          (config m)) m)
          | errors => (Some (ErrValidationFailed errors), m)
          end
      end
  end.

(** [authRef, ok := ep.Auth.(string); ok && authRef == name]. *)
Definition uses_auth (name : string) (ep : Endpoint) : bool :=
  match ep_Auth ep with
  | Go.IString authRef => String.eqb authRef name
  | _ => false
  end.

Definition DeleteAuthConfig (name : string) (m : Manager) : option error * Manager :=
  match AuthConfigs (config m) !! name with
  | None => (Some (ErrAuthConfigNotFound name), m)
  | Some _ =>
      match find (uses_auth name) (Endpoints (config m)) with
      | Some ep => (Some (ErrAuthConfigInUse name (ep_Name ep)), m)
      | None =>
          (None, with_config
                   (with_AuthConfigs (delete name (AuthConfigs (config m)))
                      (config m)) m)
      end
  end.

(** *** Incoming route CRUD *)

Definition route_has_name (name : string) (r : IncomingEndpoint) : bool :=
  String.eqb (ie_Name r) name.

Definition prepare_route (route : IncomingEndpoint) : result IncomingEndpoint :=
  let route := default_route_method route in
  match ValidateIncomingEndpoint route with
  | [] => Ok route
  | errors => Err (ErrValidationFailed errors)
  end.

Definition AddIncomingRoute (route : IncomingEndpoint)
    (m : Manager) : option error * Manager :=
  if existsb (route_has_name (ie_Name route)) (IncomingRoutes (config m))
  then (Some (ErrRouteExists (ie_Name route)), m)
  else
    match prepare_route route with
    | Err e => (Some e, m)
    | Ok route =>
        (None, with_config
                 (with_IncomingRoutes (IncomingRoutes (config m) ++ [route]) (config m)) m)
    end.

Definition UpdateIncomingRoute (name : string) (route : IncomingEndpoint)
    (m : Manager) : option error * Manager :=
  match find_index (route_has_name name) (IncomingRoutes (config m)) with
  | None => (Some (ErrRouteNotFound name), m)
  | Some i =>
      if negb (String.eqb (ie_Name route) name)
         && taken_elsewhere ie_Name (ie_Name route) i (IncomingRoutes (config m))
      then (Some (ErrRouteNameTaken (ie_Name route)), m)
      else
        match prepare_route route with
        | Err e => (Some e, m)
        | Ok route =>
            (None, with_config
                     (with_IncomingRoutes (<[i := route]> (IncomingRoutes (config m)))
                        (config m)) m)
        end
  end.

Definition DeleteIncomingRoute (name : string) (m : Manager) : option error * Manager :=
  match find_index (route_has_name name) (IncomingRoutes (config m)) with
  | Some i =>
      (None, with_config
               (with_IncomingRoutes (Go.remove_at i (IncomingRoutes (config m)))
                  (config m)) m)
  | None => (Some (ErrRouteNotFound name), m)
  end.

Definition SetIncomingRouteEnabled (name : string) (enabled : bool)
    (m : Manager) : option error * Manager :=
  match find_index (route_has_name name) (IncomingRoutes (config m)) with
  | Some i =>
      (None, with_config
               (with_IncomingRoutes
                  (alter (with_ie_Enabled enabled) i (IncomingRoutes (config m)))
                  (config m)) m)
  | None => (Some (ErrRouteNotFound name), m)
  end.

(** *** Route matching *)

(** Whether [route] answers [path] and [method], and with which suffix. *)
Definition route_match (path method : string) (route : IncomingEndpoint) : option string :=
  if negb (ie_Enabled route) then None
  else if negb (String.eqb (ie_Method route) "*")
          && negb (String.eqb (ie_Method route) method) then None
  else if Go.HasPrefix path (ie_Path route) then
    let suffix := Go.TrimPrefix path (ie_Path route) in
    if is_empty suffix || Go.HasPrefix suffix "/" then Some suffix else None
  else None.

(** The conditions of the specification, in its words: the route is
    enabled, its method is ["*"] or the method of the request, [path]
    starts with the path of the route, and the remainder [suffix] is empty
    or begins with ["/"]. *)
Definition answers (path method : string) (route : IncomingEndpoint)
    (suffix : string) : Prop :=
  ie_Enabled route = true
  /\ (ie_Method route = "*" \/ ie_Method route = method)
  /\ path = String.append (ie_Path route) suffix
  /\ (suffix = "" \/ exists rest, suffix = String.append "/" rest).

(** The loop over the sorted routes: the first that matches. *)
Fixpoint first_match (path method : string)
    (routes : list IncomingEndpoint) : option (IncomingEndpoint * string) :=
  match routes with
  | [] => None
  | route :: routes' =>
      match route_match path method route with
      | Some suffix => Some (Clone route, suffix)
      | None => first_match path method routes'
      end
  end.

(** [len(a.Path) > len(b.Path)], the [less] handed to [sort.Slice]. *)
Definition longer_path (a b : IncomingEndpoint) : bool :=
  Go.len_string (ie_Path b) <? Go.len_string (ie_Path a).

(** What [sort.Slice] guarantees of its result: a rearrangement in which
    no element is [less] than an earlier one.  The library does not
    promise which of two routes with paths of equal length comes
    first. *)
Definition sorts_longest_first
    (sortSlice : list IncomingEndpoint -> list IncomingEndpoint) : Prop :=
  forall l, Permutation (sortSlice l) l
            /\ StronglySorted (fun a b => longer_path b a = false) (sortSlice l).

Fixpoint insert_route (r : IncomingEndpoint) (l : list IncomingEndpoint)
    : list IncomingEndpoint :=
  match l with
  | [] => [r]
  | x :: l' => if longer_path r x then r :: l else x :: insert_route r l'
  end.

(** One sort that meets [sorts_longest_first]: a stable insertion sort. *)
Definition insertion_sort (l : list IncomingEndpoint) : list IncomingEndpoint :=
  fold_right insert_route [] l.

(** [MatchIncomingRoute], for the sort handed in; [None] is the result
    [(nil, "", false)]. *)
Definition MatchIncomingRoute
    (sortSlice : list IncomingEndpoint -> list IncomingEndpoint)
    (path method : string) (m : Manager) : option (IncomingEndpoint * string) :=
  if negb (IncomingEnabled (config m)) then None
  else first_match path method (sortSlice (IncomingRoutes (config m))).

(** An enabled route for [path] that answers every method with status
    200, and a manager that holds the given routes: the configurations of
    the examples. *)
Definition open_route (path : string) : IncomingEndpoint :=
  {| ie_Name := path; ie_Path := path; ie_Method := "*";
     ie_Responses := [{| StatusCode := 200; Share := 1;
                         MinResponseMs := 0; MaxResponseMs := 0 |}];
     ie_Enabled := true; ie_EnabledSet := true |}.

Definition manager_with_routes (routes : list IncomingEndpoint) : Manager :=
  with_config (with_IncomingRoutes routes (config NewManager)) NewManager.

(** *** Validation of the whole configuration *)

(** The loop of [Validate]: [seen] holds the names met so far. *)
Fixpoint validate_endpoints (seen : gset string) (l : list Endpoint) : list problem :=
  match l with
  | [] => []
  | ep :: l' =>
      check (bool_decide (ep_Name ep ∈ seen)) (DuplicateEndpointName (ep_Name ep))
      ++ ValidateEndpoint ep
      ++ validate_endpoints ({[ep_Name ep]} ∪ seen) l'
  end.

Definition Validate (m : Manager) : list problem :=
  check (PrimFloat.ltb (GlobalMultiplier (config m)) 0) GlobalMultiplierNegative
  ++ check (ConcurrentRequests (config m) <=? 0) ConcurrentRequestsNotPositive
  ++ check (Go.len (Endpoints (config m)) =? 0) NoEndpoints
  ++ validate_endpoints ∅ (Endpoints (config m)).

(** *** The mutations of the store *)

Inductive mutation :=
  | MAddEndpoint (endpoint : Endpoint)
  | MUpdateEndpoint (name : string) (endpoint : Endpoint)
  | MDeleteEndpoint (name : string)
  | MSetEndpointEnabled (name : string) (enabled : bool)
  | MAddAuthConfig (authCfg : AuthConfig)
  | MUpdateAuthConfig (name : string) (authCfg : AuthConfig)
  | MDeleteAuthConfig (name : string)
  | MAddIncomingRoute (route : IncomingEndpoint)
  | MUpdateIncomingRoute (name : string) (route : IncomingEndpoint)
  | MDeleteIncomingRoute (name : string)
  | MSetIncomingRouteEnabled (name : string) (enabled : bool)
  | MReplaceConfig (newCfg : option Config).

Definition apply_mutation (mu : mutation) (m : Manager) : option error * Manager :=
  match mu with
  | MAddEndpoint endpoint => AddEndpoint endpoint m
  | MUpdateEndpoint name endpoint => UpdateEndpoint name endpoint m
  | MDeleteEndpoint name => DeleteEndpoint name m
  | MSetEndpointEnabled name enabled => SetEndpointEnabled name enabled m
  | MAddAuthConfig authCfg => AddAuthConfig authCfg m
  | MUpdateAuthConfig name authCfg => UpdateAuthConfig name authCfg m
  | MDeleteAuthConfig name => DeleteAuthConfig name m
  | MAddIncomingRoute route => AddIncomingRoute route m
  | MUpdateIncomingRoute name route => UpdateIncomingRoute name route m
  | MDeleteIncomingRoute name => DeleteIncomingRoute name m
  | MSetIncomingRouteEnabled name enabled => SetIncomingRouteEnabled name enabled m
  | MReplaceConfig newCfg => ReplaceConfig newCfg m
  end.

(** An [UpdateAuthConfig] that renames the config to a name that is free
    and hands in a candidate that does not validate. *)
Definition renames_to_invalid (mu : mutation) (m : Manager) : Prop :=
  match mu with
  | MUpdateAuthConfig name authCfg =>
      ac_Name authCfg <> name
      /\ AuthConfigs (config m) !! ac_Name authCfg = None
      /\ ValidateAuthConfig authCfg <> []
  | _ => False
  end.

(** *** Example values *)

(** A valid bearer config that reads its token from the environment. *)
Definition bearer_auth (name : string) : AuthConfig :=
  {| ac_Name := name; ac_Type := AuthTypeBearer; ac_Description := "";
     ac_HeaderName := ""; ac_QueryParam := ""; ac_EnvVar := "API_TOKEN";
     ac_UsernameEnv := ""; ac_PasswordEnv := ""; ac_TokenEndpoint := None;
     ac_RefreshBeforeExpiry := 0 |}.


(** A valid endpoint with the given [auth] field. *)
Definition get_endpoint (name : string) (auth : Go.iface) : Endpoint :=
  {| ep_Name := name; ep_Method := "GET"; ep_URLTemplate := "http://localhost/";
     ep_ConfigPath := ""; ep_FrequencyPerMin := 60; ep_Auth := auth;
     ep_ResolvedAuth := None; ep_Headers := ∅; ep_Body := Go.INil;
     ep_Timeout := 30; ep_Enabled := true; ep_EnabledSet := true |}.

(** The inline descriptor [{ref: name}]. *)
Definition inline_ref (name : string) : Go.iface :=
  Go.IMap (<["ref" := Go.IString name]> ∅).

(** A store with the auth config ["a"] alone. *)
Definition store_with_a : Manager := snd (AddAuthConfig (bearer_auth "a") NewManager).

(** The same store after an endpoint ["e"] that refers to ["a"] through
    [auth] was added. *)
Definition store_with_endpoint (auth : Go.iface) : Manager :=
  snd (AddEndpoint (get_endpoint "e" auth) store_with_a).

(** *** Reads of the store *)

Definition GetEndpoints (m : Manager) : list Endpoint := Endpoints (config m).

Definition GetEndpoint (name : string) (m : Manager) : result Endpoint :=
  match find (has_name name) (Endpoints (config m)) with
  | Some ep => Ok ep
  | None => Err (ErrEndpointNotFound name)
  end.

Definition GetAuthConfig (name : string) (m : Manager) : result AuthConfig :=
  match AuthConfigs (config m) !! name with
  | Some cfg => Ok cfg
  | None => Err (ErrAuthConfigNotFound name)
  end.

Definition GetIncomingRoute (name : string) (m : Manager) : result IncomingEndpoint :=
  match find (route_has_name name) (IncomingRoutes (config m)) with
  | Some route => Ok (Clone route)
  | None => Err (ErrRouteNotFound name)
  end.

(** The mutations of single entries: all but the replacement of the whole
    configuration. *)
Definition is_crud (mu : mutation) : bool :=
  match mu with
  | MReplaceConfig _ => false
  | _ => true
  end.

(** The names of the endpoints and of the routes are pairwise distinct. *)
Definition distinct_names (m : Manager) : Prop :=
  NoDup (map ep_Name (Endpoints (config m)))
  /\ NoDup (map ie_Name (IncomingRoutes (config m))).

(** Every entry of the store validates, every endpoint carries its
    resolved auth, and every auth config is stored under its name. *)
Definition entries_valid (m : Manager) : Prop :=
  Forall (fun e => ValidateEndpoint e = [] /\ is_Some (ep_ResolvedAuth e))
    (Endpoints (config m))
  /\ Forall (fun r => ValidateIncomingEndpoint r = []) (IncomingRoutes (config m))
  /\ map_Forall (fun name a => ValidateAuthConfig a = [] /\ ac_Name a = name)
       (AuthConfigs (config m)).

(** [GetConfig] returns a copy. *)
Definition GetConfig (m : Manager) : Config := config m.


(** *** JSON paths (ExtractJSONPath) *)

(** The errors of [ExtractJSONPath]. *)
Inductive path_error :=
  | ErrPathEmpty                                        (* json path is empty *)
  | ErrExpectedObject (segment : string) (got : Go.iface)
      (* expected object at path segment '%s', got %T *)
  | ErrSegmentNotFound (part : string).                 (* path segment '%s' not found *)

(** The loop of [ExtractJSONPath]: [seen] are the parts already walked,
    [parts] the ones ahead. *)
Fixpoint walk_path (seen parts : list string) (current : Go.iface)
    : path_error + Go.iface :=
  match parts with
  | [] => inr current
  | part :: parts' =>
      match current with
      | Go.IMap currentMap =>
          match currentMap !! part with
          | Some value => walk_path (seen ++ [part]) parts' value
          | None => inl (ErrSegmentNotFound part)
          end
      | _ => inl (ErrExpectedObject (Go.join_dots seen) current)
      end
  end.

Definition ExtractJSONPath (data : gmap string Go.iface) (path : string)
    : path_error + Go.iface :=
  if is_empty path then inl ErrPathEmpty
  else walk_path [] (Go.split_dots path) (Go.IMap data).

(** No dot occurs in [s]. *)
Fixpoint dotless (s : string) : bool :=
  match s with
  | EmptyString => true
  | String c s' => negb (Ascii.eqb c "."%char) && dotless s'
  end.

End config.

(** ** Package client: the token manager *)

Module client.

(** [context.Canceled] and [context.DeadlineExceeded]. *)
Inductive ctx_error := Canceled | DeadlineExceeded.

#[warnings="-register-all"]
Inductive error :=
  | ErrAuthConfigNotFound (name : string)   (* auth config not found: %s *)
  | ErrContext (e : ctx_error)              (* ctx.Err() *)
  | ErrFetch (msg : string)                 (* any error of fetchToken *)
  | ErrRefreshFailed (lastErr : option error) (* failed to refresh token after 3 retries: %w *)
  | ErrNoTokenEndpoint (name : string).     (* auth config %s does not have a token endpoint *)

(** Times are instants in nanoseconds; a [time.Duration] is a count of
    nanoseconds in an [int64]. *)
Definition Second : Z := 1000000000.

Record ManagedToken := {
  Value : string;
  ExpiresAt : Z;
  RefreshAt : Z;
  LastRefresh : Z;
  LastError : option error;
  ErrorCount : Z;
}.

Record TokenManager := {
  tokens : gmap string ManagedToken;
  authConfigs : gmap string config.AuthConfig;
}.

Definition with_tokens (t : gmap string ManagedToken) (tm : TokenManager) : TokenManager :=
  {| tokens := t; authConfigs := authConfigs tm |}.

Definition NewTokenManager (authConfigs : gmap string config.AuthConfig) : TokenManager :=
  {| tokens := ∅; authConfigs := authConfigs |}.

(** What one call of [fetchToken] yields: the token and its expiry, or an
    error. *)
Inductive fetched :=
  | FetchOk (tokenValue : string) (expiresAt : Z)
  | FetchErr (e : error).

(** What a refresh observes of the world while it runs: the clock at the
    freshness re-check, the outcome of the [attempt]-th call of
    [fetchToken], whether the context is done before the delay ahead of
    the [attempt]-th call has elapsed (and with which error), and the
    clock when a fetched token is stored. *)
Record world := {
  now_check : Z;
  fetch : nat -> fetched;
  done_during_wait : nat -> option ctx_error;
  now_store : Z;
}.

(** How the retry loop ends. *)
Inductive loop_end :=
  | Stored (tokenValue : string) (expiresAt : Z)
  | Interrupted (e : ctx_error)
  | Exhausted (lastErr : option error).

(** [for attempt := 0; attempt <= 3; attempt++]: [n] iterations are left,
    the next being number [attempt]. *)
Fixpoint retry (w : world) (n attempt : nat) (lastErr : option error) : loop_end :=
  match n with
  | O => Exhausted lastErr
  | S n' =>
      match (if Nat.ltb 0 attempt then done_during_wait w attempt else None) with
      | Some e => Interrupted e
      | None =>
          match fetch w attempt with
          | FetchOk tokenValue expiresAt => Stored tokenValue expiresAt
          | FetchErr e => retry w n' (S attempt) (Some e)
          end
      end
  end.

(** [time.Duration(cfg.RefreshBeforeExpiry) * time.Second], 60 s when
    zero. *)
Definition refreshBeforeExpiry (cfg : config.AuthConfig) : Z :=
  let d := Go.wrap64 (config.ac_RefreshBeforeExpiry cfg * Second) in
  if d =? 0 then 60 * Second else d.

(** The result of [refreshToken] is [(value, err)]. *)
Definition refreshToken (w : world) (authName : string) (cfg : config.AuthConfig)
    (tm : TokenManager) : (string * option error) * TokenManager :=
  let fresh :=
    match tokens tm !! authName with
    | Some token => if now_check w <? RefreshAt token then Some (Value token) else None
    | None => None
    end in
  match fresh with
  | Some value => ((value, None), tm)
  | None =>
      match retry w 4 0 None with
      | Stored tokenValue expiresAt =>
          let newToken :=
            {| Value := tokenValue; ExpiresAt := expiresAt;
               RefreshAt := expiresAt - refreshBeforeExpiry cfg;
               LastRefresh := now_store w; LastError := None; ErrorCount := 0 |} in
          ((tokenValue, None), with_tokens (<[authName := newToken]> (tokens tm)) tm)
      | Interrupted e => (("", Some (ErrContext e)), tm)
      | Exhausted lastErr =>
          match tokens tm !! authName with
          | Some existingToken =>
              let kept :=
                {| Value := Value existingToken; ExpiresAt := ExpiresAt existingToken;
                   RefreshAt := RefreshAt existingToken;
                   LastRefresh := LastRefresh existingToken;
                   LastError := lastErr;
                   ErrorCount := Go.wrap64 (ErrorCount existingToken + 1) |} in
              ((Value existingToken, None),
               with_tokens (<[authName := kept]> (tokens tm)) tm)
          | None => (("", Some (ErrRefreshFailed lastErr)), tm)
          end
      end
  end.

(** [GetToken]; [getenv] is the environment lookup and [now] the clock
    read by the freshness test. *)
Definition GetToken (getenv : string -> string) (now : Z) (w : world)
    (authName : string) (tm : TokenManager) : (string * option error) * TokenManager :=
  match authConfigs tm !! authName with
  | None => (("", Some (ErrAuthConfigNotFound authName)), tm)
  | Some authCfg =>
      match config.ac_TokenEndpoint authCfg with
      | None =>
          if config.is_empty (config.ac_EnvVar authCfg) then (("", None), tm)
          else ((getenv (config.ac_EnvVar authCfg), None), tm)
      | Some _ =>
          match tokens tm !! authName with
          | Some token =>
              if RefreshAt token <? now then refreshToken w authName authCfg tm
              else ((Value token, None), tm)
          | None => refreshToken w authName authCfg tm
          end
      end
  end.

Definition ForceRefresh (w : world) (authName : string)
    (tm : TokenManager) : option error * TokenManager :=
  match authConfigs tm !! authName with
  | None => (Some (ErrAuthConfigNotFound authName), tm)
  | Some authCfg =>
      match config.ac_TokenEndpoint authCfg with
      | None => (Some (ErrNoTokenEndpoint authName), tm)
      | Some _ =>
          let '((_, err), tm') := refreshToken w authName authCfg tm in (err, tm')
      end
  end.

(** The field of [TokenStatus] the scenarios read. *)
Definition error_count (authName : string) (tm : TokenManager) : Z :=
  match tokens tm !! authName with
  | Some token => ErrorCount token
  | None => 0
  end.

(** *** Example values *)

(** A bearer config with a token endpoint. *)
Definition refreshing_auth (name : string) : config.AuthConfig :=
  {| config.ac_Name := name; config.ac_Type := config.AuthTypeBearer;
     config.ac_Description := ""; config.ac_HeaderName := "";
     config.ac_QueryParam := ""; config.ac_EnvVar := "";
     config.ac_UsernameEnv := ""; config.ac_PasswordEnv := "";
     config.ac_TokenEndpoint :=
       Some {| config.te_URL := "http://localhost/token"; config.te_URLEnv := "";
               config.te_Method := "POST"; config.te_UsernameEnv := "";
               config.te_PasswordEnv := ""; config.te_Headers := ∅;
               config.te_Body := Go.INil; config.te_TokenPath := "access_token";
               config.te_ExpiresPath := "expires_in" |};
     config.ac_RefreshBeforeExpiry := 0 |}.

(** A token fetched at time 0 that expires after 60 s: it is due for
    refresh from time 0 on. *)
Definition token_T1 : ManagedToken :=
  {| Value := "T1"; ExpiresAt := 60 * Second; RefreshAt := 0; LastRefresh := 0;
     LastError := None; ErrorCount := 0 |}.

(** A manager that holds [token_T1] for the auth ["a"]. *)
Definition manager_with_T1 : TokenManager :=
  {| tokens := <["a" := token_T1]> ∅;
     authConfigs := <["a" := refreshing_auth "a"]> ∅ |}.

(** The token endpoint answers 500 to every attempt; [interrupt] tells
    when the context is done. *)
Definition failing_world (now : Z) (interrupt : nat -> option ctx_error) : world :=
  {| now_check := now; fetch := fun _ => FetchErr (ErrFetch "token endpoint returned status 500");
     done_during_wait := interrupt; now_store := now |}.

(** The token endpoint answers with the token T1 that expires in 60 s. *)
Definition serving_world (now : Z) : world :=
  {| now_check := now; fetch := fun _ => FetchOk "T1" (now + 60 * Second);
     done_during_wait := fun _ => None; now_store := now |}.

(** *** Request results (client.go) *)

Record RequestResult := {
  EndpointName : string;
  URL : string;
  Method : string;
  StatusCode : Z;
  Success : bool;
  Error : string;
  ErrorType : string;
  TotalTimeMs : float;
  DNSTimeMs : float;
  ConnectTimeMs : float;
  TLSTimeMs : float;
  TimeToFirstByte : float;
  Hostname : string;
  ResponseSize : Z;
  RequestTimestamp : Z;
}.

Definition with_error (errorType error : string) (r : RequestResult) : RequestResult :=
  {| EndpointName := EndpointName r; URL := URL r; Method := Method r;
     StatusCode := StatusCode r; Success := Success r;
     Error := error; ErrorType := errorType;
     TotalTimeMs := TotalTimeMs r; DNSTimeMs := DNSTimeMs r;
     ConnectTimeMs := ConnectTimeMs r; TLSTimeMs := TLSTimeMs r;
     TimeToFirstByte := TimeToFirstByte r; Hostname := Hostname r;
     ResponseSize := ResponseSize r; RequestTimestamp := RequestTimestamp r |}.

(** *** Tokens set by hand *)

(** [SetToken]: [now] is the clock read for the expiry and [now_store]
    the clock read for [LastRefresh]; [expiresIn] is a [time.Duration]. *)
Definition SetToken (authName token : string) (expiresIn : Z) (now now_store : Z)
    (tm : TokenManager) : option error * TokenManager :=
  match authConfigs tm !! authName with
  | None => (Some (ErrAuthConfigNotFound authName), tm)
  | Some _ =>
      let expiresAt := now + expiresIn in
      let refreshAt := expiresAt - 60 * Second in
      (None,
       with_tokens
         (<[authName := {| Value := token; ExpiresAt := expiresAt; RefreshAt := refreshAt;
                           LastRefresh := now_store; LastError := None;
                           ErrorCount := 0 |}]> (tokens tm)) tm)
  end.

End client.

(** ** Package metrics: DNS metrics of a domain (domain.go) *)

Module domain.

Record DomainMetrics := {
  TotalLookups : Z;
  SuccessfulLookups : Z;
  FailedLookups : Z;
  TotalDNSTimeMs : float;
  DNSTimes : metrics.RingBuffer;
  LastError : string;
}.

Definition NewDomainMetrics : option DomainMetrics :=
  match metrics.NewRingBuffer 1000 with
  | Some dt =>
      Some {| TotalLookups := 0; SuccessfulLookups := 0; FailedLookups := 0;
              TotalDNSTimeMs := 0; DNSTimes := dt; LastError := "" |}
  | None => None
  end.

Definition RecordSuccess (dnsTimeMs : float) (dm : DomainMetrics) : option DomainMetrics :=
  match metrics.Add dnsTimeMs (DNSTimes dm) with
  | Some dt =>
      Some {| TotalLookups := Go.wrap64 (TotalLookups dm + 1);
              SuccessfulLookups := Go.wrap64 (SuccessfulLookups dm + 1);
              FailedLookups := FailedLookups dm;
              TotalDNSTimeMs := PrimFloat.add (TotalDNSTimeMs dm) dnsTimeMs;
              DNSTimes := dt; LastError := LastError dm |}
  | None => None
  end.

Definition RecordFailure (errorMsg : string) (dm : DomainMetrics) : DomainMetrics :=
  {| TotalLookups := Go.wrap64 (TotalLookups dm + 1);
     SuccessfulLookups := SuccessfulLookups dm;
     FailedLookups := Go.wrap64 (FailedLookups dm + 1);
     TotalDNSTimeMs := TotalDNSTimeMs dm;
     DNSTimes := DNSTimes dm; LastError := errorMsg |}.

Definition Reset (dm : DomainMetrics) : DomainMetrics :=
  {| TotalLookups := 0; SuccessfulLookups := 0; FailedLookups := 0;
     TotalDNSTimeMs := 0; DNSTimes := metrics.Reset (DNSTimes dm); LastError := "" |}.

End domain.

(** ** Package metrics: the collector of request results (collector.go) *)

Module collector.

Record Collector := {
  startTime : Z;
  totalRequests : Z;
  totalSuccesses : Z;
  totalFailures : Z;
  endpoints : gmap string metrics.EndpointMetrics;
  domains : gmap string domain.DomainMetrics;
}.

(** [now] is the reading of [time.Now()]. *)
Definition NewCollector (now : Z) : Collector :=
  {| startTime := now; totalRequests := 0; totalSuccesses := 0; totalFailures := 0;
     endpoints := ∅; domains := ∅ |}.

(** [domain, exists := c.domains[hostname]; if !exists { domain =
    NewDomainMetrics() }]. *)
Definition domain_of (hostname : string)
    (domains : gmap string domain.DomainMetrics) : option domain.DomainMetrics :=
  match domains !! hostname with
  | Some d => Some d
  | None => domain.NewDomainMetrics
  end.

(** The update of the domain metrics at the end of [Record]. *)
Definition record_domain (result : client.RequestResult)
    (domains : gmap string domain.DomainMetrics)
    : option (gmap string domain.DomainMetrics) :=
  if negb (config.is_empty (client.Hostname result)) then
    if PrimFloat.ltb 0 (client.DNSTimeMs result)
       && negb (String.eqb (client.ErrorType result) "dns") then
      match domain_of (client.Hostname result) domains with
      | Some d =>
          match domain.RecordSuccess (client.DNSTimeMs result) d with
          | Some d' => Some (<[client.Hostname result := d']> domains)
          | None => None
          end
      | None => None
      end
    else if String.eqb (client.ErrorType result) "dns" then
      match domain_of (client.Hostname result) domains with
      | Some d =>
          Some (<[client.Hostname result := domain.RecordFailure (client.Error result) d]>
                  domains)
      | None => None
      end
    else Some domains
  else Some domains.

(** [Record]; [None] is a panic. *)
Definition Record (result : client.RequestResult) (now : Z)
    (c : Collector) : option Collector :=
  let ep :=
    match endpoints c !! client.EndpointName result with
    | Some ep => Some ep
    | None => metrics.NewEndpointMetrics (client.URL result) (client.Hostname result)
    end in
  match ep with
  | None => None
  | Some ep =>
      let recorded :=
        if client.Success result then
          metrics.RecordSuccess (client.TotalTimeMs result) (client.DNSTimeMs result)
            (client.ConnectTimeMs result) (client.StatusCode result) now ep
        else
          metrics.RecordFailure (client.TotalTimeMs result) (client.DNSTimeMs result)
            (client.ConnectTimeMs result) (client.StatusCode result)
            (client.ErrorType result) (client.Error result) ep in
      match recorded, record_domain result (domains c) with
      | Some ep', Some domains' =>
          Some {| startTime := startTime c;
                  totalRequests := Go.wrap64 (totalRequests c + 1);
                  totalSuccesses := if client.Success result
                                    then Go.wrap64 (totalSuccesses c + 1)
                                    else totalSuccesses c;
                  totalFailures := if client.Success result then totalFailures c
                                   else Go.wrap64 (totalFailures c + 1);
                  endpoints := <[client.EndpointName result := ep']> (endpoints c);
                  domains := domains' |}
      | _, _ => None
      end
  end.

Definition Reset (now : Z) (c : Collector) : Collector := NewCollector now.

Definition GetTotalRequests (c : Collector) : Z := totalRequests c.

Definition GetSuccessRate (c : Collector) : float :=
  if totalRequests c =? 0 then 100%float
  else PrimFloat.mul
         (PrimFloat.div (Go.float_of_int (totalSuccesses c))
            (Go.float_of_int (totalRequests c))) 100.

(** What a collector is asked to do. *)
Inductive op :=
  | OpRecord (result : client.RequestResult) (now : Z)
  | OpReset (now : Z).

Definition apply_op (o : op) (c : Collector) : option Collector :=
  match o with
  | OpRecord result now => Record result now c
  | OpReset now => Some (Reset now c)
  end.

Fixpoint run (ops : list op) (c : Collector) : option Collector :=
  match ops with
  | [] => Some c
  | o :: ops' => match apply_op o c with Some c' => run ops' c' | None => None end
  end.

(** The sum of [f] over the values of a map. *)
Definition total {K} `{Countable K} {A} (f : A -> Z) (m : gmap K A) : Z :=
  map_fold (fun _ x acc => f x + acc) 0 m.

End collector.

(** ** Package metrics: the metrics of the incoming routes *)

Module incoming.

Record IncomingRouteMetrics := {
  TotalRequests : Z;
  ResponsesByStatus : gmap Z Z;
  TotalResponseMs : float;
  ResponseTimes : metrics.RingBuffer;
  LastRequest : option Z;   (* [time.Time]; [None] is the zero time *)
  RouteName : string;
  RoutePath : string;
}.

Definition NewIncomingRouteMetrics (routeName routePath : string)
    : option IncomingRouteMetrics :=
  match metrics.NewRingBuffer 1000 with
  | Some rt =>
      Some {| TotalRequests := 0; ResponsesByStatus := ∅; TotalResponseMs := 0;
              ResponseTimes := rt; LastRequest := None;
              RouteName := routeName; RoutePath := routePath |}
  | None => None
  end.

(** [m.ResponsesByStatus[statusCode]++]: a status that is not in the map
    counts from zero. *)
Definition count_status (statusCode : Z) (byStatus : gmap Z Z) : gmap Z Z :=
  <[statusCode := Go.wrap64 (default 0 (byStatus !! statusCode) + 1)]> byStatus.

(** [Record] of a route; [now] is the reading of [time.Now()]. *)
Definition RecordRoute (statusCode : Z) (responseTimeMs : float) (now : Z)
    (m : IncomingRouteMetrics) : option IncomingRouteMetrics :=
  match metrics.Add responseTimeMs (ResponseTimes m) with
  | Some rt =>
      Some {| TotalRequests := Go.wrap64 (TotalRequests m + 1);
              ResponsesByStatus := count_status statusCode (ResponsesByStatus m);
              TotalResponseMs := PrimFloat.add (TotalResponseMs m) responseTimeMs;
              ResponseTimes := rt; LastRequest := Some now;
              RouteName := RouteName m; RoutePath := RoutePath m |}
  | None => None
  end.

Definition ResetRoute (m : IncomingRouteMetrics) : IncomingRouteMetrics :=
  {| TotalRequests := 0; ResponsesByStatus := ∅; TotalResponseMs := 0;
     ResponseTimes := metrics.Reset (ResponseTimes m); LastRequest := None;
     RouteName := RouteName m; RoutePath := RoutePath m |}.

Record IncomingCollector := {
  startTime : Z;
  totalRequests : Z;
  routes : gmap string IncomingRouteMetrics;
}.

Definition NewIncomingCollector (now : Z) : IncomingCollector :=
  {| startTime := now; totalRequests := 0; routes := ∅ |}.

(** [Record] of the collector: the route is created on its first
    request. *)
Definition Record (routeName routePath : string) (statusCode : Z)
    (responseTimeMs : float) (now : Z) (c : IncomingCollector) : option IncomingCollector :=
  let route :=
    match routes c !! routeName with
    | Some route => Some route
    | None => NewIncomingRouteMetrics routeName routePath
    end in
  match route with
  | None => None
  | Some route =>
      match RecordRoute statusCode responseTimeMs now route with
      | Some route' =>
          Some {| startTime := startTime c;
                  totalRequests := Go.wrap64 (totalRequests c + 1);
                  routes := <[routeName := route']> (routes c) |}
      | None => None
      end
  end.

Definition Reset (now : Z) (c : IncomingCollector) : IncomingCollector :=
  NewIncomingCollector now.

Definition GetTotalRequests (c : IncomingCollector) : Z := totalRequests c.

(** What the responder asks of the collector. *)
Inductive op :=
  | OpRecord (routeName routePath : string) (statusCode : Z) (responseTimeMs : float)
             (now : Z)
  | OpReset (now : Z).

Definition apply_op (o : op) (c : IncomingCollector) : option IncomingCollector :=
  match o with
  | OpRecord routeName routePath statusCode responseTimeMs now =>
      (Record routeName routePath statusCode responseTimeMs now c)
  | OpReset now => Some (Reset now c)
  end.

Fixpoint run (ops : list op) (c : IncomingCollector) : option IncomingCollector :=
  match ops with
  | [] => Some c
  | o :: ops' => match apply_op o c with Some c' => run ops' c' | None => None end
  end.

End incoming.

(** ** Package scheduler *)

Module scheduler.

(** The state the dispatch task and the control operations share: the
    atomic [paused] flag, the configuration manager (whose [Enabled] is
    the master switch), whether [Start] has installed a cancel function,
    whether the request context [ctx] is cancelled, and the three
    counters. *)
Record Scheduler := {
  configManager : config.Manager;
  paused : Z;
  hasCancelFunc : bool;
  ctxCancelled : bool;
  requestsScheduled : Z;
  requestsInFlight : Z;
  requestsSkipped : Z;
}.

Definition New (configManager : config.Manager) : Scheduler :=
  {| configManager := configManager; paused := 0; hasCancelFunc := false;
     ctxCancelled := false; requestsScheduled := 0; requestsInFlight := 0;
     requestsSkipped := 0 |}.

Definition IsPaused (s : Scheduler) : bool := paused s =? 1.

(** [Start], up to the tick loop: the cancellable context is created. *)
Definition Start (s : Scheduler) : Scheduler :=
  {| configManager := configManager s; paused := paused s; hasCancelFunc := true;
     ctxCancelled := false; requestsScheduled := requestsScheduled s;
     requestsInFlight := requestsInFlight s; requestsSkipped := requestsSkipped s |}.

Definition EmergencyStop (s : Scheduler) : Scheduler :=
  {| configManager := config.SetEnabled false (configManager s);
     paused := 1;
     hasCancelFunc := hasCancelFunc s;
     ctxCancelled := if hasCancelFunc s then true else ctxCancelled s;
     requestsScheduled := requestsScheduled s;
     requestsInFlight := requestsInFlight s;
     requestsSkipped := requestsSkipped s |}.

Definition Pause (s : Scheduler) : Scheduler :=
  {| configManager := config.SetEnabled false (configManager s);
     paused := 1;
     hasCancelFunc := hasCancelFunc s;
     ctxCancelled := ctxCancelled s;
     requestsScheduled := requestsScheduled s;
     requestsInFlight := requestsInFlight s;
     requestsSkipped := requestsSkipped s |}.



Definition add_in_flight (d : Z) (s : Scheduler) : Scheduler :=
  {| configManager := configManager s; paused := paused s;
     hasCancelFunc := hasCancelFunc s; ctxCancelled := ctxCancelled s;
     requestsScheduled := requestsScheduled s;
     requestsInFlight := Go.wrap64 (requestsInFlight s + d);
     requestsSkipped := requestsSkipped s |}.

(** [s.IsPaused() || !s.configManager.IsEnabled()]. *)
Definition halted (s : Scheduler) : bool :=
  IsPaused s || negb (config.IsEnabled (configManager s)).


(** The rewrite applied to what [client.Execute] returned ([None] is a
    nil result), in the state [s] the scheduler is in at that moment. *)
Definition rewrite_result (s : Scheduler)
    (result : option client.RequestResult) : option client.RequestResult :=
  match result with
  | Some r =>
      if String.eqb (client.ErrorType r) "cancelled"
         && negb (IsPaused s) && config.IsEnabled (configManager s)
      then Some (client.with_error "timeout" "Request timeout" r)
      else Some r
  | None => None
  end.

(** The second part of [executeRequest]: the results handed to the
    callback (none when no handler is installed) and the state after the
    deferred decrement. *)
Definition finish_request (hasHandler : bool) (result : option client.RequestResult)
    (s : Scheduler) : list (option client.RequestResult) * Scheduler :=
  let delivered := if hasHandler then [rewrite_result s result] else [] in
  (delivered, add_in_flight (-1) s).



(** A result with the given error kind. *)
Definition result_of_kind (errorType : string) : client.RequestResult :=
  {| client.EndpointName := "e"; client.URL := "http://localhost/";
     client.Method := "GET"; client.StatusCode := 0; client.Success := false;
     client.Error := "context canceled"; client.ErrorType := errorType;
     client.TotalTimeMs := 0; client.DNSTimeMs := 0; client.ConnectTimeMs := 0;
     client.TLSTimeMs := 0; client.TimeToFirstByte := 0;
     client.Hostname := "localhost"; client.ResponseSize := 0;
     client.RequestTimestamp := 0 |}.

(** *** The dispatch loop *)

(** [calculateInterval], a [time.Duration]: 24 hours when the adjusted
    frequency is not positive. *)
Definition calculateInterval (freqPerMin globalMultiplier : float) : Z :=
  let adjustedFreq := PrimFloat.mul freqPerMin globalMultiplier in
  if PrimFloat.leb adjustedFreq 0 then 24 * (3600 * client.Second)
  else
    let secondsBetween := PrimFloat.div 60 adjustedFreq in
    Go.int_of_float (PrimFloat.mul secondsBetween (Go.float_of_int client.Second)).

Definition spawn (s : Scheduler) : Scheduler :=
  {| configManager := configManager s; paused := paused s;
     hasCancelFunc := hasCancelFunc s; ctxCancelled := ctxCancelled s;
     requestsScheduled := Go.wrap64 (requestsScheduled s + 1);
     requestsInFlight := requestsInFlight s;
     requestsSkipped := requestsSkipped s |}.

(** The state of the loop of [tick]: the endpoints for which a request
    was spawned, in order, the map [nextRequestTime] of the scheduler, and
    the scheduler. *)
Definition ticking : Type := list config.Endpoint * gmap string Z * Scheduler.

(** The body of the loop of [tick] for one endpoint of the copy [cfg]. *)
Definition tick_endpoint (now : Z) (globalMultiplier : float)
    (st : ticking) (endpoint : config.Endpoint) : ticking :=
  let '(spawned, nextRequestTime, s) := st in
  if negb (config.ep_Enabled endpoint) then st
  else
    let '(nextTime, nextRequestTime) :=
      match nextRequestTime !! config.ep_Name endpoint with
      | Some nextTime => (nextTime, nextRequestTime)
      | None => (now, <[config.ep_Name endpoint := now]> nextRequestTime)
      end in
    if nextTime <=? now then
      let interval :=
        calculateInterval (config.ep_FrequencyPerMin endpoint) globalMultiplier in
      (spawned ++ [endpoint],
       <[config.ep_Name endpoint := now + interval]> nextRequestTime,
       spawn s)
    else (spawned, nextRequestTime, s).

(** [tick] at the instant [now]: the requests it spawns, and the map of
    the next request times and the scheduler after it. *)
Definition tick (now : Z) (nextRequestTime : gmap string Z) (s : Scheduler) : ticking :=
  if IsPaused s then ([], nextRequestTime, s)
  else if negb (config.IsEnabled (configManager s)) then ([], nextRequestTime, s)
  else
    let cfg := config.GetConfig (configManager s) in
    fold_left (tick_endpoint now (config.GlobalMultiplier cfg)) (config.Endpoints cfg)
      ([], nextRequestTime, s).

(** An enabled endpoint whose next request time has come, or that has
    none yet. *)
Definition due (now : Z) (nextRequestTime : gmap string Z) (endpoint : config.Endpoint) : bool :=
  config.ep_Enabled endpoint
  && match nextRequestTime !! config.ep_Name endpoint with
     | Some nextTime => nextTime <=? now
     | None => true
     end.










End scheduler.

(** ** Package api: the inbound responder *)

Module api.

(** The state of the random source: the draws [rand.Float64] will
    return, and how many were taken. *)
Record Rand := {
  draws : nat -> float;
  taken : nat;
}.

Definition Float64 (r : Rand) : float * Rand :=
  (draws r (taken r), {| draws := draws r; taken := S (taken r) |}).

Definition fallback_response : config.IncomingResponseConfig :=
  {| config.StatusCode := 500; config.Share := 1;
     config.MinResponseMs := 0; config.MaxResponseMs := 0 |}.

(** The cumulative loop of [selectWeightedResponse]; [last] is the
    response the function falls back to after the loop. *)
Fixpoint select_cumulative (randVal cumulative : float)
    (responses : list config.IncomingResponseConfig)
    (last : config.IncomingResponseConfig) : config.IncomingResponseConfig :=
  match responses with
  | [] => last
  | resp :: responses' =>
      let cumulative := PrimFloat.add cumulative (config.Share resp) in
      if PrimFloat.ltb randVal cumulative then resp
      else select_cumulative randVal cumulative responses' last
  end.

Definition selectWeightedResponse (responses : list config.IncomingResponseConfig)
    (r : Rand) : config.IncomingResponseConfig * Rand :=
  match responses with
  | [] => (fallback_response, r)
  | [only] => (only, r)
  | first :: _ =>
      let '(randVal, r') := Float64 r in
      (select_cumulative randVal 0 responses (List.last responses first), r')
  end.

(** [handleImportConfig] from the decoded candidate on: the candidate is
    normalized by a scratch manager and validated there, and only then
    handed to the store.  The scratch manager and the store are given the
    same object, which the first replacement has already normalized.  The
    result is the HTTP status. *)
Definition handleImportConfig (newCfg : config.Config)
    (store : config.Manager) : Z * config.Manager :=
  match config.ReplaceConfig (Some newCfg) config.NewManager with
  | (Some _, _) => (400, store)
  | (None, manager) =>
      match config.Validate manager with
      | [] =>
          match config.ReplaceConfig (Some (config.config manager)) store with
          | (Some _, store') => (400, store')
          | (None, store') => (200, store')
          end
      | _ => (400, store)
      end
  end.

(** *** Bulk enabling (handlers.go) *)

(** [handleEnableAll] from the decoded request on: the number of
    endpoints it reports as updated, and the store. *)
Definition handleEnableAll (enabled : bool) (store : config.Manager) : Z * config.Manager :=
  fold_left
    (fun acc ep =>
       match config.SetEndpointEnabled (config.ep_Name ep) enabled (snd acc) with
       | (None, store') => (Go.wrap64 (fst acc + 1), store')
       | (Some _, store') => (fst acc, store')
       end)
    (config.GetEndpoints store) (0, store).

(** *** The simulated routes (incoming_handler.go) *)

(** [rand.Intn(n)]: it panics unless [n > 0]; [draw] is the next value
    of the source, which the function reduces to [0, n). *)
Definition Intn (n : Z) (draw : Z) : option Z :=
  if n <=? 0 then None else Some (draw mod n).

(** [randomDuration]: [minMs] when the range is empty, a value drawn from
    [minMs .. maxMs] otherwise. *)
Definition randomDuration (minMs maxMs : Z) (draw : Z) : option Z :=
  if maxMs <=? minMs then Some minMs
  else
    match Intn (Go.wrap64 (Go.wrap64 (maxMs - minMs) + 1)) draw with
    | Some k => Some (Go.wrap64 (minMs + k))
    | None => None
    end.

Definition SimulatedRoutePrefix : string := "/sim".

(** What [handleSimulatedRoute] answers: 404 when no route matches, and
    otherwise the status of the selected response after the simulated
    delay. *)
Inductive simulated :=
  | NotFound (path : string)
  | Responded (route : config.IncomingEndpoint) (pathSuffix : string)
              (status delayMs : Z).

(** [handleSimulatedRoute] of a server with a configuration manager, up
    to the status it writes: [draw] is the value [rand.Intn] reduces,
    [incomingMetrics] the collector of the server ([None] is [nil]), [now]
    the reading of the clock when the request is recorded.  The sleep is
    the delay of the result; [None] is a panic. *)
Definition handleSimulatedRoute
    (sortSlice : list config.IncomingEndpoint -> list config.IncomingEndpoint)
    (urlPath method : string) (draw : Z) (now : Z) (r : Rand)
    (incomingMetrics : option incoming.IncomingCollector) (configManager : config.Manager)
    : option (simulated * Rand * option incoming.IncomingCollector) :=
  let path := Go.TrimPrefix urlPath SimulatedRoutePrefix in
  let path := if config.is_empty path then "/"%string else path in
  match config.MatchIncomingRoute sortSlice path method configManager with
  | None => Some (NotFound path, r, incomingMetrics)
  | Some (route, pathSuffix) =>
      let '(selectedResponse, r') :=
        selectWeightedResponse (config.ie_Responses route) r in
      match randomDuration (config.MinResponseMs selectedResponse)
              (config.MaxResponseMs selectedResponse) draw with
      | None => None
      | Some delayMs =>
          let answer :=
            Responded route pathSuffix (config.StatusCode selectedResponse) delayMs in
          match incomingMetrics with
          | None => Some (answer, r', None)
          | Some c =>
              match incoming.Record (config.ie_Name route) (config.ie_Path route)
                      (config.StatusCode selectedResponse) (Go.float_of_int delayMs) now c with
              | Some c' => Some (answer, r', Some c')
              | None => None
              end
          end
      end
  end.

(** The delays of the responses of a route are [int]s, and none is
    [math.MaxInt64]. *)
Definition delays_fit (route : config.IncomingEndpoint) : Prop :=
  Forall (fun resp => config.MaxResponseMs resp < Go.max_int64) (config.ie_Responses route).

(** *** Bulk deletion *)

(** [handleBulkDeleteEndpoints] from the decoded names on: the status,
    the names it reports as deleted, the failures (the handler joins the
    name and the error of each into one string), and the store. *)
Definition handleBulkDeleteEndpoints (names : list string) (store : config.Manager)
    : Z * list string * list (string * config.error) * config.Manager :=
  let '(deleted, errors, store') :=
    fold_left
      (fun acc name =>
         let '(deleted, errors, store) := acc in
         match config.DeleteEndpoint name store with
         | (Some err, store') => (deleted, errors ++ [(name, err)], store')
         | (None, store') => (deleted ++ [name], errors, store')
         end)
      names ([], [], store) in
  let status :=
    if (Go.len deleted =? 0) && (0 <? Go.len errors) then 400
    else if 0 <? Go.len errors then 206
    else 200 in
  (status, deleted, errors, store').

(** The endpoints of [store] whose name is not among [names]. *)
Definition endpoints_but (names : list string) (store : config.Manager)
    : list config.Endpoint :=
  List.filter (fun e => negb (existsb (String.eqb (config.ep_Name e)) names))
    (config.Endpoints (config.config store)).

End api.

(* ===================================================================== *)
(** * Part II: properties                                                 *)
(* ===================================================================== *)

(** ** Binary64 arithmetic: signs and magnitudes

    The index of a percentile is computed in floating point.  What the
    bounds on it need is that products and quotients of non-negative
    floats are non-negative and do not exceed the exponent range; both are
    read off the specification of rounding ([SpecFloat]), by following the
    mantissa through the two shifts of [binary_round_aux]. *)

Module FloatFacts.

Import Go.

Lemma digits2_pos_bounds (p : positive) :
  2 ^ (Zpos (digits2_pos p) - 1) <= Zpos p < 2 ^ Zpos (digits2_pos p).
Proof.
  induction p as [p IH | p IH | ]; cbn [digits2_pos].
  - rewrite Pos2Z.inj_succ.
    replace (Z.succ (Zpos (digits2_pos p)) - 1)
      with (Z.succ (Zpos (digits2_pos p) - 1)) by lia.
    rewrite !Z.pow_succ_r by lia. lia.
  - rewrite Pos2Z.inj_succ.
    replace (Z.succ (Zpos (digits2_pos p)) - 1)
      with (Z.succ (Zpos (digits2_pos p) - 1)) by lia.
    rewrite !Z.pow_succ_r by lia. lia.
  - cbn. lia.
Qed.

Lemma Zdigits2_le (m k : Z) : 0 <= m -> 0 <= k -> m < 2 ^ k -> Zdigits2 m <= k.
Proof.
  intros Hm Hk Hlt. destruct m as [ | p | p]; cbn [Zdigits2]; try lia.
  destruct (Z_le_gt_dec (Zpos (digits2_pos p)) k) as [ | Hgt]; [assumption | exfalso].
  pose proof (digits2_pos_bounds p) as [Hlo _].
  assert (2 ^ k <= 2 ^ (Zpos (digits2_pos p) - 1)) by (apply Z.pow_le_mono_r; lia).
  lia.
Qed.

(** One step of the right shift halves the mantissa. *)
Lemma shr_1_m (mrs : shr_record) :
  0 <= shr_m mrs -> shr_m (shr_1 mrs) = shr_m mrs / 2.
Proof.
  destruct mrs as [m r s]. cbn [shr_m]. intros Hm.
  destruct m as [ | [p | p | ] | p]; cbn [shr_1 shr_m]; try lia.
  - reflexivity.
  - apply Z.div_unique with (r := 1); lia.
  - apply Z.div_unique with (r := 0); lia.
  - reflexivity.
Qed.

Lemma iter_shr_1_m (p : positive) : forall mrs, 0 <= shr_m mrs ->
  shr_m (SpecFloat.iter_pos shr_1 p mrs) = shr_m mrs / 2 ^ Zpos p.
Proof.
  induction p as [p IH | p IH | ]; intros mrs Hm; cbn [SpecFloat.iter_pos].
  - assert (H1 : 0 <= shr_m (shr_1 mrs))
      by (rewrite shr_1_m by assumption; apply Z.div_pos; lia).
    rewrite IH.
    + rewrite IH by assumption. rewrite shr_1_m by assumption.
      rewrite !Z.div_div by lia. f_equal.
      replace (Z.pos p~1) with (1 + Z.pos p + Z.pos p) by lia.
      rewrite !Z.pow_add_r by lia. change (2 ^ 1) with 2. ring.
    + rewrite IH by assumption. apply Z.div_pos; [assumption | lia].
  - rewrite IH.
    + rewrite IH by assumption. rewrite Z.div_div by lia. f_equal.
      replace (Z.pos p~0) with (Z.pos p + Z.pos p) by lia.
      rewrite Z.pow_add_r by lia. ring.
    + rewrite IH by assumption. apply Z.div_pos; [assumption | lia].
  - rewrite shr_1_m by assumption. reflexivity.
Qed.

(** [below m e B]: the mantissa [m] at exponent [e] stands for a value in
    [[0, 2^B)]. *)
Definition below (m e B : Z) : Prop := 0 <= m < 2 ^ (B - e).

Lemma below_exp (m e B : Z) : below m e B -> e <= B.
Proof.
  intros [H0 H1]. destruct (Z_le_gt_dec e B); [assumption | ].
  rewrite Z.pow_neg_r in H1 by lia. lia.
Qed.

Lemma shr_fexp_below (m e : Z) (l : location) (B : Z) :
  below m e B -> emin <= B ->
  let '(mrs, e') := shr_fexp prec emax m e l in
  below (shr_m mrs) e' B /\ e <= e'.
Proof.
  intros Hb Hemin. pose proof (below_exp _ _ _ Hb) as HeB. destruct Hb as [H0 H1].
  unfold shr_fexp, shr.
  assert (Hd : Zdigits2 m <= B - e) by (apply Zdigits2_le; lia).
  assert (Hf : fexp prec emax (Zdigits2 m + e) <= B).
  { unfold fexp, SpecFloat.emin, prec, emax in *. lia. }
  destruct (fexp prec emax (Zdigits2 m + e) - e) as [ | n | n] eqn:En.
  - destruct l as [ | [ | | ]]; cbn [shr_record_of_loc shr_m]; split; unfold below; lia.
  - split; [ | lia].
    rewrite iter_shr_1_m by (destruct l as [ | [ | | ]]; cbn; lia).
    replace (shr_m (shr_record_of_loc m l)) with m
      by (destruct l as [ | [ | | ]]; reflexivity).
    unfold below. split; [apply Z.div_pos; lia | ].
    apply Z.div_lt_upper_bound; [lia | ].
    rewrite <- Z.pow_add_r by lia.
    replace (Zpos n + (B - (e + Zpos n))) with (B - e) by lia. exact H1.
  - destruct l as [ | [ | | ]]; cbn [shr_record_of_loc shr_m]; split; unfold below; lia.
Qed.

Lemma round_nearest_even_below (m : Z) (l : location) (e B : Z) :
  below m e B -> below (round_nearest_even m l) e (B + 1).
Proof.
  intros Hb. pose proof (below_exp _ _ _ Hb). destruct Hb as [H0 H1]. unfold below.
  replace (B + 1 - e) with (Z.succ (B - e)) by lia. rewrite Z.pow_succ_r by lia.
  destruct l as [ | [ | | ]]; cbn [round_nearest_even]; try lia.
  destruct (Z.even m); lia.
Qed.

(** Rounding keeps the sign, and a value below [2^B] rounds to zero or to
    a finite float below [2^(B+1)]. *)
Lemma binary_round_aux_below (sx : bool) (mx ex : Z) (lx : location) (B : Z) :
  below mx ex B -> emin <= B -> B <= emax - prec ->
  match binary_round_aux prec emax sx mx ex lx with
  | S754_zero s => s = sx
  | S754_finite s m e => s = sx /\ below (Zpos m) e (B + 1)
  | _ => False
  end.
Proof.
  intros Hb Hemin Hmax. unfold binary_round_aux.
  pose proof (shr_fexp_below mx ex lx B Hb Hemin) as H1.
  destruct (shr_fexp prec emax mx ex lx) as [mrs' e'].
  destruct H1 as [H1 He1].
  pose proof (round_nearest_even_below _ (loc_of_shr_record mrs') _ _ H1) as H2.
  assert (Hemin' : emin <= B + 1) by lia.
  pose proof (shr_fexp_below _ _ loc_Exact _ H2 Hemin') as H3.
  destruct (shr_fexp prec emax
              (round_nearest_even (shr_m mrs') (loc_of_shr_record mrs')) e' loc_Exact)
    as [mrs'' e''].
  destruct H3 as [H3 He3].
  destruct (shr_m mrs'') as [ | m | m] eqn:Em.
  - reflexivity.
  - assert (e'' <= B).
    { destruct H3 as [_ H3]. destruct (Z_le_gt_dec e'' B); [assumption | exfalso].
      assert (2 ^ (B + 1 - e'') <= 2 ^ 0) by (apply Z.pow_le_mono_r; lia).
      change (2 ^ 0) with 1 in *. lia. }
    replace (e'' <=? emax - prec) with true by (symmetry; apply Z.leb_le; lia).
    split; [reflexivity | assumption].
  - destruct H3 as [H3 _]. lia.
Qed.

(** A non-negative float below [2^B]: a zero of either sign, or a
    positive finite float. *)
Definition nonneg_below (B : Z) (x : spec_float) : Prop :=
  match x with
  | S754_zero _ => True
  | S754_finite s m e => s = false /\ below (Zpos m) e B
  | _ => False
  end.

Lemma binary_round_aux_nonneg (mx ex : Z) (lx : location) (B : Z) :
  below mx ex B -> emin <= B -> B <= emax - prec ->
  nonneg_below (B + 1) (binary_round_aux prec emax false mx ex lx).
Proof.
  intros Hb H1 H2. pose proof (binary_round_aux_below false mx ex lx B Hb H1 H2) as H.
  destruct (binary_round_aux prec emax false mx ex lx); cbn; auto.
Qed.

Lemma pos_iter_xO (m d : positive) : Zpos (Pos.iter xO m d) = Zpos m * 2 ^ Zpos d.
Proof.
  induction d as [ | d IH] using Pos.peano_ind.
  - cbn. lia.
  - rewrite Pos.iter_succ, Pos2Z.inj_xO, IH, Pos2Z.inj_succ, Z.pow_succ_r by lia. ring.
Qed.

Lemma float_of_int_nonneg (z : Z) :
  0 <= z < 2 ^ 53 -> nonneg_below 54 (Prim2SF (float_of_int z)).
Proof.
  intros Hz. unfold float_of_int.
  replace (z <? 0) with false by (symmetry; apply Z.ltb_ge; lia).
  rewrite of_uint63_spec, Uint63.of_Z_spec.
  rewrite Z.mod_small by (change wB with (2 ^ 63); split; [lia | ];
    apply Z.lt_trans with (2 ^ 53); [lia | reflexivity]).
  destruct z as [ | m | m]; [exact I | | lia].
  cbn [binary_normalize]. unfold binary_round, shl_align.
  assert (Hd : Zpos (digits2_pos m) <= 53) by (apply (Zdigits2_le (Zpos m)); lia).
  destruct (fexp prec emax (Z.pos (digits2_pos m) + 0) - 0) as [ | d | d] eqn:Ed.
  - apply (binary_round_aux_nonneg _ _ _ 53);
      [ | unfold SpecFloat.emin, prec, emax; lia | unfold prec, emax; lia].
    unfold below. rewrite Z.sub_0_r. lia.
  - apply (binary_round_aux_nonneg _ _ _ 53);
      [ | unfold SpecFloat.emin, prec, emax; lia | unfold prec, emax; lia].
    unfold below. rewrite Z.sub_0_r. lia.
  - apply (binary_round_aux_nonneg _ _ _ 53);
      [ | unfold SpecFloat.emin, prec, emax; lia | unfold prec, emax; lia].
    unfold below. rewrite pos_iter_xO.
    assert (Ef : fexp prec emax (Z.pos (digits2_pos m) + 0) = Z.neg d) by lia.
    rewrite Ef. split; [lia | ].
    replace (53 - Z.neg d) with (53 + Z.pos d) by lia.
    rewrite Z.pow_add_r by lia. apply Z.mul_lt_mono_pos_r; lia.
Qed.

Lemma SFmul_nonneg (B1 B2 : Z) (x y : spec_float) :
  nonneg_below B1 x -> nonneg_below B2 y ->
  emin <= B1 + B2 -> B1 + B2 <= emax - prec ->
  nonneg_below (B1 + B2 + 1) (SF64mul x y).
Proof.
  intros Hx Hy H1 H2.
  destruct x as [sx | sx | | sx mx ex], y as [sy | sy | | sy my ey];
    cbn in Hx, Hy; try contradiction; try exact I.
  destruct Hx as [-> Hx], Hy as [-> Hy]. unfold SF64mul, SFmul. cbn [xorb].
  apply binary_round_aux_nonneg; try assumption.
  pose proof (below_exp _ _ _ Hx). pose proof (below_exp _ _ _ Hy).
  destruct Hx as [_ Hx], Hy as [_ Hy]. unfold below. split; [lia | ].
  replace (B1 + B2 - (ex + ey)) with ((B1 - ex) + (B2 - ey)) by lia.
  rewrite Z.pow_add_r by lia. rewrite Pos2Z.inj_mul.
  apply Z.mul_lt_mono_nonneg; lia.
Qed.

(** The float [100]. *)
Definition SF_hundred : spec_float := S754_finite false 7036874417766400 (-46).

(** Dividing by 100 takes at least six binary digits off. *)
Lemma SFdiv_hundred_nonneg (B : Z) (x : spec_float) :
  nonneg_below B x -> emin + 6 <= B -> B - 6 <= emax - prec ->
  nonneg_below (B - 5) (SF64div x SF_hundred).
Proof.
  intros Hx H1 H2.
  destruct x as [sx | sx | | sx mx ex]; cbn in Hx; try contradiction; try exact I.
  destruct Hx as [-> Hx]. unfold SF64div, SFdiv, SF_hundred. cbn [xorb].
  unfold SFdiv_core_binary.
  set (d1 := Zdigits2 (Z.pos mx)).
  change (Zdigits2 (Z.pos 7036874417766400)) with 53.
  set (e' := Z.min (fexp prec emax (d1 + ex - (53 + -46))) (ex - -46)).
  set (m' := match ex - -46 - e' with
             | Z0 => Z.pos mx
             | Z.pos _ => Z.shiftl (Z.pos mx) (ex - -46 - e')
             | Z.neg _ => 0
             end).
  pose proof (below_exp _ _ _ Hx) as HeB. destruct Hx as [_ Hx].
  assert (Hd1 : d1 <= B - ex) by (apply Zdigits2_le; lia).
  assert (He' : e' <= B - 6).
  { unfold e', fexp, SpecFloat.emin, prec, emax in *. lia. }
  assert (Hs : 0 <= ex - -46 - e') by (unfold e'; lia).
  assert (Hm' : m' = Z.pos mx * 2 ^ (ex - -46 - e')).
  { unfold m'. destruct (ex - -46 - e') as [ | s | s] eqn:Es.
    - cbn. lia.
    - apply Z.shiftl_mul_pow2. lia.
    - lia. }
  pose proof (Z.div_eucl_eq m' 7036874417766400 ltac:(lia)) as Hdiv.
  pose proof (Z.mod_pos_bound m' 7036874417766400 ltac:(lia)) as Hmod.
  unfold Z.modulo in Hmod.
  destruct (Z.div_eucl m' 7036874417766400) as [q r].
  replace (B - 5) with (B - 6 + 1) by lia.
  apply binary_round_aux_nonneg;
    [ | unfold SpecFloat.emin, prec, emax in *; lia | assumption].
  assert (Hm'pos : 0 <= m')
    by (rewrite Hm'; apply Z.mul_nonneg_nonneg; [lia | apply Z.pow_nonneg; lia]).
  assert (Hq0 : 0 <= q) by nia.
  unfold below. split; [assumption | ].
  assert (Hm'lt : m' < 2 ^ 52 * 2 ^ (B - 6 - e')).
  { rewrite Hm'. rewrite <- Z.pow_add_r by lia.
    replace (52 + (B - 6 - e')) with ((B - ex) + (ex - -46 - e')) by lia.
    rewrite Z.pow_add_r by lia.
    apply Z.mul_lt_mono_pos_r; [apply Z.pow_pos_nonneg; lia | assumption]. }
  assert (Hpow : 0 < 2 ^ (B - 6 - e')) by (apply Z.pow_pos_nonneg; lia).
  change (2 ^ 52) with 4503599627370496 in Hm'lt.
  nia.
Qed.

Lemma int_of_float_nonneg (f : float) :
  nonneg_below 63 (Prim2SF f) -> 0 <= int_of_float f <= max_int64.
Proof.
  unfold int_of_float.
  destruct (Prim2SF f) as [s | s | | s m e]; cbn [nonneg_below]; try contradiction.
  - intros _. unfold max_int64. lia.
  - intros [-> Hb]. pose proof (below_exp _ _ _ Hb) as He. destruct Hb as [_ Hb].
    assert (H0 : 0 <= Z.shiftl (Z.pos m) e) by (apply Z.shiftl_nonneg; lia).
    assert (H1 : Z.shiftl (Z.pos m) e < 2 ^ 63).
    { destruct (Z_le_gt_dec 0 e).
      - rewrite Z.shiftl_mul_pow2 by assumption.
        replace 63 with ((63 - e) + e) by lia. rewrite Z.pow_add_r by lia.
        apply Z.mul_lt_mono_pos_r; [apply Z.pow_pos_nonneg; lia | assumption].
      - rewrite Z.shiftl_div_pow2 by lia.
        apply Z.div_lt_upper_bound; [apply Z.pow_pos_nonneg; lia | ].
        rewrite <- Z.pow_add_r by lia.
        replace (- e + 63) with (63 - e) by lia. assumption. }
    cbv zeta. unfold min_int64, max_int64.
    destruct ((- 2 ^ 63 <=? Z.shiftl (Z.pos m) e)
              && (Z.shiftl (Z.pos m) e <=? 2 ^ 63 - 1)) eqn:E.
    + lia.
    + apply andb_false_iff in E.
      destruct E as [E | E]; apply Z.leb_gt in E; lia.
Qed.

(** A percentage: a float between 0 and 100. *)
Definition is_percent (p : float) : Prop :=
  PrimFloat.leb 0 p = true /\ PrimFloat.leb p 100 = true.

Lemma percent_nonneg_below (p : float) :
  is_percent p -> nonneg_below 7 (Prim2SF p).
Proof.
  unfold is_percent. rewrite !FloatAxioms.leb_spec.
  pose proof (Prim2SF_valid p) as Hv.
  change (Prim2SF 0) with (S754_zero false).
  change (Prim2SF 100) with SF_hundred.
  destruct (Prim2SF p) as [s | s | | s m e]; cbn [nonneg_below].
  - auto.
  - destruct s; cbn; intros [? ?]; discriminate.
  - cbn. intros [? ?]; discriminate.
  - intros [H0 H100]. destruct s; [cbn in H0; discriminate | ].
    split; [reflexivity | ].
    unfold SFleb, SFcompare, SF_hundred in H100.
    assert (He : e <= -46).
    { destruct (Z.compare_spec e (-46)); try lia; try discriminate. }
    cbn [valid_binary] in Hv. unfold bounded, canonical_mantissa in Hv.
    apply andb_true_iff in Hv. destruct Hv as [Hc _]. apply Z.eqb_eq in Hc.
    pose proof (digits2_pos_bounds m) as [_ Hm].
    assert (Hd : Zpos (digits2_pos m) <= 53)
      by (unfold fexp, SpecFloat.emin, prec, emax in Hc; lia).
    unfold below. split; [lia | ].
    apply Z.lt_le_trans with (2 ^ Zpos (digits2_pos m)); [assumption | ].
    apply Z.pow_le_mono_r; lia.
Qed.

(** [int(float64(size) * p / 100.0)] is a non-negative [int] for every
    percentage [p] and every size a slice can have. *)
Lemma scaled_index_nonneg (size : Z) (p : float) :
  0 <= size < 2 ^ 53 -> is_percent p ->
  0 <= int_of_float (PrimFloat.div (PrimFloat.mul (float_of_int size) p) 100)
    <= max_int64.
Proof.
  intros Hs Hp. apply int_of_float_nonneg.
  rewrite FloatAxioms.div_spec, FloatAxioms.mul_spec.
  change (Prim2SF 100) with SF_hundred.
  pose proof (float_of_int_nonneg size Hs) as HS.
  pose proof (percent_nonneg_below p Hp) as HP.
  pose proof (SFmul_nonneg 54 7 _ _ HS HP
                ltac:(unfold SpecFloat.emin, prec, emax; lia)
                ltac:(unfold prec, emax; lia)) as HM.
  pose proof (SFdiv_hundred_nonneg 62 _ HM
                ltac:(unfold SpecFloat.emin, prec, emax; lia)
                ltac:(unfold prec, emax; lia)) as HD.
  cbn in HD.
  destruct (SF64div _ _) as [s | s | | s m e]; cbn in *; auto.
  destruct HD as [-> [Hm0 Hm1]]. split; [reflexivity | ]. split; [lia | ].
  apply Z.lt_le_trans with (2 ^ (57 - e)); [assumption | ].
  pose proof (below_exp (Zpos m) e 57 (conj Hm0 Hm1)).
  apply Z.pow_le_mono_r; lia.
Qed.

End FloatFacts.

(** ** The ring buffer *)

Module RingBufferFacts.

Import Go metrics FloatFacts.

Lemma wrap64_small (z : Z) : in_int64 z -> wrap64 z = z.
Proof.
  unfold in_int64, min_int64, max_int64, wrap64. intros H.
  rewrite Z.mod_small; lia.
Qed.

Lemma pow53_int64 (z : Z) : -1 <= z <= 2 ^ 53 -> in_int64 z.
Proof. unfold in_int64, min_int64, max_int64. lia. Qed.

(** *** Well-formedness is an invariant *)

Lemma NewRingBuffer_wf (c : Z) (rb : RingBuffer) :
  c < 2 ^ 53 -> NewRingBuffer c = Some rb -> wf rb.
Proof.
  unfold NewRingBuffer. intros Hc. destruct (Z.ltb_spec c 0); [discriminate | ].
  intros [= <-]. split; cbn; try lia.
  unfold len. rewrite length_replicate. lia.
Qed.

Lemma Add_wf (v : float) (rb rb' : RingBuffer) :
  wf rb -> Add v rb = Some rb' -> wf rb'.
Proof.
  intros [Hc Hd Hi Hs]. unfold Add.
  destruct ((0 <=? index rb) && (index rb <? len (data rb))) eqn:E; [ | discriminate].
  apply andb_true_iff in E. destruct E as [_ E]. apply Z.ltb_lt in E.
  destruct (Z.eqb_spec (capacity rb) 0); [discriminate | ].
  intros [= <-]. split; cbn.
  - assumption.
  - unfold len in *. rewrite length_insert. assumption.
  - rewrite wrap64_small by (apply pow53_int64; lia).
    pose proof (Z.rem_bound_pos (index rb + 1) (capacity rb)). lia.
  - destruct (Z.ltb_spec (size rb) (capacity rb)); [ | lia].
    rewrite wrap64_small by (apply pow53_int64; lia). lia.
Qed.

Lemma Reset_wf (rb : RingBuffer) : wf rb -> wf (Reset rb).
Proof. intros [Hc Hd Hi Hs]. split; cbn; lia. Qed.

Lemma reachable_wf (rb : RingBuffer) : reachable rb -> wf rb.
Proof.
  induction 1 as [c rb Hc Hnew | v rb rb' _ IH Hadd | rb _ IH].
  - exact (NewRingBuffer_wf c rb Hc Hnew).
  - exact (Add_wf v rb rb' IH Hadd).
  - exact (Reset_wf rb IH).
Qed.

(** [Add] succeeds on every buffer with room for one value. *)
Lemma Add_total (v : float) (rb : RingBuffer) :
  wf rb -> 0 < capacity rb -> is_Some (Add v rb).
Proof.
  intros [Hc Hd Hi Hs] Hpos. unfold Add.
  replace ((0 <=? index rb) && (index rb <? len (data rb))) with true
    by (symmetry; apply andb_true_iff; split; [apply Z.leb_le | apply Z.ltb_lt]; lia).
  destruct (Z.eqb_spec (capacity rb) 0); [lia | eauto].
Qed.

(** *** The sorted copy *)

Lemma insert_float64_length (x : float) (l : list float) :
  length (insert_float64 x l) = S (length l).
Proof.
  induction l as [ | y l IH]; cbn; [reflexivity | ].
  destruct (float64_less y x); cbn; [rewrite IH | ]; reflexivity.
Qed.

Lemma Float64s_length (l : list float) : length (Float64s l) = length l.
Proof.
  induction l as [ | x l IH]; cbn; [reflexivity | ].
  rewrite insert_float64_length. unfold Float64s in IH. rewrite IH. reflexivity.
Qed.




(** *** Reads never leave the slice *)

Lemma index_is_Some {A} (l : list A) (i : Z) :
  0 <= i < len l -> is_Some (Go.index l i).
Proof.
  intros H. unfold Go.index.
  replace ((0 <=? i) && (i <? len l)) with true
    by (symmetry; apply andb_true_iff; split; [apply Z.leb_le | apply Z.ltb_lt]; lia).
  apply lookup_lt_is_Some. unfold len in H. lia.
Qed.

(** The clamped index lies inside the sorted copy of the live region. *)
Lemma percentile_index_bounds (n : Z) (p : float) :
  0 < n < 2 ^ 53 -> is_percent p -> 0 <= percentile_index n p < n.
Proof.
  intros Hn Hp. unfold percentile_index.
  pose proof (scaled_index_nonneg n p ltac:(lia) Hp) as H.
  cbv zeta. destruct (Z.leb_spec n (int_of_float (float_of_int n * p / 100))); lia.
Qed.

Lemma live_wf (rb : RingBuffer) :
  wf rb -> live rb = Some (take (Z.to_nat (size rb)) (data rb)).
Proof.
  intros [Hc Hd Hi Hs]. unfold live.
  replace ((0 <=? size rb) && (size rb <=? len (data rb))) with true
    by (symmetry; apply andb_true_iff; split; apply Z.leb_le; lia).
  reflexivity.
Qed.

Lemma sorted_copy_len (rb : RingBuffer) :
  wf rb -> len (Float64s (take (Z.to_nat (size rb)) (data rb))) = size rb.
Proof.
  intros [Hc Hd Hi Hs]. unfold len in *.
  rewrite Float64s_length, length_take. lia.
Qed.

Lemma Percentile_total (p : float) (rb : RingBuffer) :
  wf rb -> is_percent p -> is_Some (Percentile p rb).
Proof.
  intros Hwf Hp. unfold Percentile.
  destruct (Z.eqb_spec (size rb) 0); [eauto | ].
  rewrite (live_wf rb Hwf). apply index_is_Some.
  rewrite (sorted_copy_len rb Hwf).
  destruct Hwf as [Hc Hd Hi Hs]. apply percentile_index_bounds; [lia | assumption].
Qed.

Lemma scan_total (better : float -> float -> bool) (d : list float) (n : nat) :
  forall (from : Z) (acc : float),
  0 <= from -> from + Z.of_nat n <= len d -> is_Some (scan better d from n acc).
Proof.
  induction n as [ | n IH]; intros from acc H0 H1; cbn [scan]; [eauto | ].
  destruct (index_is_Some d from ltac:(lia)) as [x ->].
  apply IH; lia.
Qed.

Lemma sum_from_total (d : list float) (n : nat) :
  forall (from : Z) (acc : float),
  0 <= from -> from + Z.of_nat n <= len d -> is_Some (sum_from d from n acc).
Proof.
  induction n as [ | n IH]; intros from acc H0 H1; cbn [sum_from]; [eauto | ].
  destruct (index_is_Some d from ltac:(lia)) as [x ->].
  apply IH; lia.
Qed.

Lemma Max_total (rb : RingBuffer) : wf rb -> is_Some (Max rb).
Proof.
  intros [Hc Hd Hi Hs]. unfold Max.
  destruct (Z.eqb_spec (size rb) 0); [eauto | ].
  destruct (index_is_Some (data rb) 0 ltac:(lia)) as [d0 ->].
  apply scan_total; lia.
Qed.

Lemma Min_total (rb : RingBuffer) : wf rb -> is_Some (Min rb).
Proof.
  intros [Hc Hd Hi Hs]. unfold Min.
  destruct (Z.eqb_spec (size rb) 0); [eauto | ].
  destruct (index_is_Some (data rb) 0 ltac:(lia)) as [d0 ->].
  apply scan_total; lia.
Qed.

Lemma Average_total (rb : RingBuffer) : wf rb -> is_Some (Average rb).
Proof.
  intros [Hc Hd Hi Hs]. unfold Average.
  destruct (Z.eqb_spec (size rb) 0); [eauto | ].
  destruct (sum_from_total (data rb) (Z.to_nat (size rb)) 0 0%float
              ltac:(lia) ltac:(lia)) as [sum ->].
  eauto.
Qed.

(** *** A buffer loaded with 1..N *)










(** *** The percentile of the sequence 1..N *)




(** *** Reads of the ring buffer are safe *)

(** C9.  On an empty buffer [Percentile], [Min], [Max] and [Average]
    return 0.  On every buffer the program can build, and for every
    percentage p between 0 and 100, the clamped index of [Percentile] lies
    inside the sorted copy, and [Percentile], [Min], [Max] and [Average]
    all return a value: no read leaves its slice. *)
Theorem C9_ring_buffer_reads_in_bounds (rb : RingBuffer) (p : float) :
  (size rb = 0 ->
     Percentile p rb = Some 0%float /\ Min rb = Some 0%float
     /\ Max rb = Some 0%float /\ Average rb = Some 0%float)
  /\ (reachable rb -> is_percent p ->
        (0 < size rb ->
           exists sortedData,
             option_map Float64s (live rb) = Some sortedData
             /\ 0 <= percentile_index (size rb) p < len sortedData)
        /\ is_Some (Percentile p rb) /\ is_Some (Min rb)
        /\ is_Some (Max rb) /\ is_Some (Average rb)).
Proof.
  split.
  - intros H0. unfold Percentile, Min, Max, Average. rewrite H0. cbn. auto.
  - intros Hreach Hp. pose proof (reachable_wf rb Hreach) as Hwf.
    split; [ | auto using Percentile_total, Min_total, Max_total, Average_total].
    intros Hpos. eexists. rewrite (live_wf rb Hwf). split; [reflexivity | ].
    rewrite (sorted_copy_len rb Hwf).
    destruct Hwf as [Hc Hd Hi Hs]. apply percentile_index_bounds; [lia | assumption].
Qed.

(** C9 at a buffer of capacity 4 after 3, 1 and 2 were added, and p = 50:
    the index is 1, inside the sorted copy [1; 2; 3], and the median is
    2. *)
Lemma C9_ring_buffer_reads_in_bounds_witness :
  reachable small_buffer /\ is_percent 50
  /\ is_Some (Percentile 50 small_buffer)
  /\ Percentile 50 small_buffer = Some 2%float.
Proof.
  assert (Hreach : reachable small_buffer).
  { apply (reach_add 2%float
             {| data := [3%float; 1%float; 0%float; 0%float];
                capacity := 4; index := 2; size := 2 |}); [ | reflexivity].
    apply (reach_add 1%float
             {| data := [3%float; 0%float; 0%float; 0%float];
                capacity := 4; index := 1; size := 1 |}); [ | reflexivity].
    apply (reach_add 3%float
             {| data := [0%float; 0%float; 0%float; 0%float];
                capacity := 4; index := 0; size := 0 |}); [ | reflexivity].
    apply (reach_new 4); [lia | reflexivity]. }
  assert (Hp : is_percent 50) by (split; reflexivity).
  split; [assumption | ]. split; [assumption | ]. split.
  - exact (proj1 (proj2 (proj2 (C9_ring_buffer_reads_in_bounds small_buffer 50)
                           Hreach Hp))).
  - vm_compute. reflexivity.
Defined.

End RingBufferFacts.

(** ** Endpoint metrics *)

Module MetricsFacts.

Import Go metrics FloatFacts RingBufferFacts.

Lemma wrap64_idem_l (a b : Z) : wrap64 (wrap64 a + b) = wrap64 (a + b).
Proof.
  unfold wrap64.
  replace ((a + 2 ^ 63) mod 2 ^ 64 - 2 ^ 63 + b + 2 ^ 63)
    with ((a + 2 ^ 63) mod 2 ^ 64 + b) by lia.
  rewrite Zplus_mod_idemp_l. f_equal. f_equal. lia.
Qed.

Lemma Add_capacity (v : float) (rb rb' : RingBuffer) :
  Add v rb = Some rb' -> capacity rb' = capacity rb.
Proof.
  unfold Add. destruct ((0 <=? index rb) && (index rb <? len (data rb))); [ | discriminate].
  destruct (capacity rb =? 0); [discriminate | ]. intros [= <-]. reflexivity.
Qed.

(** A buffer that [Add] accepts. *)
Definition usable (rb : RingBuffer) : Prop := wf rb /\ 0 < capacity rb.

Lemma Add_usable (v : float) (rb : RingBuffer) :
  usable rb -> exists rb', Add v rb = Some rb' /\ usable rb'.
Proof.
  intros [Hwf Hpos]. destruct (Add_total v rb Hwf Hpos) as [rb' Hadd].
  exists rb'. split; [assumption | ]. split; [exact (Add_wf v rb rb' Hwf Hadd) | ].
  rewrite (Add_capacity v rb rb' Hadd). assumption.
Qed.

Lemma add_dns_usable (v : float) (rb : RingBuffer) :
  usable rb -> exists rb', add_dns v rb = Some rb' /\ usable rb'.
Proof.
  intros H. unfold add_dns. destruct (PrimFloat.ltb 0 v); [apply Add_usable; assumption | eauto].
Qed.

Lemma Reset_usable (rb : RingBuffer) : usable rb -> usable (Reset rb).
Proof. intros [Hwf Hpos]. split; [apply Reset_wf; assumption | exact Hpos]. Qed.

Lemma NewRingBuffer_usable (rb : RingBuffer) :
  NewRingBuffer 1000 = Some rb -> usable rb.
Proof.
  intros H. split; [exact (NewRingBuffer_wf 1000 rb ltac:(lia) H) | ].
  injection H as <-. cbn. lia.
Qed.

(** The invariant of a record: both buffers accept samples, and the total
    is the [int64] sum of the two outcomes. *)
Definition balanced (em : EndpointMetrics) : Prop :=
  usable (ResponseTimes em) /\ usable (DNSTimes em)
  /\ add64 (Successful em) (Failed em) = TotalRequests em.

(** The same without wrap-around, for a record that has seen at most [k]
    requests since it was created or reset. *)
Definition counted (k : Z) (em : EndpointMetrics) : Prop :=
  0 <= Successful em /\ 0 <= Failed em
  /\ Successful em + Failed em = TotalRequests em /\ TotalRequests em <= k.

Lemma NewEndpointMetrics_balanced (urlPattern hostname : string) :
  exists em, NewEndpointMetrics urlPattern hostname = Some em
             /\ balanced em /\ counted 0 em.
Proof.
  unfold NewEndpointMetrics.
  destruct (NewRingBuffer 1000) as [rb | ] eqn:Hnew; [ | discriminate].
  pose proof (NewRingBuffer_usable rb Hnew) as Hu.
  eexists. split; [reflexivity | ]. unfold balanced, counted. cbn.
  repeat split; try apply Hu; try lia.
Qed.

Lemma apply_op_balanced (o : op) (em : EndpointMetrics) :
  balanced em -> exists em', apply_op o em = Some em' /\ balanced em'.
Proof.
  intros (Hrt & Hdt & Hsum). unfold add64 in Hsum.
  destruct o as [t d c sc now | t d c sc ty msg | ]; cbn [apply_op].
  - unfold RecordSuccess.
    destruct (Add_usable t _ Hrt) as (rt & -> & Hrt').
    destruct (add_dns_usable d _ Hdt) as (dt & -> & Hdt').
    eexists. split; [reflexivity | ]. unfold balanced, add64. cbn.
    split; [assumption | ]. split; [assumption | ].
    rewrite <- Hsum, !wrap64_idem_l. f_equal. lia.
  - unfold RecordFailure.
    destruct (Add_usable t _ Hrt) as (rt & -> & Hrt').
    destruct (add_dns_usable d _ Hdt) as (dt & -> & Hdt').
    eexists. split; [reflexivity | ]. unfold balanced, add64. cbn.
    split; [assumption | ]. split; [assumption | ].
    rewrite <- Hsum, wrap64_idem_l.
    rewrite (Z.add_comm (Successful em) (wrap64 (Failed em + 1))), wrap64_idem_l.
    f_equal. lia.
  - eexists. split; [reflexivity | ]. unfold balanced, add64. cbn.
    split; [apply Reset_usable; assumption | ].
    split; [apply Reset_usable; assumption | reflexivity].
Qed.

Lemma apply_op_counted (k : Z) (o : op) (em em' : EndpointMetrics) :
  counted k em -> k + 1 < 2 ^ 63 -> apply_op o em = Some em' -> counted (k + 1) em'.
Proof.
  intros (HS & HF & Hsum & Hk) Hbound.
  assert (Hw : forall z, 0 <= z <= k -> wrap64 (z + 1) = z + 1).
  { intros z Hz. apply wrap64_small. unfold in_int64, min_int64, max_int64. lia. }
  destruct o as [t d c sc now | t d c sc ty msg | ]; cbn [apply_op].
  - unfold RecordSuccess.
    destruct (Add t (ResponseTimes em)); [ | discriminate].
    destruct (add_dns d (DNSTimes em)); [ | discriminate].
    intros [= <-]. unfold counted. cbn. rewrite !Hw by lia. lia.
  - unfold RecordFailure.
    destruct (Add t (ResponseTimes em)); [ | discriminate].
    destruct (add_dns d (DNSTimes em)); [ | discriminate].
    intros [= <-]. unfold counted. cbn. rewrite !Hw by lia. lia.
  - intros [= <-]. unfold counted. cbn. lia.
Qed.

Lemma run_balanced (ops : list op) : forall (em : EndpointMetrics),
  balanced em -> exists em', run ops em = Some em' /\ balanced em'.
Proof.
  induction ops as [ | o ops IH]; intros em Hb; cbn [run]; [eauto | ].
  destruct (apply_op_balanced o em Hb) as (em1 & -> & Hb1). exact (IH em1 Hb1).
Qed.

Lemma run_counted (ops : list op) : forall (em em' : EndpointMetrics) (k : Z),
  counted k em -> k + len ops < 2 ^ 63 -> run ops em = Some em' ->
  counted (k + len ops) em'.
Proof.
  induction ops as [ | o ops IH]; intros em em' k Hc Hk; cbn [run].
  - intros [= <-]. unfold len. cbn [length]. replace (k + Z.of_nat 0) with k by lia.
    assumption.
  - assert (Hlen : len (o :: ops) = 1 + len ops) by (unfold len; cbn [length]; lia).
    rewrite Hlen in *. assert (0 <= len ops) by (unfold len; lia).
    destruct (apply_op o em) as [em1 | ] eqn:Hop; [ | discriminate].
    intros Hrun. replace (k + (1 + len ops)) with (k + 1 + len ops) by lia.
    apply (IH em1 em' (k + 1)); [ | lia | assumption].
    apply (apply_op_counted k o em em1); [assumption | lia | assumption].
Qed.

Lemma percent_95 : is_percent 95.
Proof. split; reflexivity. Qed.

Lemma percent_99 : is_percent 99.
Proof. split; reflexivity. Qed.

(** [GetStats] returns a snapshot of every balanced record, with the
    counters as they are. *)
Lemma GetStats_balanced (em : EndpointMetrics) :
  balanced em ->
  exists snap, GetStats em = Some snap
    /\ snap_TotalRequests snap = TotalRequests em
    /\ snap_Successful snap = Successful em
    /\ snap_Failed snap = Failed em.
Proof.
  intros ([Hrt _] & [Hdt _] & _). unfold GetStats.
  destruct (Percentile_total 95 _ Hrt percent_95) as [p95 ->].
  destruct (Percentile_total 99 _ Hrt percent_99) as [p99 ->].
  destruct (Max_total _ Hrt) as [mx ->].
  destruct (Percentile_total 95 _ Hdt percent_95) as [d95 ->].
  eexists. split; [reflexivity | ]. cbn. auto.
Qed.

(** C7.  From a new record, every sequence of [RecordSuccess],
    [RecordFailure] and [Reset] runs to completion, and the snapshot of the
    record it reaches satisfies [successful + failed == total_requests], as
    Go evaluates it on [int64]; on the integers too, as long as fewer than
    [2^63] operations were applied. *)
Theorem C7_successful_plus_failed_is_total
    (urlPattern hostname : string) (ops : list op) :
  exists em0 em snap,
    NewEndpointMetrics urlPattern hostname = Some em0
    /\ run ops em0 = Some em
    /\ GetStats em = Some snap
    /\ add64 (snap_Successful snap) (snap_Failed snap) = snap_TotalRequests snap
    /\ (len ops < 2 ^ 63 ->
        snap_Successful snap + snap_Failed snap = snap_TotalRequests snap).
Proof.
  destruct (NewEndpointMetrics_balanced urlPattern hostname) as (em0 & Hnew & Hb0 & Hc0).
  destruct (run_balanced ops em0 Hb0) as (em & Hrun & Hb).
  destruct (GetStats_balanced em Hb) as (snap & Hsnap & HT & HS & HF).
  exists em0, em, snap. rewrite HT, HS, HF.
  split; [assumption | ]. split; [assumption | ]. split; [assumption | ].
  split; [apply Hb | ].
  intros Hlen. apply (run_counted ops em0 em 0 Hc0 ltac:(lia) Hrun).
Qed.

(** C7 after a success, a failure and a second success: 2 + 1 = 3. *)
Lemma C7_successful_plus_failed_is_total_witness :
  let ops := [OpSuccess 12 3 4 200 1; OpFailure 30 0 0 0 "timeout" "Request timeout";
              OpSuccess 8 0 2 204 2] in
  len ops < 2 ^ 63
  /\ exists em0 em snap,
       NewEndpointMetrics "http://localhost/" "localhost" = Some em0
       /\ run ops em0 = Some em /\ GetStats em = Some snap
       /\ snap_Successful snap + snap_Failed snap = snap_TotalRequests snap.
Proof.
  cbv zeta. split; [vm_compute; reflexivity | ].
  destruct (C7_successful_plus_failed_is_total "http://localhost/" "localhost"
              [OpSuccess 12 3 4 200 1; OpFailure 30 0 0 0 "timeout" "Request timeout";
               OpSuccess 8 0 2 204 2])
    as (em0 & em & snap & Hnew & Hrun & Hsnap & _ & Hsum).
  exists em0, em, snap. repeat split; try assumption.
  apply Hsum. vm_compute. reflexivity.
Defined.

End MetricsFacts.

(** ** The configuration store *)

Module ConfigFacts.

Import Go config.

(** *** Strings *)

Lemma strip_prefix_spec (prefix s r : string) :
  strip_prefix prefix s = Some r <-> s = String.append prefix r.
Proof.
  revert s. induction prefix as [ | a p IH]; intros s; cbn.
  - split; [intros [= ->]; reflexivity | intros ->; reflexivity].
  - destruct s as [ | b s]; [split; discriminate | ].
    destruct (Ascii.eqb_spec a b) as [-> | Hne].
    + rewrite IH. split; [intros ->; reflexivity | intros [= ->]; reflexivity].
    + split; [discriminate | intros [= E _]; congruence].
Qed.

Lemma HasPrefix_spec (s prefix : string) :
  HasPrefix s prefix = true <-> exists r, s = String.append prefix r.
Proof.
  unfold HasPrefix. destruct (strip_prefix prefix s) as [r | ] eqn:E.
  - apply strip_prefix_spec in E. split; eauto.
  - split; [discriminate | ]. intros [r Hr]. apply strip_prefix_spec in Hr. congruence.
Qed.

Lemma is_empty_spec (s : string) : is_empty s = true <-> s = "".
Proof. unfold is_empty. apply String.eqb_eq. Qed.

Lemma length_append (a b : string) :
  String.length (String.append a b) = (String.length a + String.length b)%nat.
Proof.
  induction a as [ | c a IH]; [reflexivity | ].
  change (S (String.length (String.append a b))
          = S (String.length a + String.length b)%nat).
  f_equal. exact IH.
Qed.

(** *** One route *)

(** [route_match] decides the conditions of the specification. *)
Lemma route_match_spec (path method : string) (route : IncomingEndpoint) (suffix : string) :
  route_match path method route = Some suffix <-> answers path method route suffix.
Proof.
  unfold route_match, answers, HasPrefix, TrimPrefix.
  destruct (ie_Enabled route); cbn [negb].
  2: { split; [discriminate | intros [? _]; discriminate]. }
  destruct (String.eqb_spec (ie_Method route) "*") as [Hstar | Hstar];
    destruct (String.eqb_spec (ie_Method route) method) as [Hm | Hm]; cbn [negb andb].
  4: { split; [discriminate | intros (_ & [? | ?] & _); contradiction]. }
  all: destruct (strip_prefix (ie_Path route) path) as [r | ] eqn:E.
  all: try (split; [discriminate | intros (_ & _ & Hp & _);
                                   apply strip_prefix_spec in Hp; congruence]).
  all: apply strip_prefix_spec in E.
  all: destruct (is_empty r) eqn:Er; cbn [orb].
  all: try (apply is_empty_spec in Er; subst r;
            split; [intros [= <-]; auto 6
                   | intros (_ & _ & Hp & _); f_equal; subst path;
                     apply strip_prefix_spec in Hp;
                     rewrite (proj2 (strip_prefix_spec _ _ _) eq_refl) in Hp;
                     congruence]).
  all: destruct (strip_prefix "/" r) as [rest | ] eqn:Es.
  all: try (apply strip_prefix_spec in Es;
            split; [intros [= <-]; repeat split; eauto
                   | intros (_ & _ & Hp & _); f_equal; subst path;
                     apply strip_prefix_spec in Hp;
                     rewrite (proj2 (strip_prefix_spec _ _ _) eq_refl) in Hp;
                     congruence]).
  all: split; [discriminate | ].
  all: intros (_ & _ & Hp & Hs); subst path; apply strip_prefix_spec in Hp;
       rewrite (proj2 (strip_prefix_spec _ _ _) eq_refl) in Hp;
       injection Hp as <-; destruct Hs as [-> | [rest ->]];
       [discriminate Er | rewrite (proj2 (strip_prefix_spec _ _ _) eq_refl) in Es;
                          discriminate Es].
Qed.

(** *** The loop over the routes *)

Lemma first_match_None (path method : string) (l : list IncomingEndpoint) :
  first_match path method l = None
  <-> forall r, In r l -> route_match path method r = None.
Proof.
  induction l as [ | x l IH]; cbn [first_match].
  - split; [intros _ r [] | reflexivity].
  - destruct (route_match path method x) as [sfx | ] eqn:E.
    + split; [discriminate | ]. intros H. rewrite (H x (or_introl eq_refl)) in E.
      discriminate.
    + rewrite IH. split.
      * intros H r [<- | Hr]; [assumption | exact (H r Hr)].
      * intros H r Hr. apply H. right. assumption.
Qed.

Lemma first_match_Some (path method : string) (l : list IncomingEndpoint)
    (r : IncomingEndpoint) (sfx : string) :
  first_match path method l = Some (r, sfx)
  -> exists l1 l2, l = l1 ++ r :: l2
       /\ route_match path method r = Some sfx
       /\ forall x, In x l1 -> route_match path method x = None.
Proof.
  induction l as [ | x l IH]; cbn [first_match]; [discriminate | ].
  destruct (route_match path method x) as [sfx' | ] eqn:E.
  - intros [= <- <-]. exists [], l. split; [reflexivity | ].
    split; [assumption | intros y []].
  - intros H. destruct (IH H) as (l1 & l2 & -> & Hm & Hnone).
    exists (x :: l1), l2. split; [reflexivity | ]. split; [assumption | ].
    intros y [<- | Hy]; [assumption | exact (Hnone y Hy)].
Qed.

Lemma longer_path_false (a b : IncomingEndpoint) :
  longer_path b a = false
  <-> (String.length (ie_Path b) <= String.length (ie_Path a))%nat.
Proof. unfold longer_path, len_string. rewrite Z.ltb_ge. lia. Qed.

Lemma sorted_after (R : IncomingEndpoint -> IncomingEndpoint -> Prop)
    (l1 l2 : list IncomingEndpoint) (r : IncomingEndpoint) :
  StronglySorted R (l1 ++ r :: l2) -> forall x, In x l2 -> R r x.
Proof.
  induction l1 as [ | y l1 IH]; cbn [app]; intros H x Hx.
  - apply StronglySorted_inv in H. destruct H as [_ H].
    rewrite List.Forall_forall in H. exact (H x Hx).
  - apply StronglySorted_inv in H. destruct H as [H _]. exact (IH H x Hx).
Qed.

(** In a list sorted with the longest paths first, the first route that
    matches has a path at least as long as every route that matches. *)
Lemma first_match_longest (path method : string) (l : list IncomingEndpoint)
    (r : IncomingEndpoint) (sfx : string) :
  StronglySorted (fun a b => longer_path b a = false) l ->
  first_match path method l = Some (r, sfx) ->
  forall r', In r' l -> route_match path method r' <> None ->
  (String.length (ie_Path r') <= String.length (ie_Path r))%nat.
Proof.
  intros Hs Hf r' Hin Hm.
  destruct (first_match_Some _ _ _ _ _ Hf) as (l1 & l2 & -> & _ & Hnone).
  apply in_app_or in Hin. destruct Hin as [Hin | [<- | Hin]].
  - elim Hm. exact (Hnone r' Hin).
  - lia.
  - apply longer_path_false. exact (sorted_after _ l1 l2 r Hs r' Hin).
Qed.

(** *** The insertion sort sorts with the longest paths first *)

Lemma insert_route_perm (r : IncomingEndpoint) (l : list IncomingEndpoint) :
  Permutation (insert_route r l) (r :: l).
Proof.
  induction l as [ | x l IH]; cbn [insert_route]; [reflexivity | ].
  destruct (longer_path r x); [reflexivity | ].
  rewrite IH. apply perm_swap.
Qed.

Lemma insert_route_sorted (r : IncomingEndpoint) (l : list IncomingEndpoint) :
  StronglySorted (fun a b => longer_path b a = false) l ->
  StronglySorted (fun a b => longer_path b a = false) (insert_route r l).
Proof.
  induction l as [ | x l IH]; cbn [insert_route]; intros H.
  - constructor; constructor.
  - apply StronglySorted_inv in H. destruct H as [Hl Hx].
    destruct (longer_path r x) eqn:E.
    + constructor; [constructor; assumption | ].
      assert (Hrx : (String.length (ie_Path x) < String.length (ie_Path r))%nat)
        by (unfold longer_path, len_string in E; apply Z.ltb_lt in E; lia).
      constructor; [apply longer_path_false; lia | ].
      rewrite List.Forall_forall in Hx |- *. intros y Hy.
      apply longer_path_false. pose proof (proj1 (longer_path_false _ _) (Hx y Hy)). lia.
    + constructor; [exact (IH Hl) | ].
      apply (Permutation_Forall (Permutation_sym (insert_route_perm r l))).
      constructor; assumption.
Qed.

Lemma insertion_sort_sorts : sorts_longest_first insertion_sort.
Proof.
  intros l. unfold insertion_sort. induction l as [ | x l [IHp IHs]]; cbn [fold_right].
  - split; [reflexivity | constructor].
  - split; [rewrite insert_route_perm, IHp; reflexivity | ].
    apply insert_route_sorted. assumption.
Qed.

(** *** Longest-prefix matching *)

(** With the routes /a and /a/b, both enabled, /a/b/c is answered by /a/b
    and /a/x by /a, whatever the sort does with ties. *)
Lemma match_a_and_ab
    (sortSlice : list IncomingEndpoint -> list IncomingEndpoint) (method : string) :
  sorts_longest_first sortSlice ->
  let m_ab := manager_with_routes [open_route "/a"; open_route "/a/b"] in
  MatchIncomingRoute sortSlice "/a/b/c" method m_ab = Some (open_route "/a/b", "/c")
  /\ MatchIncomingRoute sortSlice "/a/x" method m_ab = Some (open_route "/a", "/x").
Proof.
  intros Hsort m_ab. unfold MatchIncomingRoute, m_ab. cbn [config manager_with_routes
    with_config with_IncomingRoutes IncomingEnabled IncomingRoutes NewManager negb].
  destruct (Hsort [open_route "/a"; open_route "/a/b"]) as [Hperm Hsorted].
  apply Permutation_sym, Permutation_length_2_inv in Hperm.
  destruct Hperm as [E | E]; rewrite E in *.
  - exfalso. apply StronglySorted_inv in Hsorted. destruct Hsorted as [_ H].
    apply Forall_inv in H. discriminate H.
  - unfold first_match, route_match, open_route, Clone. cbn.
    destruct (String.eqb "*" method); split; reflexivity.
Qed.

(** C4.  For every sort that [sort.Slice] may perform: a match is returned
    exactly when incoming routes are enabled and some route satisfies the
    four conditions; the route returned is one of the routes, satisfies the
    conditions with the returned suffix (the part of the path after the
    path of the route), and no route that satisfies them has a longer
    path.  So with /a and /a/b enabled, /a/b/c matches /a/b and /a/x
    matches /a. *)
Theorem C4_longest_prefix_match
    (sortSlice : list IncomingEndpoint -> list IncomingEndpoint)
    (path method : string) (m : Manager) :
  sorts_longest_first sortSlice ->
  (is_Some (MatchIncomingRoute sortSlice path method m)
   <-> IncomingEnabled (config m) = true
       /\ exists route suffix,
            In route (IncomingRoutes (config m)) /\ answers path method route suffix)
  /\ (forall route suffix,
        MatchIncomingRoute sortSlice path method m = Some (route, suffix) ->
        In route (IncomingRoutes (config m))
        /\ answers path method route suffix
        /\ forall route' suffix',
             In route' (IncomingRoutes (config m)) ->
             answers path method route' suffix' ->
             (String.length (ie_Path route') <= String.length (ie_Path route))%nat)
  /\ (let m_ab := manager_with_routes [open_route "/a"; open_route "/a/b"] in
      MatchIncomingRoute sortSlice "/a/b/c" method m_ab = Some (open_route "/a/b", "/c")
      /\ MatchIncomingRoute sortSlice "/a/x" method m_ab = Some (open_route "/a", "/x")).
Proof.
  intros Hsort. split; [ | split].
  3: { exact (match_a_and_ab sortSlice method Hsort). }
  all: destruct (Hsort (IncomingRoutes (config m))) as [Hperm Hsorted].
  all: unfold MatchIncomingRoute.
  - destruct (IncomingEnabled (config m)); cbn [negb].
    + split.
      * intros [[r sfx] Hf].
        destruct (first_match_Some _ _ _ _ _ Hf) as (l1 & l2 & Hl & Hm & _).
        split; [reflexivity | ]. exists r, sfx. split.
        -- apply (Permutation_in _ Hperm). rewrite Hl. apply in_or_app. right. left.
           reflexivity.
        -- apply route_match_spec. assumption.
      * intros (_ & r & sfx & Hin & Hans).
        destruct (first_match path method (sortSlice (IncomingRoutes (config m))))
          as [res | ] eqn:Hf; [eauto | exfalso].
        rewrite first_match_None in Hf.
        apply route_match_spec in Hans.
        rewrite (Hf r (Permutation_in _ (Permutation_sym Hperm) Hin)) in Hans.
        discriminate.
    + split; [intros [x Hx]; discriminate | intros [? _]; discriminate].
  - intros r sfx. destruct (IncomingEnabled (config m)); cbn [negb]; [ | discriminate].
    intros Hf. destruct (first_match_Some _ _ _ _ _ Hf) as (l1 & l2 & Hl & Hm & _).
    split; [ | split].
    + apply (Permutation_in _ Hperm). rewrite Hl. apply in_or_app. right. left.
      reflexivity.
    + apply route_match_spec. assumption.
    + intros r' sfx' Hin' Hans'.
      apply (first_match_longest path method _ r sfx Hsorted Hf).
      * exact (Permutation_in _ (Permutation_sym Hperm) Hin').
      * apply route_match_spec in Hans'. congruence.
Qed.

(** C4 at the insertion sort and the routes /a and /a/b. *)
Lemma C4_longest_prefix_match_witness :
  sorts_longest_first insertion_sort
  /\ MatchIncomingRoute insertion_sort "/a/b/c" "GET"
       (manager_with_routes [open_route "/a"; open_route "/a/b"])
     = Some (open_route "/a/b", "/c").
Proof.
  split; [exact insertion_sort_sorts | ].
  exact (proj1 (proj2 (proj2 (C4_longest_prefix_match insertion_sort "/a/b/c" "GET"
                                (manager_with_routes [open_route "/a"; open_route "/a/b"])
                                insertion_sort_sorts)))).
Defined.

(** *** Normalization *)

Lemma normalize_route_idem (r : IncomingEndpoint) :
  normalize_route (normalize_route r) = normalize_route r.
Proof.
  destruct r as [name path method responses enabled enabledSet].
  unfold normalize_route, default_route_enabled, default_route_method.
  destruct method as [ | c method], enabled, enabledSet; reflexivity.
Qed.

(** The five statements of the loop body write five different fields, and
    each reads only the field it writes (the resolution reads the auth
    field, which the default for it may have set): each is idempotent and
    they commute. *)

Ltac stages :=
  let e := fresh "e" in
  intros e;
  destruct e as [name method url cpath freq auth resolved headers body timeout
                   enabled enabledSet];
  unfold default_timeout, default_method, default_enabled, default_auth,
    resolve_or_none.

Ltac resolved :=
  cbn -[ResolveEndpointAuth];
  repeat match goal with
         | |- context [ResolveEndpointAuth ?a ?c] => destruct (ResolveEndpointAuth a c)
         end;
  reflexivity.

Lemma default_timeout_idem : forall e, default_timeout (default_timeout e) = default_timeout e.
Proof. stages. destruct timeout; reflexivity. Qed.

Lemma default_method_idem : forall e, default_method (default_method e) = default_method e.
Proof. stages. destruct method; reflexivity. Qed.

Lemma default_enabled_idem : forall e, default_enabled (default_enabled e) = default_enabled e.
Proof. stages. destruct enabled, enabledSet; reflexivity. Qed.

Lemma default_auth_idem : forall e, default_auth (default_auth e) = default_auth e.
Proof. stages. destruct auth; reflexivity. Qed.

Lemma resolve_or_none_idem (configs : gmap string AuthConfig) :
  forall e, resolve_or_none configs (resolve_or_none configs e) = resolve_or_none configs e.
Proof.
  stages. cbn [ep_Auth]. destruct (ResolveEndpointAuth auth configs) eqn:E;
    cbn [ep_Auth with_ep_ResolvedAuth]; rewrite E; reflexivity.
Qed.

Lemma default_timeout_method : forall e,
  default_timeout (default_method e) = default_method (default_timeout e).
Proof. stages. destruct method, timeout; reflexivity. Qed.

Lemma default_timeout_enabled : forall e,
  default_timeout (default_enabled e) = default_enabled (default_timeout e).
Proof. stages. destruct enabled, enabledSet, timeout; reflexivity. Qed.

Lemma default_timeout_auth : forall e,
  default_timeout (default_auth e) = default_auth (default_timeout e).
Proof. stages. destruct auth, timeout; reflexivity. Qed.

Lemma default_timeout_resolve (configs : gmap string AuthConfig) : forall e,
  default_timeout (resolve_or_none configs e)
  = resolve_or_none configs (default_timeout e).
Proof. stages. destruct timeout; resolved. Qed.

Lemma default_method_enabled : forall e,
  default_method (default_enabled e) = default_enabled (default_method e).
Proof. stages. destruct method, enabled, enabledSet; reflexivity. Qed.

Lemma default_method_auth : forall e,
  default_method (default_auth e) = default_auth (default_method e).
Proof. stages. destruct method, auth; reflexivity. Qed.

Lemma default_method_resolve (configs : gmap string AuthConfig) : forall e,
  default_method (resolve_or_none configs e)
  = resolve_or_none configs (default_method e).
Proof. stages. destruct method; resolved. Qed.

Lemma default_enabled_auth : forall e,
  default_enabled (default_auth e) = default_auth (default_enabled e).
Proof. stages. destruct enabled, enabledSet, auth; reflexivity. Qed.

Lemma default_enabled_resolve (configs : gmap string AuthConfig) : forall e,
  default_enabled (resolve_or_none configs e)
  = resolve_or_none configs (default_enabled e).
Proof. stages. destruct enabled, enabledSet; resolved. Qed.

(** After the default for the auth field the resolution reads ["none"]
    where it read [nil], and the default has nothing left to do. *)
Lemma default_auth_resolve (configs : gmap string AuthConfig) : forall e,
  default_auth (resolve_or_none configs (default_auth e))
  = resolve_or_none configs (default_auth e).
Proof. stages. destruct auth; resolved. Qed.

Lemma normalize_endpoint_idem (configs : gmap string AuthConfig) (e : Endpoint) :
  normalize_endpoint configs (normalize_endpoint configs e)
  = normalize_endpoint configs e.
Proof.
  unfold normalize_endpoint.
  rewrite default_timeout_resolve, default_timeout_auth, default_timeout_enabled,
    default_timeout_method, default_timeout_idem.
  rewrite default_method_resolve, default_method_auth, default_method_enabled,
    default_method_idem.
  rewrite default_enabled_resolve, default_enabled_auth, default_enabled_idem.
  rewrite default_auth_resolve, resolve_or_none_idem.
  reflexivity.
Qed.

(** C8.  Normalizing a normalized configuration changes nothing. *)
Theorem C8_normalize_idempotent (m : Manager) :
  normalize (normalize m) = normalize m.
Proof.
  destruct m as [c cpath]. destruct c.
  unfold normalize, normalizeIncomingRoutes, normalizeEndpoints,
    with_config, with_IncomingRoutes, with_Endpoints.
  cbn [config configPath Enabled GlobalMultiplier ConcurrentRequests LogAllRequests
       APIPort AuthConfigs Endpoints IncomingEnabled IncomingRoutes].
  f_equal. f_equal.
  - rewrite map_map. apply map_ext. apply normalize_endpoint_idem.
  - rewrite map_map. apply map_ext. apply normalize_route_idem.
Qed.

(** *** Failed mutations *)

Ltac unchanged :=
  repeat match goal with
         | |- context [match ?x with _ => _ end] =>
             lazymatch x with
             | context [match _ with _ => _ end] => fail
             | _ => destruct x eqn:?
             end
         end;
  intros [= <- <-] || intros [= <-] || discriminate.

(** Every mutation that returns an error leaves the store as it was, but
    for an [UpdateAuthConfig] that renames the config and whose candidate
    does not validate. *)
Lemma mutation_error_keeps_store (mu : mutation) (m m' : Manager) (e : error) :
  ~ renames_to_invalid mu m ->
  apply_mutation mu m = (Some e, m') -> m' = m.
Proof.
  intros Hok. destruct mu; cbn [apply_mutation].
  - unfold AddEndpoint. unchanged; reflexivity.
  - unfold UpdateEndpoint. unchanged; reflexivity.
  - unfold DeleteEndpoint. unchanged; reflexivity.
  - unfold SetEndpointEnabled. unchanged; reflexivity.
  - unfold AddAuthConfig. unchanged; reflexivity.
  - unfold UpdateAuthConfig.
    destruct (AuthConfigs (config m) !! name) as [old | ] eqn:Hold;
      [ | intros [= <- <-]; reflexivity].
    destruct (String.eqb_spec (ac_Name authCfg) name) as [Hsame | Hren]; cbn [negb].
    + destruct (ValidateAuthConfig authCfg); [discriminate | ].
      intros [= <- <-]. reflexivity.
    + destruct (AuthConfigs (config m) !! ac_Name authCfg) as [taken | ] eqn:Htaken;
        [intros [= <- <-]; reflexivity | ].
      destruct (ValidateAuthConfig authCfg) as [ | p ps] eqn:Hval; [discriminate | ].
      elim Hok. cbn. rewrite Hval. repeat split; [assumption .. | discriminate].
  - unfold DeleteAuthConfig. unchanged; reflexivity.
  - unfold AddIncomingRoute. unchanged; reflexivity.
  - unfold UpdateIncomingRoute. unchanged; reflexivity.
  - unfold DeleteIncomingRoute. unchanged; reflexivity.
  - unfold SetIncomingRouteEnabled. unchanged; reflexivity.
  - unfold ReplaceConfig. unchanged; reflexivity.
Qed.

(** The exception: the error is returned after the old name was removed. *)
Lemma UpdateAuthConfig_rename_invalid (name : string) (authCfg old : AuthConfig)
    (m : Manager) :
  AuthConfigs (config m) !! name = Some old ->
  renames_to_invalid (MUpdateAuthConfig name authCfg) m ->
  exists m', UpdateAuthConfig name authCfg m
             = (Some (ErrValidationFailed (ValidateAuthConfig authCfg)), m')
             /\ AuthConfigs (config m') !! name = None.
Proof.
  intros Hold (Hren & Hfree & Hval). unfold UpdateAuthConfig. rewrite Hold.
  destruct (String.eqb_spec (ac_Name authCfg) name) as [ | _]; [contradiction | ].
  cbn [negb]. rewrite Hfree.
  destruct (ValidateAuthConfig authCfg) as [ | p ps]; [contradiction | ].
  eexists. split; [reflexivity | ]. cbn. apply lookup_delete_eq.
Qed.

(** The import handler validates the candidate on a scratch manager and
    hands it to the store only when it validates: a request that is
    refused leaves the store as it was, and a request that is accepted
    installed a configuration that validates. *)
Lemma handleImportConfig_swaps_after_validation (newCfg : Config) (store : Manager) :
  let '(status, store') := api.handleImportConfig newCfg store in
  (status <> 200 -> store' = store)
  /\ (status = 200 ->
      exists manager,
        ReplaceConfig (Some newCfg) NewManager = (None, manager)
        /\ Validate manager = []
        /\ ReplaceConfig (Some (config manager)) store = (None, store')).
Proof.
  unfold api.handleImportConfig.
  destruct (ReplaceConfig (Some newCfg) NewManager) as [[e | ] manager] eqn:Hscratch.
  - split; [reflexivity | intros [=]].
  - destruct (Validate manager) as [ | p ps] eqn:Hval.
    + destruct (ReplaceConfig (Some (config manager)) store) as [[e | ] store'] eqn:Hswap.
      * discriminate Hswap.
      * split; [intros H; contradiction | ]. intros _. exists manager. auto.
    + split; [reflexivity | intros [=]].
Qed.


(** *** Deleting an auth config *)

(** A config that an endpoint names with a plain string is not deleted. *)
Lemma DeleteAuthConfig_refuses_named (name : string) (ep : Endpoint) (m : Manager) :
  is_Some (AuthConfigs (config m) !! name) ->
  In ep (Endpoints (config m)) -> ep_Auth ep = IString name ->
  exists user, DeleteAuthConfig name m = (Some (ErrAuthConfigInUse name user), m).
Proof.
  intros [old Hold] Hin Hauth. unfold DeleteAuthConfig. rewrite Hold.
  destruct (find (uses_auth name) (Endpoints (config m))) as [user | ] eqn:Hfind;
    [eauto | exfalso].
  apply (find_none _ _ Hfind) in Hin. unfold uses_auth in Hin. rewrite Hauth in Hin.
  rewrite String.eqb_refl in Hin. discriminate.
Qed.

(** A config that endpoints name only through inline descriptors is
    deleted: the loop looks at string references alone. *)
Lemma DeleteAuthConfig_ignores_inline (name : string) (m : Manager) :
  is_Some (AuthConfigs (config m) !! name) ->
  (forall ep, In ep (Endpoints (config m)) -> exists authMap, ep_Auth ep = IMap authMap) ->
  exists m', DeleteAuthConfig name m = (None, m')
             /\ AuthConfigs (config m') !! name = None
             /\ Endpoints (config m') = Endpoints (config m).
Proof.
  intros [old Hold] Hinline. unfold DeleteAuthConfig. rewrite Hold.
  destruct (find (uses_auth name) (Endpoints (config m))) as [user | ] eqn:Hfind.
  - apply find_some in Hfind. destruct Hfind as [Hin Huse].
    destruct (Hinline user Hin) as [authMap Hmap]. unfold uses_auth in Huse.
    rewrite Hmap in Huse. discriminate.
  - eexists. split; [reflexivity | ]. cbn. split; [apply lookup_delete_eq | reflexivity].
Qed.

(** C3, where the code departs from it: the endpoint ["e"] refers to the
    auth config ["a"] through the inline descriptor [{ref: a}] and resolves
    to it, and [DeleteAuthConfig("a")] returns no error and removes ["a"];
    with the plain reference ["a"] the same call is refused. *)
Theorem C3_inline_reference_not_refused :
  let m := store_with_endpoint (inline_ref "a") in
  option_map ep_ResolvedAuth (head (Endpoints (config m))) = Some (Some (bearer_auth "a"))
  /\ fst (DeleteAuthConfig "a" m) = None
  /\ AuthConfigs (config (snd (DeleteAuthConfig "a" m))) !! "a" = None
  /\ fst (DeleteAuthConfig "a" (store_with_endpoint (IString "a")))
     = Some (ErrAuthConfigInUse "a" "e").
Proof. repeat split; vm_compute; reflexivity. Qed.

End ConfigFacts.

(** ** The token manager *)

Module TokenFacts.

Import Go client.

(** When every attempt fails and no wait is interrupted, the loop makes
    its four attempts and ends with the error of the last. *)
Lemma retry_exhausted (w : world) (errs : nat -> error) :
  (forall k, (k <= 3)%nat -> fetch w k = FetchErr (errs k)) ->
  (forall k, (1 <= k <= 3)%nat -> done_during_wait w k = None) ->
  retry w 4 0 None = Exhausted (Some (errs 3%nat)).
Proof.
  intros Hfail Hwait. cbn [retry Nat.ltb Nat.leb].
  rewrite (Hfail 0%nat), (Hfail 1%nat), (Hfail 2%nat), (Hfail 3%nat) by lia.
  rewrite (Hwait 1%nat), (Hwait 2%nat), (Hwait 3%nat) by lia.
  reflexivity.
Qed.

(** When the context is done during the wait ahead of attempt [k], after
    [k] failed attempts, the loop ends there. *)
Lemma retry_interrupted (w : world) (k : nat) (e : ctx_error) :
  (1 <= k <= 3)%nat ->
  (forall j, (j < k)%nat -> exists err, fetch w j = FetchErr err) ->
  (forall j, (1 <= j < k)%nat -> done_during_wait w j = None) ->
  done_during_wait w k = Some e ->
  retry w 4 0 None = Interrupted e.
Proof.
  intros Hk Hfail Hwait Hdone. cbn [retry Nat.ltb Nat.leb].
  destruct (Hfail 0%nat ltac:(lia)) as [e0 ->].
  destruct k as [ | [ | [ | [ | k]]]]; try lia.
  - rewrite Hdone. reflexivity.
  - rewrite (Hwait 1%nat) by lia. destruct (Hfail 1%nat ltac:(lia)) as [e1 ->].
    rewrite Hdone. reflexivity.
  - rewrite (Hwait 1%nat) by lia. destruct (Hfail 1%nat ltac:(lia)) as [e1 ->].
    rewrite (Hwait 2%nat) by lia. destruct (Hfail 2%nat ltac:(lia)) as [e2 ->].
    rewrite Hdone. reflexivity.
Qed.

(** The explicit guard of the retry loop: a refresh whose context is done
    while it waits returns the error of the context and leaves the stored
    tokens alone, whether or not one is stored. *)
Lemma refreshToken_interrupted (w : world) (authName : string)
    (cfg : config.AuthConfig) (tm : TokenManager) (k : nat) (e : ctx_error) :
  (forall token, tokens tm !! authName = Some token -> ~ now_check w < RefreshAt token) ->
  (1 <= k <= 3)%nat ->
  (forall j, (j < k)%nat -> exists err, fetch w j = FetchErr err) ->
  (forall j, (1 <= j < k)%nat -> done_during_wait w j = None) ->
  done_during_wait w k = Some e ->
  refreshToken w authName cfg tm = (("", Some (ErrContext e)), tm).
Proof.
  intros Hstale Hk Hfail Hwait Hdone. unfold refreshToken.
  rewrite (retry_interrupted w k e Hk Hfail Hwait Hdone).
  destruct (tokens tm !! authName) as [token | ]; [ | reflexivity].
  destruct (Z.ltb_spec (now_check w) (RefreshAt token)); [ | reflexivity].
  elim (Hstale token eq_refl). assumption.
Qed.

(** C5, as the code has it.  A refresh whose four attempts are all made
    (the context is not done during the waits between them) and all fail:
    with a stored token that is due for refresh it returns the value of
    that token and no error, adds one to its error count and records the
    last error; without a stored token it returns the error. *)
Theorem C5_stale_token_fallback (w : world) (authName : string)
    (cfg : config.AuthConfig) (tm : TokenManager) (errs : nat -> error) :
  (forall k, (k <= 3)%nat -> fetch w k = FetchErr (errs k)) ->
  (forall k, (1 <= k <= 3)%nat -> done_during_wait w k = None) ->
  match tokens tm !! authName with
  | Some token =>
      ~ now_check w < RefreshAt token ->
      refreshToken w authName cfg tm
      = ((Value token, None),
         with_tokens
           (<[authName := {| Value := Value token; ExpiresAt := ExpiresAt token;
                             RefreshAt := RefreshAt token;
                             LastRefresh := LastRefresh token;
                             LastError := Some (errs 3%nat);
                             ErrorCount := wrap64 (ErrorCount token + 1) |}]>
              (tokens tm)) tm)
  | None =>
      refreshToken w authName cfg tm
      = (("", Some (ErrRefreshFailed (Some (errs 3%nat)))), tm)
  end.
Proof.
  intros Hfail Hwait. unfold refreshToken.
  rewrite (retry_exhausted w errs Hfail Hwait).
  destruct (tokens tm !! authName) as [token | ]; [ | reflexivity].
  intros Hstale. destruct (Z.ltb_spec (now_check w) (RefreshAt token)); [contradiction | ].
  reflexivity.
Qed.

(** C5 at the token T1, due for refresh, with an endpoint that answers 500
    four times: T1 is served and its error count is 1. *)
Lemma C5_stale_token_fallback_witness :
  let w := failing_world (100 * Second) (fun _ => None) in
  fst (refreshToken w "a" (refreshing_auth "a") manager_with_T1) = ("T1", None)
  /\ error_count "a" (snd (refreshToken w "a" (refreshing_auth "a") manager_with_T1)) = 1.
Proof.
  pose proof (C5_stale_token_fallback
                (failing_world (100 * Second) (fun _ => None)) "a"
                (refreshing_auth "a") manager_with_T1
                (fun _ => ErrFetch "token endpoint returned status 500")
                (fun k _ => eq_refl) (fun k _ => eq_refl)) as H.
  change (tokens manager_with_T1 !! "a") with (Some token_T1) in H.
  cbv zeta. rewrite (H ltac:(vm_compute; discriminate)).
  split; reflexivity.
Defined.

(** C5 as the specification states it fails when the context is cancelled:
    the first attempt fails, T1 is stored, and the refresh returns the
    error of the context and no token; no count is incremented. *)
Lemma C5_counterexample :
  let w := failing_world (100 * Second)
             (fun k => if Nat.eqb k 1 then Some Canceled else None) in
  tokens manager_with_T1 !! "a" = Some token_T1
  /\ fetch w 0 = FetchErr (ErrFetch "token endpoint returned status 500")
  /\ refreshToken w "a" (refreshing_auth "a") manager_with_T1
     = (("", Some (ErrContext Canceled)), manager_with_T1).
Proof. cbv zeta. split; [reflexivity | ]. split; reflexivity. Qed.

(** Scenario S5: the first [GetToken] fetches T1; a forced refresh while
    the endpoint fails keeps T1 and counts the error; [GetToken] still
    returns T1. *)
Lemma scenario_stale_token :
  let tm0 := NewTokenManager (<["a" := refreshing_auth "a"]> ∅) in
  let getenv := fun _ : string => ""%string in
  let '((v1, e1), tm1) := GetToken getenv 0 (serving_world 0) "a" tm0 in
  let '(e2, tm2) := ForceRefresh (failing_world Second (fun _ => None)) "a" tm1 in
  let '((v3, e3), tm3) :=
    GetToken getenv (2 * Second) (failing_world (2 * Second) (fun _ => None)) "a" tm2 in
  (v1, e1) = ("T1"%string, None) /\ e2 = None /\ (v3, e3) = ("T1"%string, None)
  /\ 1 <= error_count "a" tm3.
Proof. vm_compute. repeat split; discriminate. Qed.

End TokenFacts.

(** ** The scheduler *)

Module SchedulerFacts.

Import Go scheduler.

Lemma EmergencyStop_halts (s : Scheduler) : halted (EmergencyStop s) = true.
Proof. reflexivity. Qed.

Lemma Pause_halts (s : Scheduler) : halted (Pause s) = true.
Proof. reflexivity. Qed.

(** Only results of kind "cancelled" are ever rewritten. *)
Lemma rewrite_result_other (s : Scheduler) (r : client.RequestResult) :
  client.ErrorType r <> "cancelled" -> rewrite_result s (Some r) = Some r.
Proof.
  intros H. unfold rewrite_result.
  destruct (String.eqb_spec (client.ErrorType r) "cancelled"); [contradiction | reflexivity].
Qed.

(** C6.  A result of kind "cancelled" is rewritten to "timeout" exactly
    when, at the time the request completes, the scheduler is not paused
    and the master switch is on; otherwise it reaches the callback as it
    is.  In the state [EmergencyStop] leaves, it reaches the callback as it
    is. *)
Theorem C6_cancelled_rewritten_iff_running (s : Scheduler) (r : client.RequestResult) :
  client.ErrorType r = "cancelled" ->
  (rewrite_result s (Some r) = Some (client.with_error "timeout" "Request timeout" r)
   <-> IsPaused s = false /\ config.IsEnabled (configManager s) = true)
  /\ (rewrite_result s (Some r) = Some r
      <-> ~ (IsPaused s = false /\ config.IsEnabled (configManager s) = true))
  /\ fst (finish_request true (Some r) (EmergencyStop s)) = [Some r].
Proof.
  intros Hc.
  assert (Hne : client.with_error "timeout" "Request timeout" r <> r).
  { intros E. apply (f_equal client.ErrorType) in E. rewrite Hc in E. discriminate E. }
  unfold finish_request, rewrite_result. rewrite Hc. cbn [String.eqb Ascii.eqb Bool.eqb andb].
  change (IsPaused (EmergencyStop s)) with true. cbn [negb andb fst].
  split; [ | split; [ | reflexivity]].
  - destruct (IsPaused s), (config.IsEnabled (configManager s)); cbn [negb andb];
      split; try (intros [= E]; congruence); try (intros [? ?]; discriminate);
      try reflexivity; auto.
  - destruct (IsPaused s), (config.IsEnabled (configManager s)); cbn [negb andb];
      split; try reflexivity; try (intros [? ?]; discriminate);
      try (intros _ [? ?]; discriminate).
    + intros [= E]. congruence.
    + intros H. elim H. auto.
Qed.

(** C6 at a running scheduler: the cancelled result is rewritten before
    [EmergencyStop] and delivered as it is after. *)
Lemma C6_cancelled_rewritten_iff_running_witness :
  let s := Start (New config.NewManager) in
  let r := result_of_kind "cancelled" in
  client.ErrorType r = "cancelled"
  /\ rewrite_result s (Some r) = Some (client.with_error "timeout" "Request timeout" r)
  /\ fst (finish_request true (Some r) (EmergencyStop s)) = [Some r].
Proof.
  cbv zeta. split; [reflexivity | ].
  pose proof (C6_cancelled_rewritten_iff_running (Start (New config.NewManager))
                (result_of_kind "cancelled") eq_refl) as (H1 & _ & H3).
  split; [apply H1; split; reflexivity | exact H3].
Defined.

End SchedulerFacts.

(** ** The inbound responder *)

Module ApiFacts.

Import Go api.

(** C10.  A list of exactly one response yields that response, whatever
    its share, and an empty list yields the fallback (status 500, share 1,
    no delay); in both cases the random source is left as it was. *)
Theorem C10_select_single_or_empty (only : config.IncomingResponseConfig) (r : Rand) :
  selectWeightedResponse [only] r = (only, r)
  /\ selectWeightedResponse [] r = (fallback_response, r)
  /\ config.StatusCode fallback_response = 500
  /\ config.Share fallback_response = 1%float
  /\ config.MinResponseMs fallback_response = 0
  /\ config.MaxResponseMs fallback_response = 0.
Proof. repeat split; reflexivity. Qed.

End ApiFacts.

(** ** The contents of a ring buffer *)

Module BufferFacts.

Import Go metrics FloatFacts RingBufferFacts.

(** *** The order of the floats *)

Lemma SFltb_irrefl (a : spec_float) : SFltb a a = false.
Proof.
  unfold SFltb, SFcompare. destruct a as [s | s | | s m e]; try destruct s; try reflexivity.
  all: rewrite Z.compare_refl; change (PosDef.Pos.compare_cont Eq m m) with (Pos.compare m m).
  all: rewrite Pos.compare_refl; reflexivity.
Qed.

Lemma SFltb_trans (a b c : spec_float) :
  SFltb a b = true -> SFltb b c = true -> SFltb a c = true.
Proof.
  unfold SFltb, SFcompare.
  destruct a as [sa | sa | | sa ma ea], b as [sb | sb | | sb mb eb],
    c as [sc | sc | | sc mc ec];
    try destruct sa; try destruct sb; try destruct sc;
    try discriminate; try reflexivity.
  all: change (PosDef.Pos.compare_cont Eq) with Pos.compare.
  all: destruct (Z.compare_spec ea eb); try discriminate;
    destruct (Z.compare_spec eb ec); try discriminate;
    destruct (Z.compare_spec ea ec); try reflexivity; try lia; subst.
  all: destruct (Pos.compare_spec ma mb); try discriminate;
    destruct (Pos.compare_spec mb mc); try discriminate;
    destruct (Pos.compare_spec ma mc); try reflexivity; try lia; subst; try lia.
Qed.

Lemma ltb_irrefl (x : float) : PrimFloat.ltb x x = false.
Proof. rewrite FloatAxioms.ltb_spec. apply SFltb_irrefl. Qed.

Lemma ltb_trans (x y z : float) :
  PrimFloat.ltb x y = true -> PrimFloat.ltb y z = true -> PrimFloat.ltb x z = true.
Proof. rewrite !FloatAxioms.ltb_spec. apply SFltb_trans. Qed.

(** *** The window of the latest values *)


Lemma rotate_all {A} (l : list A) : rotate (length l) l = l.
Proof.
  unfold rotate. destruct l as [ | x l]; [reflexivity | ].
  rewrite Nat.Div0.mod_same. cbn. rewrite app_nil_r. reflexivity.
Qed.

Lemma rotate_next {A} (d : list A) (k : nat) (x : A) (t : list A) :
  (k < length d)%nat -> rotate k d = x :: t ->
  rotate (S k mod length d) d = t ++ [x].
Proof.
  intros Hk. unfold rotate. rewrite Nat.Div0.mod_mod, (Nat.mod_small k) by lia.
  destruct (lookup_lt_is_Some_2 d k Hk) as [y Hy].
  rewrite (drop_S d y k Hy). cbn [app]. intros [= <- <-].
  destruct (decide (S k < length d)%nat) as [Hlt | Hge].
  - rewrite Nat.mod_small by lia. rewrite (take_S_r d k y Hy).
    rewrite app_assoc. reflexivity.
  - replace (S k) with (length d) by lia. rewrite Nat.Div0.mod_same.
    rewrite drop_all. cbn [app drop take]. rewrite app_nil_r.
    rewrite <- (take_S_r d k y Hy). rewrite take_ge by lia. reflexivity.
Qed.


Lemma last_n_all {A} (n : nat) (l : list A) : (length l <= n)%nat -> last_n n l = l.
Proof. intros H. unfold last_n. replace (length l - n)%nat with 0%nat by lia. reflexivity. Qed.


Lemma Add_shape (v : float) (rb : RingBuffer) :
  wf rb -> 0 < capacity rb ->
  Add v rb = Some {| data := <[Z.to_nat (index rb) := v]> (data rb);
                     capacity := capacity rb;
                     index := (index rb + 1) mod capacity rb;
                     size := if size rb <? capacity rb then size rb + 1 else size rb |}.
Proof.
  intros [Hc Hd Hi Hs] Hpos. unfold Add.
  replace ((0 <=? index rb) && (index rb <? len (data rb))) with true
    by (symmetry; apply andb_true_intro; split; [apply Z.leb_le | apply Z.ltb_lt]; lia).
  destruct (Z.eqb_spec (capacity rb) 0); [lia | ].
  rewrite !wrap64_small by (apply pow53_int64; lia).
  rewrite Z.rem_mod_nonneg by lia. reflexivity.
Qed.

Lemma Add_window (v : float) (rb rb' : RingBuffer) :
  wf rb -> fills_in_order rb -> 0 < capacity rb -> Add v rb = Some rb' ->
  fills_in_order rb'
  /\ window rb' = last_n (Z.to_nat (capacity rb)) (window rb ++ [v]).
Proof.
  intros Hwf Hfill Hpos. rewrite (Add_shape v rb Hwf Hpos). intros [= <-].
  destruct Hwf as [Hc Hd Hi Hs]. unfold len in Hd.
  unfold fills_in_order, window. cbn [data capacity index size].
  destruct (Z.ltb_spec (size rb) (capacity rb)) as [Hlt | Hfull].
  - pose proof (Hfill Hlt) as Hix. rewrite Hix.
    assert (Hin : (Z.to_nat (size rb) < length (data rb))%nat) by lia.
    replace (Z.to_nat (size rb + 1)) with (S (Z.to_nat (size rb))) by lia.
    rewrite (take_S_r _ _ v) by (apply list_lookup_insert_eq; exact Hin).
    rewrite take_insert_ge by lia.
    set (region := take (Z.to_nat (size rb)) (data rb)).
    assert (Hlen : length region = Z.to_nat (size rb))
      by (unfold region; rewrite length_take; lia).
    assert (Hr : rotate (Z.to_nat (size rb)) region = region)
      by (rewrite <- Hlen; apply rotate_all).
    rewrite Hr.
    rewrite last_n_all by (rewrite length_app; cbn [length]; lia).
    split.
    + intros Hlt'. apply Z.mod_small. lia.
    + destruct (Z.eq_dec (size rb + 1) (capacity rb)) as [Heq | Hne].
      * rewrite Heq, Z.mod_same by lia. change (Z.to_nat 0) with 0%nat.
        unfold rotate. rewrite Nat.Div0.mod_0_l. cbn [drop take].
        rewrite app_nil_r. reflexivity.
      * rewrite Z.mod_small by lia.
        replace (Z.to_nat (size rb + 1)) with (length (region ++ [v]))
          by (rewrite length_app; cbn [length]; lia).
        apply rotate_all.
  - split; [lia | ].
    assert (Hsz : Z.to_nat (size rb) = length (data rb)) by lia.
    rewrite Hsz. rewrite take_ge by (rewrite length_insert; lia).
    rewrite take_ge by lia.
    set (k := Z.to_nat (index rb)). assert (Hk : (k < length (data rb))%nat) by lia.
    destruct (rotate k (data rb)) as [ | x t] eqn:Hrot.
    { apply (f_equal length) in Hrot. rewrite length_rotate in Hrot. cbn in Hrot. lia. }
    assert (Hrot' : rotate k (<[k := v]> (data rb)) = v :: t).
    { rewrite rotate_insert_r by exact Hk. rewrite rotate_nat_sub_0 by exact Hk.
      rewrite Hrot. reflexivity. }
    pose proof (rotate_next (<[k := v]> (data rb)) k v t
                  ltac:(rewrite length_insert; exact Hk) Hrot') as Hnext.
    rewrite length_insert in Hnext.
    replace (Z.to_nat ((index rb + 1) mod capacity rb))
      with (S k mod length (data rb))%nat.
    + rewrite Hnext. unfold last_n.
      assert (Hl : length (x :: t) = length (data rb))
        by (rewrite <- Hrot; apply length_rotate).
      rewrite length_app. cbn [length] in *.
      replace (S (length t) + 1 - Z.to_nat (capacity rb))%nat with 1%nat by lia.
      reflexivity.
    + unfold k. rewrite <- Hd.
      rewrite <- (Nat2Z.id (S (Z.to_nat (index rb)) mod length (data rb))).
      rewrite Nat2Z.inj_mod. f_equal. f_equal. lia.
Qed.




(** *** Maximum, minimum and percentile *)

(** The loop of [Max] and [Min] as a fold over the slice it visits. *)
Lemma scan_fold (better : float -> float -> bool) (d : list float) (n : nat) :
  forall (from : Z) (acc : float),
  0 <= from -> from + Z.of_nat n <= len d ->
  scan better d from n acc
  = Some (fold_left (fun acc x => if better x acc then x else acc)
            (take n (drop (Z.to_nat from) d)) acc).
Proof.
  induction n as [ | n IH]; intros from acc H0 Hn; [reflexivity | ].
  cbn [scan]. unfold Go.index.
  replace ((0 <=? from) && (from <? len d)) with true
    by (symmetry; apply andb_true_intro; split; [apply Z.leb_le | apply Z.ltb_lt]; lia).
  destruct (lookup_lt_is_Some_2 d (Z.to_nat from) ltac:(unfold len in Hn; lia)) as [x Hx].
  rewrite Hx, (drop_S d x _ Hx). cbn [take fold_left].
  rewrite IH by lia. replace (Z.to_nat (from + 1)) with (S (Z.to_nat from)) by lia.
  reflexivity.
Qed.

(** A fold that keeps the better of two values ends with a value that it
    has seen and that none of the values it has seen betters. *)
Lemma keep_best (better : float -> float -> bool) :
  (forall y, better y y = false) ->
  (forall x y acc, better x acc = false -> better y acc = true -> better x y = false) ->
  forall (l seen : list float) (acc : float),
  In acc seen -> (forall x, In x seen -> better x acc = false) ->
  let r := fold_left (fun acc x => if better x acc then x else acc) l acc in
  In r (seen ++ l) /\ forall x, In x (seen ++ l) -> better x r = false.
Proof.
  intros Hirr Hstep. induction l as [ | y l IH]; intros seen acc Hin Hbound.
  - cbn. rewrite app_nil_r. auto.
  - cbn [fold_left].
    replace (seen ++ y :: l) with ((seen ++ [y]) ++ l) by (rewrite <- app_assoc; reflexivity).
    apply IH.
    + apply in_or_app. destruct (better y acc); [right; left; reflexivity | left; assumption].
    + intros x Hx. apply in_app_or in Hx.
      destruct (better y acc) eqn:Hy.
      * destruct Hx as [Hx | [<- | []]]; [ | apply Hirr].
        apply (Hstep x y acc); [apply Hbound; assumption | assumption].
      * destruct Hx as [Hx | [<- | []]]; [apply Hbound; assumption | assumption].
Qed.

(** The value [Max] or [Min] returns on a buffer that is not empty. *)
Lemma extreme_of_region (better : float -> float -> bool) (rb : RingBuffer) :
  (forall y, better y y = false) ->
  (forall x y acc, better x acc = false -> better y acc = true -> better x y = false) ->
  wf rb -> 0 < size rb ->
  exists r,
    match Go.index (data rb) 0 with
    | None => None
    | Some d0 => scan better (data rb) 1 (Z.to_nat (size rb - 1)) d0
    end = Some r
    /\ In r (take (Z.to_nat (size rb)) (data rb))
    /\ forall x, In x (take (Z.to_nat (size rb)) (data rb)) -> better x r = false.
Proof.
  intros Hirr Hstep [Hc Hd Hi Hs] Hpos. unfold Go.index.
  replace ((0 <=? 0) && (0 <? len (data rb))) with true
    by (symmetry; apply andb_true_intro; split; [apply Z.leb_le | apply Z.ltb_lt]; lia).
  change (Z.to_nat 0) with 0%nat.
  destruct (data rb) as [ | d0 d] eqn:Hdata; [unfold len in Hd; cbn in Hd; lia | ].
  cbn [lookup list_lookup]. rewrite scan_fold by (unfold len in *; cbn [length] in *; lia).
  eexists. split; [reflexivity | ].
  change (Z.to_nat 1) with 1%nat. cbn [drop].
  replace (Z.to_nat (size rb)) with (S (Z.to_nat (size rb - 1))) by lia.
  cbn [take].
  apply (keep_best better Hirr Hstep (take (Z.to_nat (size rb - 1)) d) [d0] d0).
  - left. reflexivity.
  - intros x [<- | []]. apply Hirr.
Qed.

Lemma insert_float64_In (x y : float) (l : list float) :
  In x (insert_float64 y l) <-> x = y \/ In x l.
Proof.
  induction l as [ | z l IH]; cbn [insert_float64].
  - cbn. intuition congruence.
  - destruct (float64_less z y); cbn [In]; [rewrite IH | ]; intuition congruence.
Qed.

Lemma Float64s_In (x : float) (l : list float) : In x (Float64s l) <-> In x l.
Proof.
  unfold Float64s. induction l as [ | y l IH]; [reflexivity | ].
  cbn [fold_right]. rewrite insert_float64_In, IH. cbn [In]. intuition congruence.
Qed.

Lemma index_In {A} (l : list A) (i : Z) (x : A) : Go.index l i = Some x -> In x l.
Proof.
  unfold Go.index. destruct ((0 <=? i) && (i <? len l)); [ | discriminate].
  intros H. apply list_elem_of_In. apply (list_elem_of_lookup_2 _ _ _ H).
Qed.

(** X2.  On a buffer that is not empty [Max] and [Min] return one of the
    stored values; no stored value is greater than the one [Max] returns
    and none is less than the one [Min] returns. *)
Theorem X2_max_min_of_stored_values (rb : RingBuffer) :
  reachable rb -> 0 < size rb ->
  exists mx mn vs,
    Max rb = Some mx /\ Min rb = Some mn /\ Values rb = Some vs
    /\ In mx vs /\ In mn vs
    /\ (forall x, In x vs -> PrimFloat.ltb mx x = false)
    /\ (forall x, In x vs -> PrimFloat.ltb x mn = false).
Proof.
  intros Hreach Hpos. pose proof (reachable_wf rb Hreach) as Hwf.
  destruct (extreme_of_region (fun x acc => PrimFloat.ltb acc x) rb) as (mx & Hmx & Hin & Hb);
    [apply ltb_irrefl | | assumption | assumption | ].
  { intros x y acc Hx Hy. destruct (PrimFloat.ltb y x) eqn:Hyx; [ | reflexivity].
    rewrite (ltb_trans acc y x Hy Hyx) in Hx. discriminate. }
  destruct (extreme_of_region (fun x acc => PrimFloat.ltb x acc) rb) as (mn & Hmn & Hin' & Hb');
    [apply ltb_irrefl | | assumption | assumption | ].
  { intros x y acc Hx Hy. destruct (PrimFloat.ltb x y) eqn:Hxy; [ | reflexivity].
    rewrite (ltb_trans x y acc Hxy Hy) in Hx. discriminate. }
  exists mx, mn, (take (Z.to_nat (size rb)) (data rb)).
  unfold Max, Min, Values. destruct (Z.eqb_spec (size rb) 0); [lia | ].
  rewrite (live_wf rb Hwf). auto 10.
Qed.

(** X2 at the buffer that holds 3, 1 and 2. *)
Lemma X2_max_min_of_stored_values_witness :
  reachable small_buffer /\ 0 < size small_buffer
  /\ exists mx mn, Max small_buffer = Some mx /\ Min small_buffer = Some mn
       /\ PrimFloat.ltb mx 2 = false /\ PrimFloat.ltb 2 mn = false.
Proof.
  assert (Hreach : reachable small_buffer).
  { apply (reach_add 2%float
             {| data := [3%float; 1%float; 0%float; 0%float];
                capacity := 4; index := 2; size := 2 |}); [ | reflexivity].
    apply (reach_add 1%float
             {| data := [3%float; 0%float; 0%float; 0%float];
                capacity := 4; index := 1; size := 1 |}); [ | reflexivity].
    apply (reach_add 3%float
             {| data := [0%float; 0%float; 0%float; 0%float];
                capacity := 4; index := 0; size := 0 |}); [ | reflexivity].
    apply (reach_new 4); [lia | reflexivity]. }
  split; [exact Hreach | ]. split; [reflexivity | ].
  destruct (X2_max_min_of_stored_values small_buffer Hreach ltac:(reflexivity))
    as (mx & mn & vs & Hmx & Hmn & Hvs & _ & _ & Hhi & Hlo).
  injection Hvs as <-. exists mx, mn.
  split; [assumption | ]. split; [assumption | ].
  split; [apply Hhi | apply Hlo]; cbn; auto.
Defined.

(** X3.  On a buffer that is not empty, and for a percentage between 0 and
    100, [Percentile] returns one of the stored values; it is not greater
    than the value of [Max] and not less than the value of [Min]. *)
Theorem X3_percentile_is_a_stored_value (rb : RingBuffer) (p : float) :
  reachable rb -> is_percent p -> 0 < size rb ->
  exists v mx mn vs,
    Percentile p rb = Some v /\ Max rb = Some mx /\ Min rb = Some mn
    /\ Values rb = Some vs /\ In v vs
    /\ PrimFloat.ltb mx v = false /\ PrimFloat.ltb v mn = false.
Proof.
  intros Hreach Hp Hpos. pose proof (reachable_wf rb Hreach) as Hwf.
  destruct (Percentile_total p rb Hwf Hp) as [v Hv].
  assert (Hin : In v (take (Z.to_nat (size rb)) (data rb))).
  { revert Hv. unfold Percentile. destruct (Z.eqb_spec (size rb) 0); [lia | ].
    rewrite (live_wf rb Hwf). intros Hv. apply index_In in Hv.
    exact (proj1 (Float64s_In _ _) Hv). }
  destruct (extreme_of_region (fun x acc => PrimFloat.ltb acc x) rb) as (mx & Hmx & _ & Hb);
    [apply ltb_irrefl | | assumption | assumption | ].
  { intros x y acc Hx Hy. destruct (PrimFloat.ltb y x) eqn:Hyx; [ | reflexivity].
    rewrite (ltb_trans acc y x Hy Hyx) in Hx. discriminate. }
  destruct (extreme_of_region (fun x acc => PrimFloat.ltb x acc) rb) as (mn & Hmn & _ & Hb');
    [apply ltb_irrefl | | assumption | assumption | ].
  { intros x y acc Hx Hy. destruct (PrimFloat.ltb x y) eqn:Hxy; [ | reflexivity].
    rewrite (ltb_trans x y acc Hxy Hy) in Hx. discriminate. }
  exists v, mx, mn, (take (Z.to_nat (size rb)) (data rb)).
  unfold Max, Min, Values. destruct (Z.eqb_spec (size rb) 0); [lia | ].
  rewrite (live_wf rb Hwf). auto 10.
Qed.

Lemma small_buffer_reachable : reachable small_buffer.
Proof.
  apply (reach_add 2%float
           {| data := [3%float; 1%float; 0%float; 0%float];
              capacity := 4; index := 2; size := 2 |}); [ | reflexivity].
  apply (reach_add 1%float
           {| data := [3%float; 0%float; 0%float; 0%float];
              capacity := 4; index := 1; size := 1 |}); [ | reflexivity].
  apply (reach_add 3%float
           {| data := [0%float; 0%float; 0%float; 0%float];
              capacity := 4; index := 0; size := 0 |}); [ | reflexivity].
  apply (reach_new 4); [lia | reflexivity].
Qed.

(** X3 at the buffer that holds 3, 1 and 2, and p = 50. *)
Lemma X3_percentile_is_a_stored_value_witness :
  reachable small_buffer /\ is_percent 50 /\ 0 < size small_buffer
  /\ exists v, Percentile 50 small_buffer = Some v
       /\ In v [3%float; 1%float; 2%float].
Proof.
  split; [exact small_buffer_reachable | ]. split; [split; reflexivity | ].
  split; [reflexivity | ].
  destruct (X3_percentile_is_a_stored_value small_buffer 50 small_buffer_reachable
              ltac:(split; reflexivity) ltac:(reflexivity))
    as (v & mx & mn & vs & Hv & _ & _ & Hvs & Hin & _).
  injection Hvs as <-. exists v. split; [exact Hv | exact Hin].
Defined.

(** *** Reset *)

(** Two buffers agree when they have the same capacity, write position
    and size, and the same live region. *)
Definition agree (a b : RingBuffer) : Prop :=
  capacity a = capacity b /\ index a = index b /\ size a = size b
  /\ take (Z.to_nat (size a)) (data a) = take (Z.to_nat (size b)) (data b).

Lemma Add_fills (v : float) (rb rb' : RingBuffer) :
  wf rb -> fills_in_order rb -> 0 < capacity rb -> Add v rb = Some rb' ->
  fills_in_order rb'.
Proof. intros Hwf Hf Hc Ha. exact (proj1 (Add_window v rb rb' Hwf Hf Hc Ha)). Qed.

Lemma Add_agree (v : float) (a b : RingBuffer) :
  wf a -> wf b -> fills_in_order a -> 0 < capacity a -> agree a b ->
  exists a' b', Add v a = Some a' /\ Add v b = Some b' /\ agree a' b'.
Proof.
  intros Hwa Hwb Hfill Hpos (Hc & Hi & Hs & Hd).
  rewrite (Add_shape v a Hwa Hpos), (Add_shape v b Hwb ltac:(lia)).
  eexists _, _. split; [reflexivity | ]. split; [reflexivity | ].
  unfold agree. cbn [data capacity index size]. rewrite <- Hc, <- Hi, <- Hs.
  split; [reflexivity | ]. split; [reflexivity | ]. split; [reflexivity | ].
  destruct Hwa as [Hca Hda Hia Hsa], Hwb as [Hcb Hdb Hib Hsb]. unfold len in *.
  rewrite <- Hs in Hd.
  destruct (Z.ltb_spec (size a) (capacity a)) as [Hlt | Hfull].
  - rewrite (Hfill Hlt).
    replace (Z.to_nat (size a + 1)) with (S (Z.to_nat (size a))) by lia.
    rewrite !(take_S_r _ _ v) by (apply list_lookup_insert_eq; lia).
    rewrite !take_insert_ge by lia. rewrite Hd. reflexivity.
  - rewrite !take_ge in Hd by lia. rewrite !take_ge by (rewrite length_insert; lia).
    rewrite Hd. reflexivity.
Qed.

Lemma add_all_agree (l : list float) : forall (a b : RingBuffer),
  wf a -> wf b -> fills_in_order a -> 0 < capacity a -> agree a b ->
  exists a' b', add_all l a = Some a' /\ add_all l b = Some b'
                /\ wf a' /\ wf b' /\ agree a' b'.
Proof.
  induction l as [ | v l IH]; intros a b Hwa Hwb Hfill Hpos Hag.
  - exists a, b. auto.
  - destruct (Add_agree v a b Hwa Hwb Hfill Hpos Hag) as (a1 & b1 & Ha & Hb & Hag1).
    cbn [add_all]. rewrite Ha, Hb.
    apply IH; [exact (Add_wf v a a1 Hwa Ha) | exact (Add_wf v b b1 Hwb Hb)
              | exact (Add_fills v a a1 Hwa Hfill Hpos Ha)
              | rewrite (MetricsFacts.Add_capacity v a a1 Ha); exact Hpos
              | exact Hag1].
Qed.

Lemma sum_from_fold (d : list float) (n : nat) :
  forall (from : Z) (acc : float),
  0 <= from -> from + Z.of_nat n <= len d ->
  sum_from d from n acc
  = Some (fold_left PrimFloat.add (take n (drop (Z.to_nat from) d)) acc).
Proof.
  induction n as [ | n IH]; intros from acc H0 Hn; [reflexivity | ].
  cbn [sum_from]. unfold Go.index.
  replace ((0 <=? from) && (from <? len d)) with true
    by (symmetry; apply andb_true_intro; split; [apply Z.leb_le | apply Z.ltb_lt]; lia).
  destruct (lookup_lt_is_Some_2 d (Z.to_nat from) ltac:(unfold len in Hn; lia)) as [x Hx].
  rewrite Hx, (drop_S d x _ Hx). cbn [take fold_left].
  rewrite IH by lia. replace (Z.to_nat (from + 1)) with (S (Z.to_nat from)) by lia.
  reflexivity.
Qed.

(** The loops of [Max] and [Min] read the live region alone. *)
Lemma scan_region (better : float -> float -> bool) (rb : RingBuffer) :
  wf rb -> 0 < size rb ->
  match Go.index (data rb) 0 with
  | None => None
  | Some d0 => scan better (data rb) 1 (Z.to_nat (size rb - 1)) d0
  end
  = match take (Z.to_nat (size rb)) (data rb) with
    | [] => None
    | d0 :: t => Some (fold_left (fun acc x => if better x acc then x else acc) t d0)
    end.
Proof.
  intros [Hc Hd Hi Hs] Hpos. unfold Go.index.
  replace ((0 <=? 0) && (0 <? len (data rb))) with true
    by (symmetry; apply andb_true_intro; split; [apply Z.leb_le | apply Z.ltb_lt]; lia).
  change (Z.to_nat 0) with 0%nat.
  destruct (data rb) as [ | d0 d] eqn:Hdata; [unfold len in Hd; cbn in Hd; lia | ].
  cbn [lookup list_lookup]. rewrite scan_fold by (unfold len in *; cbn [length] in *; lia).
  change (Z.to_nat 1) with 1%nat. cbn [drop].
  replace (Z.to_nat (size rb)) with (S (Z.to_nat (size rb - 1))) by lia.
  reflexivity.
Qed.

Lemma agree_reads (a b : RingBuffer) : wf a -> wf b -> agree a b -> same_reads a b.
Proof.
  intros Hwa Hwb (Hc & Hi & Hs & Hd). unfold same_reads, Size, Values.
  rewrite (live_wf a Hwa), (live_wf b Hwb), Hd.
  split; [exact Hs | ]. split; [reflexivity | ]. split; [ | split; [ | split]].
  - intros p. unfold Percentile. rewrite (live_wf a Hwa), (live_wf b Hwb), Hd, Hs.
    reflexivity.
  - unfold Max. destruct (Z.eqb_spec (size a) 0), (Z.eqb_spec (size b) 0);
      try lia; [reflexivity | ].
    assert (Hpos : 0 < size a) by (destruct Hwa; lia).
    rewrite (scan_region _ a Hwa Hpos), (scan_region _ b Hwb ltac:(lia)), Hd.
    reflexivity.
  - unfold Min. destruct (Z.eqb_spec (size a) 0), (Z.eqb_spec (size b) 0);
      try lia; [reflexivity | ].
    assert (Hpos : 0 < size a) by (destruct Hwa; lia).
    rewrite (scan_region _ a Hwa Hpos), (scan_region _ b Hwb ltac:(lia)), Hd.
    reflexivity.
  - unfold Average. destruct (Z.eqb_spec (size a) 0), (Z.eqb_spec (size b) 0);
      try lia; [reflexivity | ].
    destruct Hwa as [Hca Hda Hia Hsa], Hwb as [Hcb Hdb Hib Hsb].
    rewrite !sum_from_fold by lia. change (Z.to_nat 0) with 0%nat.
    rewrite !drop_0, Hd, Hs. reflexivity.
Qed.

(** X4.  [Reset] forgets every value: whatever is added after it, the
    reads of the buffer are those of a new buffer of the same capacity to
    which the same values were added. *)
Theorem X4_reset_is_as_new (rb : RingBuffer) (l : list float) :
  reachable rb -> 0 < capacity rb ->
  exists fresh after after',
    NewRingBuffer (capacity rb) = Some fresh
    /\ add_all l (Reset rb) = Some after
    /\ add_all l fresh = Some after'
    /\ same_reads after after'.
Proof.
  intros Hreach Hpos. pose proof (reachable_wf rb Hreach) as Hwf.
  assert (Hnew : NewRingBuffer (capacity rb)
                 = Some {| data := replicate (Z.to_nat (capacity rb)) 0%float;
                           capacity := capacity rb; index := 0; size := 0 |}).
  { unfold NewRingBuffer. destruct (Z.ltb_spec (capacity rb) 0); [lia | reflexivity]. }
  assert (Hcap : capacity rb < 2 ^ 53) by (destruct Hwf; lia).
  pose proof (NewRingBuffer_wf (capacity rb) _ Hcap Hnew) as Hwf0.
  destruct (add_all_agree l (Reset rb) _ (Reset_wf rb Hwf) Hwf0)
    as (a' & b' & Ha & Hb & Hwa & Hwb & Hag).
  - intros _. reflexivity.
  - exact Hpos.
  - repeat split.
  - eexists _, a', b'. split; [exact Hnew | ]. split; [exact Ha | ].
    split; [exact Hb | ]. exact (agree_reads a' b' Hwa Hwb Hag).
Qed.

(** X4 at the buffer that holds 3, 1 and 2, reset and given 5: it reads as
    a buffer that holds 5 alone. *)
Lemma X4_reset_is_as_new_witness :
  reachable small_buffer /\ 0 < capacity small_buffer
  /\ exists after, add_all [5%float] (Reset small_buffer) = Some after
       /\ Values after = Some [5%float] /\ Max after = Some 5%float.
Proof.
  split; [exact small_buffer_reachable | ]. split; [reflexivity | ].
  destruct (X4_reset_is_as_new small_buffer [5%float] small_buffer_reachable
              ltac:(reflexivity))
    as (fresh & after & after' & Hnew & Ha & Hb & Hsz & Hvals & _ & Hmax & _).
  exists after. split; [exact Ha | ].
  injection Hnew as <-. injection Hb as <-.
  split; [rewrite Hvals | rewrite Hmax]; reflexivity.
Defined.

End BufferFacts.

(** ** The error counters of an endpoint *)

Module ErrorKindFacts.

Import Go metrics FloatFacts RingBufferFacts MetricsFacts.

(** *** The error counters *)

(** The error counters add up to [Failed], on [int64]. *)
Definition kinds_balanced (em : EndpointMetrics) : Prop :=
  wrap64 (TimeoutErrors em + DNSErrors em + ConnectionErrors em + HTTPErrors em
          + OtherErrors em) = Failed em.

(** The same on the integers, while at most [k] operations were applied. *)
Definition kinds_counted (k : Z) (em : EndpointMetrics) : Prop :=
  0 <= TimeoutErrors em /\ 0 <= DNSErrors em /\ 0 <= ConnectionErrors em
  /\ 0 <= HTTPErrors em /\ 0 <= OtherErrors em
  /\ TimeoutErrors em + DNSErrors em + ConnectionErrors em + HTTPErrors em
     + OtherErrors em = Failed em
  /\ Failed em <= k.

Lemma apply_op_kinds_balanced (o : op) (em em' : EndpointMetrics) :
  kinds_balanced em -> apply_op o em = Some em' -> kinds_balanced em'.
Proof.
  unfold kinds_balanced. intros Hsum.
  destruct o as [t d c sc now | t d c sc ty msg | ]; cbn [apply_op].
  - unfold RecordSuccess.
    destruct (Add t (ResponseTimes em)); [ | discriminate].
    destruct (add_dns d (DNSTimes em)); [ | discriminate].
    intros [= <-]. exact Hsum.
  - unfold RecordFailure.
    destruct (Add t (ResponseTimes em)); [ | discriminate].
    destruct (add_dns d (DNSTimes em)); [ | discriminate].
    intros [= <-]. cbn. rewrite <- Hsum, wrap64_idem_l.
    set (T := TimeoutErrors em). set (D := DNSErrors em).
    set (C := ConnectionErrors em). set (H := HTTPErrors em). set (O := OtherErrors em).
    destruct (String.eqb_spec ty "timeout") as [-> | ?];
      [cbn; replace (wrap64 (T + 1) + D + C + H + O) with (wrap64 (T + 1) + (D + C + H + O))
              by lia; rewrite wrap64_idem_l; f_equal; lia | ].
    destruct (String.eqb_spec ty "dns") as [-> | ?];
      [cbn; replace (T + wrap64 (D + 1) + C + H + O) with (wrap64 (D + 1) + (T + C + H + O))
              by lia; rewrite wrap64_idem_l; f_equal; lia | ].
    destruct (String.eqb_spec ty "connection") as [-> | ?];
      [cbn; replace (T + D + wrap64 (C + 1) + H + O) with (wrap64 (C + 1) + (T + D + H + O))
              by lia; rewrite wrap64_idem_l; f_equal; lia | ].
    destruct (String.eqb_spec ty "http") as [-> | ?];
      [cbn; replace (T + D + C + wrap64 (H + 1) + O) with (wrap64 (H + 1) + (T + D + C + O))
              by lia; rewrite wrap64_idem_l; f_equal; lia | ].
    cbn. replace (T + D + C + H + wrap64 (O + 1)) with (wrap64 (O + 1) + (T + D + C + H))
      by lia. rewrite wrap64_idem_l. f_equal. lia.
  - intros [= <-]. reflexivity.
Qed.

Lemma apply_op_kinds_counted (k : Z) (o : op) (em em' : EndpointMetrics) :
  kinds_counted k em -> k + 1 < 2 ^ 63 -> apply_op o em = Some em' ->
  kinds_counted (k + 1) em'.
Proof.
  intros (HT & HD & HC & HH & HO & Hsum & Hk) Hbound.
  assert (Hw : forall z, 0 <= z <= k -> wrap64 (z + 1) = z + 1).
  { intros z Hz. apply wrap64_small. unfold in_int64, min_int64, max_int64. lia. }
  destruct o as [t d c sc now | t d c sc ty msg | ]; cbn [apply_op].
  - unfold RecordSuccess.
    destruct (Add t (ResponseTimes em)); [ | discriminate].
    destruct (add_dns d (DNSTimes em)); [ | discriminate].
    intros [= <-]. unfold kinds_counted. cbn. lia.
  - unfold RecordFailure.
    destruct (Add t (ResponseTimes em)); [ | discriminate].
    destruct (add_dns d (DNSTimes em)); [ | discriminate].
    intros [= <-]. unfold kinds_counted. cbn.
    destruct (String.eqb_spec ty "timeout") as [-> | ?]; [cbn; rewrite !Hw by lia; lia | ].
    destruct (String.eqb_spec ty "dns") as [-> | ?]; [cbn; rewrite !Hw by lia; lia | ].
    destruct (String.eqb_spec ty "connection") as [-> | ?]; [cbn; rewrite !Hw by lia; lia | ].
    destruct (String.eqb_spec ty "http") as [-> | ?]; [cbn; rewrite !Hw by lia; lia | ].
    cbn. rewrite !Hw by lia. lia.
  - intros [= <-]. unfold kinds_counted. cbn. lia.
Qed.

Lemma run_kinds_balanced (ops : list op) : forall (em em' : EndpointMetrics),
  kinds_balanced em -> run ops em = Some em' -> kinds_balanced em'.
Proof.
  induction ops as [ | o ops IH]; intros em em' Hb; cbn [run].
  - intros [= <-]. assumption.
  - destruct (apply_op o em) as [em1 | ] eqn:Hop; [ | discriminate].
    apply IH. exact (apply_op_kinds_balanced o em em1 Hb Hop).
Qed.

Lemma run_kinds_counted (ops : list op) : forall (em em' : EndpointMetrics) (k : Z),
  kinds_counted k em -> k + len ops < 2 ^ 63 -> run ops em = Some em' ->
  kinds_counted (k + len ops) em'.
Proof.
  induction ops as [ | o ops IH]; intros em em' k Hc Hk; cbn [run].
  - intros [= <-]. unfold len. cbn [length]. replace (k + Z.of_nat 0) with k by lia.
    assumption.
  - assert (Hlen : len (o :: ops) = 1 + len ops) by (unfold len; cbn [length]; lia).
    rewrite Hlen in *. assert (0 <= len ops) by (unfold len; lia).
    destruct (apply_op o em) as [em1 | ] eqn:Hop; [ | discriminate].
    intros Hrun. replace (k + (1 + len ops)) with (k + 1 + len ops) by lia.
    apply (IH em1 em' (k + 1)); [ | lia | assumption].
    apply (apply_op_kinds_counted k o em em1); [assumption | lia | assumption].
Qed.

(** [GetStats] copies the error counters. *)
Lemma GetStats_kinds (em : EndpointMetrics) :
  balanced em ->
  exists snap, GetStats em = Some snap
    /\ snap_TimeoutErrors snap = TimeoutErrors em
    /\ snap_DNSErrors snap = DNSErrors em
    /\ snap_ConnectionErrors snap = ConnectionErrors em
    /\ snap_HTTPErrors snap = HTTPErrors em
    /\ snap_OtherErrors snap = OtherErrors em
    /\ snap_Failed snap = Failed em.
Proof.
  intros ([Hrt _] & [Hdt _] & _). unfold GetStats.
  destruct (Percentile_total 95 _ Hrt percent_95) as [p95 ->].
  destruct (Percentile_total 99 _ Hrt percent_99) as [p99 ->].
  destruct (Max_total _ Hrt) as [mx ->].
  destruct (Percentile_total 95 _ Hdt percent_95) as [d95 ->].
  eexists. split; [reflexivity | ]. cbn. auto 10.
Qed.

Lemma error_kinds64_sum (t d c h o : Z) :
  error_kinds64 t d c h o = wrap64 (t + d + c + h + o).
Proof.
  unfold error_kinds64, add64. rewrite wrap64_idem_l.
  replace (wrap64 (wrap64 (t + d) + c) + h + o)
    with (wrap64 (wrap64 (t + d) + c) + (h + o)) by lia.
  rewrite wrap64_idem_l.
  replace (wrap64 (t + d) + c + (h + o)) with (wrap64 (t + d) + (c + (h + o))) by lia.
  rewrite wrap64_idem_l. f_equal. lia.
Qed.

(** X5.  In every snapshot of a record that was built from a new one by
    [RecordSuccess], [RecordFailure] and [Reset], the five error counters
    add up to [failed]: as Go adds them on [int64], and on the integers
    while fewer than [2^63] operations were applied. *)
Theorem X5_error_kinds_add_up_to_failed
    (urlPattern hostname : string) (ops : list op) :
  exists em0 em snap,
    NewEndpointMetrics urlPattern hostname = Some em0
    /\ run ops em0 = Some em
    /\ GetStats em = Some snap
    /\ error_kinds64 (snap_TimeoutErrors snap) (snap_DNSErrors snap)
         (snap_ConnectionErrors snap) (snap_HTTPErrors snap) (snap_OtherErrors snap)
       = snap_Failed snap
    /\ (len ops < 2 ^ 63 ->
        snap_TimeoutErrors snap + snap_DNSErrors snap + snap_ConnectionErrors snap
        + snap_HTTPErrors snap + snap_OtherErrors snap = snap_Failed snap).
Proof.
  destruct (NewEndpointMetrics_balanced urlPattern hostname) as (em0 & Hnew & Hb0 & _).
  destruct (run_balanced ops em0 Hb0) as (em & Hrun & Hb).
  assert (Hk0 : kinds_balanced em0 /\ kinds_counted 0 em0).
  { revert Hnew. unfold NewEndpointMetrics.
    destruct (NewRingBuffer 1000); [ | discriminate]. intros [= <-].
    unfold kinds_balanced, kinds_counted. cbn. split; [reflexivity | lia]. }
  destruct Hk0 as [Hkb0 Hkc0].
  pose proof (run_kinds_balanced ops em0 em Hkb0 Hrun) as Hkb.
  destruct (GetStats_kinds em Hb) as (snap & Hsnap & HT & HD & HC & HH & HO & HF).
  exists em0, em, snap. rewrite HT, HD, HC, HH, HO, HF.
  split; [exact Hnew | ]. split; [exact Hrun | ]. split; [exact Hsnap | ]. split.
  - rewrite error_kinds64_sum. exact Hkb.
  - intros Hlen.
    pose proof (run_kinds_counted ops em0 em 0 Hkc0 ltac:(lia) Hrun) as Hc.
    unfold kinds_counted in Hc. lia.
Qed.

End ErrorKindFacts.

(** ** The collector of request results *)

Module CollectorFacts.

Import Go metrics collector FloatFacts RingBufferFacts MetricsFacts.

(** *** Sums over a map *)

Lemma total_insert_new {K} `{Countable K} {A} (f : A -> Z) (m : gmap K A) (k : K) (v : A) :
  m !! k = None -> total f (<[k := v]> m) = f v + total f m.
Proof.
  intros Hk. unfold total. apply (map_fold_insert_L (fun _ x acc => f x + acc)); [ | exact Hk].
  intros. lia.
Qed.

Lemma total_insert {K} `{Countable K} {A} (f : A -> Z) (m : gmap K A) (k : K) (v : A) :
  total f (<[k := v]> m) = f v + total f (delete k m).
Proof.
  rewrite <- (insert_delete_eq m). apply total_insert_new. apply lookup_delete_eq.
Qed.

Lemma total_lookup {K} `{Countable K} {A} (f : A -> Z) (m : gmap K A) (k : K) (v : A) :
  m !! k = Some v -> total f m = f v + total f (delete k m).
Proof.
  intros Hk. rewrite <- (insert_id m k v Hk) at 1. apply total_insert.
Qed.

Lemma total_absent {K} `{Countable K} {A} (f : A -> Z) (m : gmap K A) (k : K) :
  m !! k = None -> total f (delete k m) = total f m.
Proof. intros Hk. rewrite delete_id by exact Hk. reflexivity. Qed.

Lemma total_empty {K} `{Countable K} {A} (f : A -> Z) : total f (∅ : gmap K A) = 0.
Proof. unfold total. apply map_fold_empty. Qed.

(** *** The collector of request results *)

(** What [Record] relies on: the records of the endpoints are balanced
    and the buffers of the domains accept values. *)
Definition sound (c : Collector) : Prop :=
  (forall name em, endpoints c !! name = Some em -> balanced em)
  /\ (forall host d, domains c !! host = Some d -> usable (domain.DNSTimes d)).

Lemma domain_of_usable (hostname : string) (ds : gmap string domain.DomainMetrics) :
  (forall host d, ds !! host = Some d -> usable (domain.DNSTimes d)) ->
  exists d, domain_of hostname ds = Some d /\ usable (domain.DNSTimes d).
Proof.
  intros Hds. unfold domain_of. destruct (ds !! hostname) as [d | ] eqn:Hd; [eauto | ].
  unfold domain.NewDomainMetrics.
  destruct (NewRingBuffer 1000) as [dt | ] eqn:Hnew; [ | discriminate].
  eexists. split; [reflexivity | ]. exact (NewRingBuffer_usable dt Hnew).
Qed.

Lemma record_domain_sound (result : client.RequestResult)
    (ds : gmap string domain.DomainMetrics) :
  (forall host d, ds !! host = Some d -> usable (domain.DNSTimes d)) ->
  exists ds', record_domain result ds = Some ds'
    /\ forall host d, ds' !! host = Some d -> usable (domain.DNSTimes d).
Proof.
  intros Hds. unfold record_domain.
  destruct (negb (config.is_empty (client.Hostname result))); [ | eauto].
  destruct (PrimFloat.ltb 0 (client.DNSTimeMs result)
            && negb (String.eqb (client.ErrorType result) "dns")).
  - destruct (domain_of_usable (client.Hostname result) ds Hds) as (d & -> & Hu).
    unfold domain.RecordSuccess.
    destruct (Add_usable (client.DNSTimeMs result) _ Hu) as (dt & -> & Hu').
    eexists. split; [reflexivity | ]. intros host d' Hlook.
    apply lookup_insert_Some in Hlook. destruct Hlook as [[_ <-] | [_ Hlook]]; [exact Hu' | eauto].
  - destruct (String.eqb (client.ErrorType result) "dns"); [ | eauto].
    destruct (domain_of_usable (client.Hostname result) ds Hds) as (d & -> & Hu).
    eexists. split; [reflexivity | ]. intros host d' Hlook.
    apply lookup_insert_Some in Hlook. destruct Hlook as [[_ <-] | [_ Hlook]]; [exact Hu | eauto].
Qed.

(** The record a result is entered in. *)
Definition target (result : client.RequestResult) (c : Collector) : option EndpointMetrics :=
  match endpoints c !! client.EndpointName result with
  | Some ep => Some ep
  | None => NewEndpointMetrics (client.URL result) (client.Hostname result)
  end.

(** The operation on that record. *)
Definition entry (result : client.RequestResult) (now : Z) : metrics.op :=
  if client.Success result then
    OpSuccess (client.TotalTimeMs result) (client.DNSTimeMs result)
      (client.ConnectTimeMs result) (client.StatusCode result) now
  else
    OpFailure (client.TotalTimeMs result) (client.DNSTimeMs result)
      (client.ConnectTimeMs result) (client.StatusCode result)
      (client.ErrorType result) (client.Error result).

Lemma Record_unfold (result : client.RequestResult) (now : Z) (c : Collector) :
  collector.Record result now c
  = match target result c with
    | None => None
    | Some ep =>
        match metrics.apply_op (entry result now) ep, record_domain result (domains c) with
        | Some ep', Some domains' =>
            Some {| startTime := startTime c;
                    totalRequests := wrap64 (totalRequests c + 1);
                    totalSuccesses := if client.Success result
                                      then wrap64 (totalSuccesses c + 1)
                                      else totalSuccesses c;
                    totalFailures := if client.Success result then totalFailures c
                                     else wrap64 (totalFailures c + 1);
                    endpoints := <[client.EndpointName result := ep']> (endpoints c);
                    domains := domains' |}
        | _, _ => None
        end
    end.
Proof.
  unfold Record, target, entry. destruct (client.Success result); reflexivity.
Qed.

Lemma target_balanced (result : client.RequestResult) (c : Collector) :
  sound c -> exists ep, target result c = Some ep /\ balanced ep.
Proof.
  intros [Hep _]. unfold target.
  destruct (endpoints c !! client.EndpointName result) as [ep | ] eqn:Hlook; [eauto | ].
  destruct (NewEndpointMetrics_balanced (client.URL result) (client.Hostname result))
    as (ep & Hnew & Hb & _). eauto.
Qed.

Lemma apply_op_sound (o : op) (c : Collector) :
  sound c -> exists c', apply_op o c = Some c' /\ sound c'.
Proof.
  intros Hs. destruct o as [result now | now]; cbn [apply_op].
  - rewrite Record_unfold.
    destruct (target_balanced result c Hs) as (ep & -> & Hb).
    destruct (apply_op_balanced (entry result now) ep Hb) as (ep' & -> & Hb').
    destruct Hs as [Hep Hds].
    destruct (record_domain_sound result (domains c) Hds) as (ds' & -> & Hds').
    eexists. split; [reflexivity | ]. split; cbn [endpoints domains]; [ | exact Hds'].
    intros name em Hlook. apply lookup_insert_Some in Hlook.
    destruct Hlook as [[_ <-] | [_ Hlook]]; [exact Hb' | eauto].
  - eexists. split; [reflexivity | ]. split; cbn; intros ? ? H; rewrite lookup_empty in H;
      discriminate.
Qed.

Lemma run_sound (ops : list op) : forall (c : Collector),
  sound c -> exists c', run ops c = Some c' /\ sound c'.
Proof.
  induction ops as [ | o ops IH]; intros c Hs; cbn [run]; [eauto | ].
  destruct (apply_op_sound o c Hs) as (c1 & -> & Hs1). exact (IH c1 Hs1).
Qed.

(** The counters of the collector and of its records, on the integers,
    while at most [k] results were recorded. *)
Definition tallied (k : Z) (c : Collector) : Prop :=
  0 <= totalSuccesses c /\ 0 <= totalFailures c
  /\ totalSuccesses c + totalFailures c = totalRequests c
  /\ totalRequests c <= k
  /\ (forall name em, endpoints c !! name = Some em -> counted k em)
  /\ total TotalRequests (endpoints c) = totalRequests c
  /\ total Successful (endpoints c) = totalSuccesses c
  /\ total Failed (endpoints c) = totalFailures c.

Lemma counted_mono (k k' : Z) (em : EndpointMetrics) :
  k <= k' -> counted k em -> counted k' em.
Proof. unfold counted. intros Hk (? & ? & ? & ?). repeat split; try assumption; lia. Qed.

Lemma entry_counts (k : Z) (result : client.RequestResult) (now : Z)
    (em em' : EndpointMetrics) :
  counted k em -> k + 1 < 2 ^ 63 ->
  metrics.apply_op (entry result now) em = Some em' ->
  TotalRequests em' = TotalRequests em + 1
  /\ Successful em' = Successful em + (if client.Success result then 1 else 0)
  /\ Failed em' = Failed em + (if client.Success result then 0 else 1).
Proof.
  intros (HS & HF & Hsum & Hk) Hbound.
  assert (Hw : forall z, 0 <= z <= k -> wrap64 (z + 1) = z + 1).
  { intros z Hz. apply wrap64_small. unfold in_int64, min_int64, max_int64. lia. }
  unfold entry. destruct (client.Success result); cbn [metrics.apply_op].
  - unfold RecordSuccess.
    destruct (Add _ (ResponseTimes em)); [ | discriminate].
    destruct (add_dns _ (DNSTimes em)); [ | discriminate].
    intros [= <-]. cbn. rewrite !Hw by lia. lia.
  - unfold RecordFailure.
    destruct (Add _ (ResponseTimes em)); [ | discriminate].
    destruct (add_dns _ (DNSTimes em)); [ | discriminate].
    intros [= <-]. cbn. rewrite !Hw by lia. lia.
Qed.

Lemma target_counts (k : Z) (result : client.RequestResult) (c : Collector)
    (ep : EndpointMetrics) :
  tallied k c -> target result c = Some ep ->
  counted k ep
  /\ forall f : EndpointMetrics -> Z,
       f = TotalRequests \/ f = Successful \/ f = Failed ->
       total f (endpoints c)
       = f ep + total f (delete (client.EndpointName result) (endpoints c)).
Proof.
  intros (HS & HF & Hsum & Hk & Heps & _) Ht. unfold target in Ht.
  destruct (endpoints c !! client.EndpointName result) as [ep0 | ] eqn:Hlook.
  - injection Ht as <-. split; [eauto | ]. intros f _. apply total_lookup. exact Hlook.
  - destruct (NewEndpointMetrics_balanced (client.URL result) (client.Hostname result))
      as (ep1 & Hnew & _ & Hc0). rewrite Hnew in Ht. injection Ht as <-.
    split; [apply (counted_mono 0); [lia | exact Hc0] | ].
    intros f Hf. rewrite total_absent by exact Hlook.
    revert Hnew. unfold NewEndpointMetrics.
    destruct (NewRingBuffer 1000); [ | discriminate]. intros [= <-].
    destruct Hf as [-> | [-> | ->]]; cbn; lia.
Qed.

Lemma apply_op_tallied (k : Z) (o : op) (c c' : Collector) :
  tallied k c -> k + 1 < 2 ^ 63 -> apply_op o c = Some c' -> tallied (k + 1) c'.
Proof.
  intros Ht Hbound. destruct o as [result now | now]; cbn [apply_op].
  - rewrite Record_unfold. destruct (target result c) as [ep | ] eqn:Htarget; [ | discriminate].
    destruct (target_counts k result c ep Ht Htarget) as [Hc Htot].
    destruct (metrics.apply_op (entry result now) ep) as [ep' | ] eqn:Hop; [ | discriminate].
    destruct (record_domain result (domains c)) as [ds' | ]; [ | discriminate].
    intros [= <-].
    destruct (entry_counts k result now ep ep' Hc Hbound Hop) as (HT' & HS' & HF').
    pose proof (apply_op_counted k _ ep ep' Hc Hbound Hop) as Hc'.
    destruct Ht as (HS & HF & Hsum & Hk & Heps & HtT & HtS & HtF).
    assert (Hw : forall z, 0 <= z <= k -> wrap64 (z + 1) = z + 1).
    { intros z Hz. apply wrap64_small. unfold in_int64, min_int64, max_int64. lia. }
    unfold tallied. cbn [totalRequests totalSuccesses totalFailures endpoints].
    rewrite !total_insert, HT', HS', HF'.
    rewrite (Htot TotalRequests) in HtT by auto.
    rewrite (Htot Successful) in HtS by auto.
    rewrite (Htot Failed) in HtF by auto.
    rewrite (Hw (totalRequests c)) by lia.
    destruct (client.Success result).
    + rewrite (Hw (totalSuccesses c)) by lia.
      do 4 (split; [lia | ]). split; [ | lia].
      intros name em Hlook. apply lookup_insert_Some in Hlook.
      destruct Hlook as [[_ <-] | [_ Hlook]]; [exact Hc' | ].
      apply (counted_mono k); [lia | eauto].
    + rewrite (Hw (totalFailures c)) by lia.
      do 4 (split; [lia | ]). split; [ | lia].
      intros name em Hlook. apply lookup_insert_Some in Hlook.
      destruct Hlook as [[_ <-] | [_ Hlook]]; [exact Hc' | ].
      apply (counted_mono k); [lia | eauto].
  - intros [= <-]. destruct Ht as (HS & HF & Hsum & Hk & _).
    unfold tallied. cbn. rewrite !total_empty.
    do 4 (split; [lia | ]). split; [ | lia].
    intros ? ? H. rewrite lookup_empty in H. discriminate.
Qed.

Lemma run_tallied (ops : list op) : forall (c c' : Collector) (k : Z),
  tallied k c -> k + len ops < 2 ^ 63 -> run ops c = Some c' ->
  tallied (k + len ops) c'.
Proof.
  induction ops as [ | o ops IH]; intros c c' k Ht Hk; cbn [run].
  - intros [= <-]. unfold len. cbn [length]. replace (k + Z.of_nat 0) with k by lia.
    assumption.
  - assert (Hlen : len (o :: ops) = 1 + len ops) by (unfold len; cbn [length]; lia).
    rewrite Hlen in *. assert (0 <= len ops) by (unfold len; lia).
    destruct (apply_op o c) as [c1 | ] eqn:Hop; [ | discriminate].
    intros Hrun. replace (k + (1 + len ops)) with (k + 1 + len ops) by lia.
    apply (IH c1 c' (k + 1)); [ | lia | assumption].
    apply (apply_op_tallied k o c c1); [assumption | lia | assumption].
Qed.

(** X6.  Every sequence of [Record] and [Reset] on a new collector runs to
    completion; while fewer than [2^63] results were recorded, the
    successes and the failures of the collector add up to its total, and
    each of the three counters is the sum of the same counter over the
    records of the endpoints. *)
Theorem X6_collector_totals_are_sums (now : Z) (ops : list op) :
  exists c,
    run ops (NewCollector now) = Some c
    /\ (len ops < 2 ^ 63 ->
        totalSuccesses c + totalFailures c = totalRequests c
        /\ total TotalRequests (endpoints c) = totalRequests c
        /\ total Successful (endpoints c) = totalSuccesses c
        /\ total Failed (endpoints c) = totalFailures c).
Proof.
  assert (Hs0 : sound (NewCollector now)).
  { split; cbn; intros ? ? H; rewrite lookup_empty in H; discriminate. }
  assert (Ht0 : tallied 0 (NewCollector now)).
  { unfold tallied. cbn. rewrite !total_empty.
    do 4 (split; [lia | ]). split; [ | lia].
    intros ? ? H. rewrite lookup_empty in H. discriminate. }
  destruct (run_sound ops _ Hs0) as (c & Hrun & _).
  exists c. split; [exact Hrun | ]. intros Hlen.
  pose proof (run_tallied ops _ c 0 Ht0 ltac:(lia) Hrun) as Ht.
  unfold tallied in Ht. intuition lia.
Qed.

End CollectorFacts.

(** ** The metrics of the incoming routes *)

Module IncomingFacts.

Import Go metrics collector incoming FloatFacts RingBufferFacts MetricsFacts CollectorFacts.

(** *** The metrics of the incoming routes *)

(** The counts by status of a route add up to its total, on the integers,
    while at most [k] requests were recorded. *)
Definition route_tallied (k : Z) (m : IncomingRouteMetrics) : Prop :=
  (forall status n, ResponsesByStatus m !! status = Some n -> 0 <= n)
  /\ total id (ResponsesByStatus m) = TotalRequests m
  /\ 0 <= TotalRequests m <= k.

Definition routes_sound (c : IncomingCollector) : Prop :=
  forall name m, routes c !! name = Some m -> usable (ResponseTimes m).

Definition routes_tallied (k : Z) (c : IncomingCollector) : Prop :=
  (forall name m, routes c !! name = Some m -> route_tallied k m)
  /\ total TotalRequests (routes c) = totalRequests c
  /\ 0 <= totalRequests c <= k.

Lemma total_nonneg {K} `{Countable K} {A} (f : A -> Z) (m : gmap K A) :
  (forall k v, m !! k = Some v -> 0 <= f v) -> 0 <= total f m.
Proof.
  unfold total. apply (map_fold_weak_ind (fun r m => (forall k v, m !! k = Some v -> 0 <= f v) -> 0 <= r)).
  - intros _. lia.
  - intros k v m' r Hk IH Hall.
    assert (0 <= f v) by (apply (Hall k); apply lookup_insert_eq).
    assert (0 <= r).
    { apply IH. intros k' v' Hk'. apply (Hall k'). rewrite lookup_insert_ne; [exact Hk' | ].
      intros ->. rewrite Hk in Hk'. discriminate. }
    lia.
Qed.

Lemma count_status_total (k : Z) (statusCode : Z) (byStatus : gmap Z Z) :
  (forall status n, byStatus !! status = Some n -> 0 <= n) ->
  total id byStatus <= k -> k + 1 < 2 ^ 63 ->
  (forall status n, count_status statusCode byStatus !! status = Some n -> 0 <= n)
  /\ total id (count_status statusCode byStatus) = total id byStatus + 1.
Proof.
  intros Hnn Hk Hbound. unfold count_status.
  assert (Hrest : 0 <= total id (delete statusCode byStatus)).
  { apply total_nonneg. intros s n Hs. apply lookup_delete_Some in Hs. unfold id.
    destruct Hs as [_ Hs]. eauto. }
  assert (Hold : total id byStatus
                 = default 0 (byStatus !! statusCode) + total id (delete statusCode byStatus)
                 /\ 0 <= default 0 (byStatus !! statusCode)).
  { destruct (byStatus !! statusCode) as [n | ] eqn:Hn; cbn [default].
    - split; [exact (total_lookup id byStatus statusCode n Hn) | eauto].
    - split; [rewrite total_absent by exact Hn | ]; lia. }
  destruct Hold as [Hold Hn0].
  rewrite wrap64_small by (unfold in_int64, min_int64, max_int64; lia).
  split.
  - intros s n Hs. apply lookup_insert_Some in Hs.
    destruct Hs as [[_ <-] | [_ Hs]]; [lia | eauto].
  - rewrite total_insert. unfold id at 1. lia.
Qed.

Lemma apply_op_routes_sound (o : incoming.op) (c : IncomingCollector) :
  routes_sound c -> exists c', incoming.apply_op o c = Some c' /\ routes_sound c'.
Proof.
  intros Hs. destruct o as [routeName routePath statusCode ms now | now];
    cbn [incoming.apply_op].
  - unfold incoming.Record.
    assert (Hroute : exists route,
               match routes c !! routeName with
               | Some route => Some route
               | None => NewIncomingRouteMetrics routeName routePath
               end = Some route /\ usable (ResponseTimes route)).
    { destruct (routes c !! routeName) as [route | ] eqn:Hlook; [eauto | ].
      unfold NewIncomingRouteMetrics.
      destruct (NewRingBuffer 1000) as [rt | ] eqn:Hnew; [ | discriminate].
      eexists. split; [reflexivity | ]. exact (NewRingBuffer_usable rt Hnew). }
    destruct Hroute as (route & -> & Hu). unfold RecordRoute.
    destruct (Add_usable ms _ Hu) as (rt & -> & Hu').
    eexists. split; [reflexivity | ]. intros name m Hlook. cbn [routes] in Hlook.
    apply lookup_insert_Some in Hlook. destruct Hlook as [[_ <-] | [_ Hlook]]; [exact Hu' | eauto].
  - eexists. split; [reflexivity | ]. intros ? ? H. cbn in H. rewrite lookup_empty in H.
    discriminate.
Qed.

Lemma run_routes_sound (ops : list incoming.op) : forall (c : IncomingCollector),
  routes_sound c -> exists c', incoming.run ops c = Some c' /\ routes_sound c'.
Proof.
  induction ops as [ | o ops IH]; intros c Hs; cbn [incoming.run]; [eauto | ].
  destruct (apply_op_routes_sound o c Hs) as (c1 & -> & Hs1). exact (IH c1 Hs1).
Qed.

Lemma route_tallied_mono (k k' : Z) (m : IncomingRouteMetrics) :
  k <= k' -> route_tallied k m -> route_tallied k' m.
Proof. unfold route_tallied. intros Hk (? & ? & ?). split; [assumption | ]. split; [assumption | lia]. Qed.

Lemma apply_op_routes_tallied (k : Z) (o : incoming.op) (c c' : IncomingCollector) :
  routes_tallied k c -> k + 1 < 2 ^ 63 -> incoming.apply_op o c = Some c' ->
  routes_tallied (k + 1) c'.
Proof.
  intros (Hroutes & Htot & Hk) Hbound.
  destruct o as [routeName routePath statusCode ms now | now]; cbn [incoming.apply_op].
  - unfold incoming.Record.
    assert (Hroute : forall route,
               match routes c !! routeName with
               | Some route => Some route
               | None => NewIncomingRouteMetrics routeName routePath
               end = Some route ->
               route_tallied k route
               /\ total TotalRequests (routes c)
                  = TotalRequests route + total TotalRequests (delete routeName (routes c))).
    { intros route. destruct (routes c !! routeName) as [route0 | ] eqn:Hlook.
      - intros [= <-]. split; [eauto | ]. apply total_lookup. exact Hlook.
      - unfold NewIncomingRouteMetrics. destruct (NewRingBuffer 1000); [ | discriminate].
        intros [= <-]. rewrite total_absent by exact Hlook. unfold route_tallied. cbn.
        rewrite total_empty. split; [ | lia]. split; [ | lia].
        intros ? ? H. rewrite lookup_empty in H. discriminate. }
    destruct (match routes c !! routeName with
              | Some route => Some route
              | None => NewIncomingRouteMetrics routeName routePath
              end) as [route | ]; [ | discriminate].
    destruct (Hroute route eq_refl) as [(Hnn & Hsum & Hrk) Hsplit].
    unfold RecordRoute. destruct (Add ms (ResponseTimes route)); [ | discriminate].
    intros [= <-]. unfold routes_tallied. cbn [routes totalRequests].
    destruct (count_status_total k statusCode (ResponsesByStatus route) Hnn ltac:(lia) Hbound)
      as [Hnn' Hsum'].
    rewrite total_insert. cbn [TotalRequests].
    rewrite !wrap64_small by (unfold in_int64, min_int64, max_int64; lia).
    split; [ | lia].
    intros name m Hlook. apply lookup_insert_Some in Hlook.
    destruct Hlook as [[_ <-] | [_ Hlook]].
    + unfold route_tallied. cbn [ResponsesByStatus TotalRequests].
      split; [exact Hnn' | ]. split; lia.
    + apply (route_tallied_mono k); [lia | eauto].
  - intros [= <-]. unfold routes_tallied. cbn. rewrite total_empty.
    split; [ | lia]. intros ? ? H. rewrite lookup_empty in H. discriminate.
Qed.

Lemma run_routes_tallied (ops : list incoming.op) :
  forall (c c' : IncomingCollector) (k : Z),
  routes_tallied k c -> k + len ops < 2 ^ 63 -> incoming.run ops c = Some c' ->
  routes_tallied (k + len ops) c'.
Proof.
  induction ops as [ | o ops IH]; intros c c' k Ht Hk; cbn [incoming.run].
  - intros [= <-]. unfold len. cbn [length]. replace (k + Z.of_nat 0) with k by lia.
    assumption.
  - assert (Hlen : len (o :: ops) = 1 + len ops) by (unfold len; cbn [length]; lia).
    rewrite Hlen in *. assert (0 <= len ops) by (unfold len; lia).
    destruct (incoming.apply_op o c) as [c1 | ] eqn:Hop; [ | discriminate].
    intros Hrun. replace (k + (1 + len ops)) with (k + 1 + len ops) by lia.
    apply (IH c1 c' (k + 1)); [ | lia | assumption].
    apply (apply_op_routes_tallied k o c c1); [assumption | lia | assumption].
Qed.

(** X7.  Every sequence of [Record] and [Reset] on a new collector of the
    incoming routes runs to completion; while fewer than [2^63] requests
    were recorded, the total of the collector is the sum of the totals of
    its routes, and the total of each route is the sum of its counts by
    status. *)
Theorem X7_incoming_counts_add_up (now : Z) (ops : list incoming.op) :
  exists c,
    incoming.run ops (NewIncomingCollector now) = Some c
    /\ (len ops < 2 ^ 63 ->
        total TotalRequests (routes c) = GetTotalRequests c
        /\ forall name m, routes c !! name = Some m ->
             total id (ResponsesByStatus m) = TotalRequests m).
Proof.
  assert (Hs0 : routes_sound (NewIncomingCollector now)).
  { intros ? ? H. cbn in H. rewrite lookup_empty in H. discriminate. }
  assert (Ht0 : routes_tallied 0 (NewIncomingCollector now)).
  { unfold routes_tallied. cbn. rewrite total_empty. split; [ | lia].
    intros ? ? H. rewrite lookup_empty in H. discriminate. }
  destruct (run_routes_sound ops _ Hs0) as (c & Hrun & _).
  exists c. split; [exact Hrun | ]. intros Hlen.
  destruct (run_routes_tallied ops _ c 0 Ht0 ltac:(lia) Hrun) as (Hroutes & Htot & _).
  split; [exact Htot | ]. intros name m Hlook. exact (proj1 (proj2 (Hroutes name m Hlook))).
Qed.

End IncomingFacts.

(** ** The configuration store: reads, invariants and round trips *)

Module StoreFacts.

Import Go config api ConfigFacts.

(** *** Names and positions *)

Lemma find_index_Some {A} (f : A -> bool) (l : list A) (i : nat) :
  find_index f l = Some i ->
  exists x, l !! i = Some x /\ f x = true
            /\ forall j y, (j < i)%nat -> l !! j = Some y -> f y = false.
Proof.
  revert i. induction l as [ | x l IH]; intros i; cbn [find_index]; [discriminate | ].
  destruct (f x) eqn:Hx.
  - intros [= <-]. exists x. split; [reflexivity | ]. split; [exact Hx | ]. intros j y Hj. lia.
  - destruct (find_index f l) as [i' | ]; [ | discriminate]. intros [= <-].
    destruct (IH i' eq_refl) as (y & Hy & Hfy & Hbefore).
    exists y. split; [exact Hy | ]. split; [exact Hfy | ].
    intros j z Hj Hz. destruct j as [ | j]; cbn in Hz.
    + injection Hz as <-. exact Hx.
    + apply (Hbefore j z); [lia | exact Hz].
Qed.

Lemma find_index_None {A} (f : A -> bool) (l : list A) :
  find_index f l = None -> forall x, In x l -> f x = false.
Proof.
  induction l as [ | x l IH]; cbn [find_index]; [intros _ y [] | ].
  destruct (f x) eqn:Hx; [discriminate | ].
  destruct (find_index f l); [discriminate | ]. intros _ y [<- | Hy]; [exact Hx | ].
  apply IH; [reflexivity | exact Hy].
Qed.

Lemma find_index_find {A} (f : A -> bool) (l : list A) :
  find f l = match find_index f l with Some i => l !! i | None => None end.
Proof.
  induction l as [ | x l IH]; cbn [find find_index]; [reflexivity | ].
  destruct (f x); [reflexivity | ]. rewrite IH.
  destruct (find_index f l); reflexivity.
Qed.

Lemma find_index_app_last {A} (f : A -> bool) (l : list A) (x : A) :
  existsb f l = false -> f x = true -> find_index f (l ++ [x]) = Some (length l).
Proof.
  intros Hl Hx. induction l as [ | y l IH]; cbn [find_index app length].
  - rewrite Hx. reflexivity.
  - cbn [existsb] in Hl. apply orb_false_elim in Hl. destruct Hl as [Hy Hl].
    rewrite Hy, (IH Hl). reflexivity.
Qed.

Lemma existsb_has_name (name : string) (l : list Endpoint) :
  existsb (has_name name) l = false <-> ~ In name (map ep_Name l).
Proof.
  induction l as [ | e l IH]; cbn [existsb map In]; [intuition | ].
  rewrite orb_false_iff, IH. unfold has_name.
  destruct (String.eqb_spec (ep_Name e) name); intuition congruence.
Qed.

Lemma existsb_route_has_name (name : string) (l : list IncomingEndpoint) :
  existsb (route_has_name name) l = false <-> ~ In name (map ie_Name l).
Proof.
  induction l as [ | e l IH]; cbn [existsb map In]; [intuition | ].
  rewrite orb_false_iff, IH. unfold route_has_name.
  destruct (String.eqb_spec (ie_Name e) name); intuition congruence.
Qed.

Lemma taken_elsewhere_false {A} (name_of : A -> string) (name : string)
    (i : nat) (l : list A) :
  taken_elsewhere name_of name i l = false ->
  forall j x, l !! j = Some x -> j <> i -> name_of x <> name.
Proof.
  unfold taken_elsewhere. intros Hex j x Hj Hne Hname.
  assert (Hin : In (j, x) (imap pair l)).
  { apply list_elem_of_In. apply elem_of_lookup_imap. exists j, x. auto. }
  rewrite <- not_true_iff_false in Hex. apply Hex. apply existsb_exists.
  exists (j, x). split; [exact Hin | ]. cbn [fst snd].
  rewrite Hname, String.eqb_refl. cbn [andb].
  destruct (Nat.eqb_spec i j); [congruence | reflexivity].
Qed.

Lemma NoDup_insert_name (ns : list string) (i : nat) (new : string) :
  NoDup ns -> (forall j n, ns !! j = Some n -> j <> i -> n <> new) ->
  NoDup (<[i := new]> ns).
Proof.
  intros Hnd Hfree. apply NoDup_alt. intros j1 j2 n H1 H2.
  apply list_lookup_insert_Some in H1, H2.
  destruct H1 as [(E1 & N1 & _) | (Hne1 & H1)], H2 as [(E2 & N2 & _) | (Hne2 & H2)].
  - congruence.
  - elim (Hfree j2 n H2 ltac:(congruence)). congruence.
  - elim (Hfree j1 n H1 ltac:(congruence)). congruence.
  - exact (proj1 (NoDup_alt ns) Hnd j1 j2 n H1 H2).
Qed.

Lemma remove_at_sublist {A} (i : nat) (l : list A) : remove_at i l `sublist_of` l.
Proof.
  unfold remove_at. rewrite <- (take_drop i l) at 3.
  apply sublist_app; [reflexivity | ].
  replace (S i) with (i + 1)%nat by lia. rewrite <- drop_drop. apply sublist_drop.
Qed.

Lemma NoDup_remove_at {A} (i : nat) (l : list A) : NoDup l -> NoDup (remove_at i l).
Proof. intros Hnd. exact (sublist_NoDup _ _ Hnd (remove_at_sublist i l)). Qed.

Lemma map_remove_at {A B} (f : A -> B) (i : nat) (l : list A) :
  map f (remove_at i l) = remove_at i (map f l).
Proof.
  unfold remove_at. rewrite map_app. change (@map A B f) with (@fmap list _ A B f).
  rewrite fmap_take, fmap_drop. reflexivity.
Qed.

Lemma map_alter_same {A B} (g : A -> B) (f : A -> A) (i : nat) (l : list A) :
  (forall x, g (f x) = g x) -> map g (alter f i l) = map g l.
Proof.
  intros Hgf. revert i. induction l as [ | x l IH]; intros i; [reflexivity | ].
  destruct i as [ | i]; cbn [alter list_alter map].
  - rewrite Hgf. reflexivity.
  - f_equal. apply IH.
Qed.

Lemma map_insert {A B} (g : A -> B) (i : nat) (x : A) (l : list A) :
  map g (<[i := x]> l) = <[i := g x]> (map g l).
Proof. change (@map A B g) with (@fmap list _ A B g). apply list_fmap_insert. Qed.

Lemma map_lookup {A B} (g : A -> B) (i : nat) (l : list A) :
  map g l !! i = option_map g (l !! i).
Proof. change (@map A B g) with (@fmap list _ A B g). apply list_lookup_fmap. Qed.

Lemma endpoint_defaults_name (e : Endpoint) : ep_Name (endpoint_defaults e) = ep_Name e.
Proof.
  unfold endpoint_defaults, default_method, default_auth, default_timeout.
  destruct (ep_Timeout e =? 0); cbn; destruct (ep_Auth e); cbn;
    match goal with |- context [if ?c then _ else _] => destruct c end; reflexivity.
Qed.

Lemma prepare_endpoint_Ok (endpoint e : Endpoint) (m : Manager) :
  prepare_endpoint endpoint m = Ok e ->
  ep_Name e = ep_Name endpoint /\ ValidateEndpoint e = [] /\ is_Some (ep_ResolvedAuth e).
Proof.
  unfold prepare_endpoint.
  destruct (ResolveEndpointAuth _ _) as [resolvedAuth | ]; [ | discriminate].
  destruct (ValidateEndpoint _) eqn:Hval; [ | discriminate]. intros [= <-].
  split; [cbn; apply endpoint_defaults_name | ]. split; [exact Hval | cbn; eauto].
Qed.

Lemma prepare_route_Ok (route r : IncomingEndpoint) :
  prepare_route route = Ok r ->
  ie_Name r = ie_Name route /\ ValidateIncomingEndpoint r = [].
Proof.
  unfold prepare_route. destruct (ValidateIncomingEndpoint _) eqn:Hval; [ | discriminate].
  intros [= <-]. split; [ | exact Hval]. unfold default_route_method.
  destruct (is_empty (ie_Method route)); reflexivity.
Qed.

(** Replacing the element at the first position that carries [name] by
    one whose name is [name] or is not carried elsewhere keeps the names
    distinct. *)
Lemma NoDup_update {A} (name_of : A -> string) (has : string -> A -> bool)
    (name : string) (x : A) (i : nat) (l : list A) :
  (forall n y, has n y = String.eqb (name_of y) n) ->
  NoDup (map name_of l) -> find_index (has name) l = Some i ->
  negb (String.eqb (name_of x) name) && taken_elsewhere name_of (name_of x) i l = false ->
  NoDup (map name_of (<[i := x]> l)).
Proof.
  intros Hhas Hnd Hfind Hfree. rewrite map_insert. apply NoDup_insert_name; [exact Hnd | ].
  intros j n Hj Hne. rewrite map_lookup in Hj.
  destruct (l !! j) as [y | ] eqn:Hy; [ | discriminate]. injection Hj as <-.
  apply andb_false_iff in Hfree. destruct Hfree as [Hsame | Hfree].
  - apply negb_false_iff, String.eqb_eq in Hsame. rewrite Hsame.
    destruct (find_index_Some _ _ _ Hfind) as (z & Hz & Hfz & _).
    rewrite Hhas in Hfz. apply String.eqb_eq in Hfz. intros Heq.
    apply Hne. apply (proj1 (NoDup_alt (map name_of l)) Hnd j i name).
    + rewrite map_lookup, Hy. cbn. congruence.
    + rewrite map_lookup, Hz. cbn. congruence.
  - exact (taken_elsewhere_false name_of _ i l Hfree j y Hy Hne).
Qed.

Lemma NoDup_snoc (ns : list string) (n : string) :
  NoDup ns -> ~ In n ns -> NoDup (ns ++ [n]).
Proof.
  intros Hnd Hn. apply NoDup_app. split; [exact Hnd | ]. split.
  - intros x Hx Hx'. apply list_elem_of_In in Hx, Hx'. destruct Hx' as [<- | []]. auto.
  - apply NoDup_singleton.
Qed.

(** X8.  The mutations of single entries keep the names of the endpoints
    pairwise distinct, and the names of the routes as well, whether they
    succeed or fail. *)
Theorem X8_names_stay_distinct (mu : mutation) (m : Manager) :
  is_crud mu = true -> distinct_names m -> distinct_names (snd (apply_mutation mu m)).
Proof.
  intros Hcrud [Heps Hroutes]. unfold distinct_names.
  destruct mu; cbn [apply_mutation]; try discriminate Hcrud.
  - unfold AddEndpoint.
    destruct (existsb _ _) eqn:Hex; [split; assumption | ].
    destruct (prepare_endpoint endpoint m) as [e | ] eqn:Hprep; [ | split; assumption].
    destruct (prepare_endpoint_Ok _ _ _ Hprep) as (Hname & _).
    cbn. split; [ | assumption]. rewrite map_app. cbn [map]. apply NoDup_snoc; [assumption | ].
    rewrite Hname. apply existsb_has_name. exact Hex.
  - unfold UpdateEndpoint.
    destruct (find_index _ _) as [i | ] eqn:Hfind; [ | split; assumption].
    destruct (negb _ && _) eqn:Hfree; [split; assumption | ].
    destruct (prepare_endpoint endpoint m) as [e | ] eqn:Hprep; [ | split; assumption].
    destruct (prepare_endpoint_Ok _ _ _ Hprep) as (Hname & _).
    cbn. split; [ | assumption].
    apply (NoDup_update ep_Name has_name name e i); [reflexivity | assumption | assumption | ].
    rewrite Hname. exact Hfree.
  - unfold DeleteEndpoint.
    destruct (find_index _ _) as [i | ]; [ | split; assumption].
    cbn. split; [ | assumption]. rewrite map_remove_at. apply NoDup_remove_at. assumption.
  - unfold SetEndpointEnabled.
    destruct (find_index _ _) as [i | ]; [ | split; assumption].
    cbn. split; [ | assumption]. rewrite map_alter_same by reflexivity. assumption.
  - unfold AddAuthConfig. destruct (is_empty _); [split; assumption | ].
    destruct (_ !! _); [split; assumption | ].
    destruct (ValidateAuthConfig _); split; assumption.
  - unfold UpdateAuthConfig. destruct (_ !! name); [ | split; assumption].
    destruct (negb _); cbn zeta;
      (destruct (_ !! _); [split; assumption | ]) || idtac;
      destruct (ValidateAuthConfig _); split; assumption.
  - unfold DeleteAuthConfig. destruct (_ !! _); [ | split; assumption].
    destruct (find _ _); split; assumption.
  - unfold AddIncomingRoute.
    destruct (existsb _ _) eqn:Hex; [split; assumption | ].
    destruct (prepare_route route) as [r | ] eqn:Hprep; [ | split; assumption].
    destruct (prepare_route_Ok _ _ Hprep) as (Hname & _).
    cbn. split; [assumption | ]. rewrite map_app. cbn [map]. apply NoDup_snoc; [assumption | ].
    rewrite Hname. apply existsb_route_has_name. exact Hex.
  - unfold UpdateIncomingRoute.
    destruct (find_index _ _) as [i | ] eqn:Hfind; [ | split; assumption].
    destruct (negb _ && _) eqn:Hfree; [split; assumption | ].
    destruct (prepare_route route) as [r | ] eqn:Hprep; [ | split; assumption].
    destruct (prepare_route_Ok _ _ Hprep) as (Hname & _).
    cbn. split; [assumption | ].
    apply (NoDup_update ie_Name route_has_name name r i);
      [reflexivity | assumption | assumption | ].
    rewrite Hname. exact Hfree.
  - unfold DeleteIncomingRoute.
    destruct (find_index _ _) as [i | ]; [ | split; assumption].
    cbn. split; [assumption | ]. rewrite map_remove_at. apply NoDup_remove_at. assumption.
  - unfold SetIncomingRouteEnabled.
    destruct (find_index _ _) as [i | ]; [ | split; assumption].
    cbn. split; [assumption | ]. rewrite map_alter_same by reflexivity. assumption.
Qed.

Lemma X8_names_stay_distinct_witness :
  is_crud (MAddEndpoint (get_endpoint "e" (IString "a"))) = true
  /\ distinct_names store_with_a
  /\ distinct_names
       (snd (apply_mutation (MAddEndpoint (get_endpoint "e" (IString "a"))) store_with_a)).
Proof.
  assert (H : distinct_names store_with_a) by (split; constructor).
  split; [reflexivity | ]. split; [exact H | ].
  exact (X8_names_stay_distinct (MAddEndpoint (get_endpoint "e" (IString "a")))
           store_with_a eq_refl H).
Defined.

Lemma Forall_remove_at {A} (P : A -> Prop) (i : nat) (l : list A) :
  Forall P l -> Forall P (remove_at i l).
Proof.
  intros H. unfold remove_at. apply Forall_app. split; [apply Forall_take | apply Forall_drop];
    exact H.
Qed.

(** X9.  The mutations of single entries keep the store valid: when every
    endpoint, route and auth config of the store validates, every endpoint
    carries its resolved auth and every auth config is stored under its
    own name, the same holds after the mutation, whether it succeeds or
    fails. *)
Theorem X9_entries_stay_valid (mu : mutation) (m : Manager) :
  is_crud mu = true -> entries_valid m -> entries_valid (snd (apply_mutation mu m)).
Proof.
  intros Hcrud (Heps & Hroutes & Hauth). unfold entries_valid.
  destruct mu; cbn [apply_mutation]; try discriminate Hcrud.
  - unfold AddEndpoint.
    destruct (existsb _ _); [split; [assumption | split; assumption] | ].
    destruct (prepare_endpoint endpoint m) as [e | ] eqn:Hprep; [ | split; [assumption | split; assumption]].
    destruct (prepare_endpoint_Ok _ _ _ Hprep) as (_ & Hval & Hres).
    cbn. split; [ | split; assumption].
    apply Forall_app. split; [assumption | ]. apply Forall_singleton. split; assumption.
  - unfold UpdateEndpoint.
    destruct (find_index _ _) as [i | ]; [ | split; [assumption | split; assumption]].
    destruct (negb _ && _); [split; [assumption | split; assumption] | ].
    destruct (prepare_endpoint endpoint m) as [e | ] eqn:Hprep; [ | split; [assumption | split; assumption]].
    destruct (prepare_endpoint_Ok _ _ _ Hprep) as (_ & Hval & Hres).
    cbn. split; [ | split; assumption]. apply Forall_insert; [assumption | split; assumption].
  - unfold DeleteEndpoint.
    destruct (find_index _ _) as [i | ]; [ | split; [assumption | split; assumption]].
    cbn. split; [ | split; assumption]. apply Forall_remove_at. assumption.
  - unfold SetEndpointEnabled.
    destruct (find_index _ _) as [i | ]; [ | split; [assumption | split; assumption]].
    cbn. split; [ | split; assumption]. apply Forall_alter; [assumption | ].
    intros e _ He. exact He.
  - unfold AddAuthConfig. destruct (is_empty _); [split; [assumption | split; assumption] | ].
    destruct (_ !! _); [split; [assumption | split; assumption] | ].
    destruct (ValidateAuthConfig authCfg) eqn:Hval; [ | split; [assumption | split; assumption]].
    cbn. split; [assumption | ]. split; [assumption | ].
    apply map_Forall_insert_2; [split; [exact Hval | reflexivity] | assumption].
  - unfold UpdateAuthConfig. destruct (_ !! name); [ | split; [assumption | split; assumption]].
    destruct (String.eqb_spec (ac_Name authCfg) name) as [Hsame | Hren]; cbn [negb].
    + destruct (ValidateAuthConfig authCfg) eqn:Hval; [ | split; [assumption | split; assumption]].
      cbn. split; [assumption | ]. split; [assumption | ].
      apply map_Forall_insert_2; [split; [exact Hval | reflexivity] | assumption].
    + destruct (_ !! ac_Name authCfg); [split; [assumption | split; assumption] | ].
      destruct (ValidateAuthConfig authCfg) eqn:Hval; cbn.
      * split; [assumption | ]. split; [assumption | ].
        apply map_Forall_insert_2; [split; [exact Hval | reflexivity] | ].
        apply map_Forall_delete. assumption.
      * split; [assumption | ]. split; [assumption | ].
        apply map_Forall_delete. assumption.
  - unfold DeleteAuthConfig. destruct (_ !! _); [ | split; [assumption | split; assumption]].
    destruct (find _ _); [split; [assumption | split; assumption] | ].
    cbn. split; [assumption | ]. split; [assumption | ].
    apply map_Forall_delete. assumption.
  - unfold AddIncomingRoute.
    destruct (existsb _ _); [split; [assumption | split; assumption] | ].
    destruct (prepare_route route) as [r | ] eqn:Hprep; [ | split; [assumption | split; assumption]].
    destruct (prepare_route_Ok _ _ Hprep) as (_ & Hval).
    cbn. split; [assumption | ]. split; [ | assumption].
    apply Forall_app. split; [assumption | ]. apply Forall_singleton. exact Hval.
  - unfold UpdateIncomingRoute.
    destruct (find_index _ _) as [i | ]; [ | split; [assumption | split; assumption]].
    destruct (negb _ && _); [split; [assumption | split; assumption] | ].
    destruct (prepare_route route) as [r | ] eqn:Hprep; [ | split; [assumption | split; assumption]].
    destruct (prepare_route_Ok _ _ Hprep) as (_ & Hval).
    cbn. split; [assumption | ]. split; [ | assumption].
    apply Forall_insert; assumption.
  - unfold DeleteIncomingRoute.
    destruct (find_index _ _) as [i | ]; [ | split; [assumption | split; assumption]].
    cbn. split; [assumption | ]. split; [ | assumption]. apply Forall_remove_at. assumption.
  - unfold SetIncomingRouteEnabled.
    destruct (find_index _ _) as [i | ]; [ | split; [assumption | split; assumption]].
    cbn. split; [assumption | ]. split; [ | assumption].
    apply Forall_alter; [assumption | ]. intros r _ Hr. exact Hr.
Qed.

Lemma X9_entries_stay_valid_witness :
  is_crud (MAddAuthConfig (bearer_auth "a")) = true
  /\ entries_valid NewManager
  /\ entries_valid (snd (apply_mutation (MAddAuthConfig (bearer_auth "a")) NewManager)).
Proof.
  assert (H : entries_valid NewManager).
  { split; [constructor | ]. split; [constructor | ]. apply map_Forall_empty. }
  split; [reflexivity | ]. split; [exact H | ].
  exact (X9_entries_stay_valid (MAddAuthConfig (bearer_auth "a")) NewManager eq_refl H).
Defined.

(** *** Round trips *)

Lemma find_snoc {A} (f : A -> bool) (l : list A) (x : A) :
  find f (l ++ [x])
  = match find f l with Some y => Some y | None => if f x then Some x else None end.
Proof.
  induction l as [ | y l IH]; cbn [find app]; [reflexivity | ].
  destruct (f y); [reflexivity | exact IH].
Qed.

Lemma existsb_find_None {A} (f : A -> bool) (l : list A) :
  existsb f l = false -> find f l = None.
Proof.
  induction l as [ | y l IH]; cbn [find existsb]; [reflexivity | ].
  destruct (f y); [discriminate | exact IH].
Qed.

(** X10.  An endpoint that [AddEndpoint] accepted is found under its name:
    [GetEndpoint] returns the endpoint that was stored, which validates
    and carries its resolved auth; the name was not found before, and the
    lookups of the other names are as before. *)
Theorem X10_added_endpoint_is_found (endpoint : Endpoint) (m m' : Manager) :
  AddEndpoint endpoint m = (None, m') ->
  exists stored,
    GetEndpoint (ep_Name endpoint) m' = Ok stored
    /\ ep_Name stored = ep_Name endpoint
    /\ ValidateEndpoint stored = []
    /\ is_Some (ep_ResolvedAuth stored)
    /\ GetEndpoint (ep_Name endpoint) m = Err (ErrEndpointNotFound (ep_Name endpoint))
    /\ forall name, name <> ep_Name endpoint -> GetEndpoint name m' = GetEndpoint name m.
Proof.
  unfold AddEndpoint. destruct (existsb _ _) eqn:Hex; [discriminate | ].
  destruct (prepare_endpoint endpoint m) as [e | ] eqn:Hprep; [ | discriminate].
  destruct (prepare_endpoint_Ok _ _ _ Hprep) as (Hname & Hval & Hres).
  intros [= <-]. exists e. unfold GetEndpoint. cbn.
  rewrite (existsb_find_None _ _ Hex).
  split; [ | split; [exact Hname | split; [exact Hval | split; [exact Hres | split]]]].
  - rewrite find_snoc, (existsb_find_None _ _ Hex). unfold has_name.
    rewrite Hname, String.eqb_refl. reflexivity.
  - reflexivity.
  - intros name Hne. rewrite find_snoc. destruct (find (has_name name) _); [reflexivity | ].
    unfold has_name. rewrite Hname.
    destruct (String.eqb_spec (ep_Name endpoint) name); [congruence | reflexivity].
Qed.

Lemma X10_added_endpoint_is_found_witness :
  AddEndpoint (get_endpoint "e" (IString "a")) store_with_a
  = (None, store_with_endpoint (IString "a"))
  /\ exists stored,
       GetEndpoint "e" (store_with_endpoint (IString "a")) = Ok stored
       /\ ep_Name stored = "e"%string
       /\ ValidateEndpoint stored = []
       /\ is_Some (ep_ResolvedAuth stored)
       /\ GetEndpoint "e" store_with_a = Err (ErrEndpointNotFound "e")
       /\ forall name, name <> "e"%string ->
            GetEndpoint name (store_with_endpoint (IString "a")) = GetEndpoint name store_with_a.
Proof.
  assert (H : AddEndpoint (get_endpoint "e" (IString "a")) store_with_a
              = (None, store_with_endpoint (IString "a"))) by (vm_compute; reflexivity).
  split; [exact H | ].
  exact (X10_added_endpoint_is_found (get_endpoint "e" (IString "a")) store_with_a
           (store_with_endpoint (IString "a")) H).
Defined.

Lemma remove_at_snoc {A} (l : list A) (x : A) : remove_at (length l) (l ++ [x]) = l.
Proof.
  unfold remove_at. rewrite take_app_length.
  rewrite drop_ge by (rewrite length_app; cbn; lia). apply app_nil_r.
Qed.

(** X11.  Adding an entry and deleting it again leaves the store as it
    was: an endpoint, an incoming route, and an auth config that no
    endpoint names. *)
Theorem X11_add_then_delete_restores (m m1 : Manager) :
  (forall endpoint,
     AddEndpoint endpoint m = (None, m1) ->
     DeleteEndpoint (ep_Name endpoint) m1 = (None, m))
  /\ (forall route,
        AddIncomingRoute route m = (None, m1) ->
        DeleteIncomingRoute (ie_Name route) m1 = (None, m))
  /\ (forall authCfg,
        AddAuthConfig authCfg m = (None, m1) ->
        find (uses_auth (ac_Name authCfg)) (Endpoints (config m)) = None ->
        DeleteAuthConfig (ac_Name authCfg) m1 = (None, m)).
Proof.
  destruct m as [c cpath]. destruct c. split; [ | split].
  - intros endpoint. unfold AddEndpoint. cbn [config Endpoints].
    destruct (existsb _ _) eqn:Hex; [discriminate | ].
    destruct (prepare_endpoint endpoint _) as [e | ] eqn:Hprep; [ | discriminate].
    destruct (prepare_endpoint_Ok _ _ _ Hprep) as (Hname & _).
    intros [= <-]. unfold DeleteEndpoint. cbn.
    rewrite (find_index_app_last (has_name (ep_Name endpoint)) _ e Hex)
      by (unfold has_name; rewrite Hname; apply String.eqb_refl).
    cbn. rewrite remove_at_snoc. reflexivity.
  - intros route. unfold AddIncomingRoute. cbn [config IncomingRoutes].
    destruct (existsb _ _) eqn:Hex; [discriminate | ].
    destruct (prepare_route route) as [r | ] eqn:Hprep; [ | discriminate].
    destruct (prepare_route_Ok _ _ Hprep) as (Hname & _).
    intros [= <-]. unfold DeleteIncomingRoute. cbn.
    rewrite (find_index_app_last (route_has_name (ie_Name route)) _ r Hex)
      by (unfold route_has_name; rewrite Hname; apply String.eqb_refl).
    cbn. rewrite remove_at_snoc. reflexivity.
  - intros authCfg. unfold AddAuthConfig. cbn [config AuthConfigs Endpoints].
    destruct (is_empty _); [discriminate | ].
    destruct (_ !! _) eqn:Hfree; [discriminate | ].
    destruct (ValidateAuthConfig authCfg); [ | discriminate].
    intros [= <-] Hnone. unfold DeleteAuthConfig. cbn.
    rewrite lookup_insert_eq, Hnone. cbn.
    rewrite delete_insert_id by exact Hfree. reflexivity.
Qed.

Lemma find_index_alter_same {A} (g : A -> bool) (f : A -> A) (i : nat) (l : list A) :
  (forall x, g (f x) = g x) -> find_index g (alter f i l) = find_index g l.
Proof.
  intros Hgf. revert i. induction l as [ | x l IH]; intros i; [reflexivity | ].
  destruct i as [ | i]; cbn [alter list_alter find_index].
  - rewrite Hgf. reflexivity.
  - rewrite IH. reflexivity.
Qed.

(** X12.  After [SetEndpointEnabled(name, enabled)] succeeded,
    [IsEndpointEnabled(name)] returns [enabled], and its answer for every
    other name is as before. *)
Theorem X12_enabled_flag_round_trip (name : string) (enabled : bool) (m m' : Manager) :
  SetEndpointEnabled name enabled m = (None, m') ->
  IsEndpointEnabled name m' = Ok enabled
  /\ forall other, other <> name -> IsEndpointEnabled other m' = IsEndpointEnabled other m.
Proof.
  unfold SetEndpointEnabled.
  destruct (find_index (has_name name) _) as [i | ] eqn:Hfind; [ | discriminate].
  intros [= <-]. unfold IsEndpointEnabled. cbn.
  destruct (find_index_Some _ _ _ Hfind) as (e & He & Hname & _).
  split.
  - rewrite find_index_find, find_index_alter_same by reflexivity.
    rewrite Hfind, list_lookup_alter. destruct (decide (i = i)); [ | congruence].
    rewrite He. reflexivity.
  - intros other Hne. rewrite !find_index_find, find_index_alter_same by reflexivity.
    destruct (find_index (has_name other) _) as [j | ] eqn:Hj; [ | reflexivity].
    rewrite list_lookup_alter. destruct (decide (i = j)) as [<- | ]; [ | reflexivity].
    destruct (find_index_Some _ _ _ Hj) as (e' & He' & Hname' & _).
    rewrite He in He'. injection He' as <-. unfold has_name in *.
    apply String.eqb_eq in Hname, Hname'. congruence.
Qed.

Lemma X12_enabled_flag_round_trip_witness :
  let m := store_with_endpoint (IString "a") in
  SetEndpointEnabled "e" false m = (None, snd (SetEndpointEnabled "e" false m))
  /\ IsEndpointEnabled "e" (snd (SetEndpointEnabled "e" false m)) = Ok false.
Proof.
  cbv zeta.
  assert (H : SetEndpointEnabled "e" false (store_with_endpoint (IString "a"))
              = (None, snd (SetEndpointEnabled "e" false (store_with_endpoint (IString "a")))))
    by (vm_compute; reflexivity).
  split; [exact H | ].
  exact (proj1 (X12_enabled_flag_round_trip "e" false (store_with_endpoint (IString "a"))
                  (snd (SetEndpointEnabled "e" false (store_with_endpoint (IString "a")))) H)).
Defined.

Lemma find_index_app_first {A} (g : A -> bool) (l1 l2 : list A) (x : A) :
  (forall y, In y l1 -> g y = false) -> g x = true ->
  find_index g (l1 ++ x :: l2) = Some (length l1).
Proof.
  intros Hl1 Hx. induction l1 as [ | y l1 IH]; cbn [find_index app length].
  - rewrite Hx. reflexivity.
  - rewrite (Hl1 y) by (left; reflexivity).
    rewrite IH by (intros z Hz; apply Hl1; right; exact Hz). reflexivity.
Qed.

Lemma alter_middle {A} (f : A -> A) (l1 l2 : list A) (x : A) :
  alter f (length l1) (l1 ++ x :: l2) = l1 ++ f x :: l2.
Proof.
  induction l1 as [ | y l1 IH]; cbn [alter list_alter app length]; [reflexivity | ].
  f_equal. exact IH.
Qed.

Lemma wrap64_in_int64 (z : Z) : in_int64 (wrap64 z).
Proof.
  unfold in_int64, wrap64, min_int64, max_int64.
  pose proof (Z.mod_pos_bound (z + 2 ^ 63) (2 ^ 64) ltac:(lia)). lia.
Qed.

Lemma with_Endpoints_same (m : Manager) :
  with_config (with_Endpoints (Endpoints (config m)) (config m)) m = m.
Proof. destruct m as [c p]. destruct c. reflexivity. Qed.

Lemma enable_rest (enabled : bool) (todo : list Endpoint) :
  forall (done : list Endpoint) (updated : Z) (m : Manager),
  in_int64 updated ->
  NoDup (map ep_Name (done ++ todo)) ->
  Endpoints (config m) = map (with_ep_Enabled enabled) done ++ todo ->
  fold_left
    (fun acc ep =>
       match SetEndpointEnabled (ep_Name ep) enabled (snd acc) with
       | (None, store') => (wrap64 (fst acc + 1), store')
       | (Some _, store') => (fst acc, store')
       end) todo (updated, m)
  = (wrap64 (updated + len todo),
     with_config
       (with_Endpoints (map (with_ep_Enabled enabled) (done ++ todo)) (config m)) m).
Proof.
  induction todo as [ | e todo IH]; intros done updated m Hup Hnd Hcur.
  - cbn [fold_left]. rewrite app_nil_r in *. rewrite <- Hcur, with_Endpoints_same.
    unfold len. cbn [length]. rewrite Z.add_0_r, RingBufferFacts.wrap64_small by exact Hup. reflexivity.
  - assert (Hstep : SetEndpointEnabled (ep_Name e) enabled m
                    = (None, with_config
                               (with_Endpoints
                                  (map (with_ep_Enabled enabled) (done ++ [e]) ++ todo)
                                  (config m)) m)).
    { unfold SetEndpointEnabled. rewrite Hcur.
      rewrite (find_index_app_first (has_name (ep_Name e)) _ todo e).
      - rewrite alter_middle, map_app, <- app_assoc. reflexivity.
      - intros y Hy. apply in_map_iff in Hy. destruct Hy as (d & <- & Hd).
        unfold has_name. cbn [ep_Name with_ep_Enabled].
        destruct (String.eqb_spec (ep_Name d) (ep_Name e)) as [Heq | ]; [ | reflexivity].
        exfalso. rewrite map_app in Hnd. apply NoDup_app in Hnd.
        destruct Hnd as (_ & Hdisj & _). apply (Hdisj (ep_Name d)).
        + apply list_elem_of_In, in_map. exact Hd.
        + rewrite Heq. cbn [map]. left.
      - unfold has_name. apply String.eqb_refl. }
    cbn [fold_left]. cbn [snd fst]. rewrite Hstep.
    rewrite (IH (done ++ [e])).
    + f_equal.
      * rewrite MetricsFacts.wrap64_idem_l. f_equal. unfold len. cbn [length]. lia.
      * rewrite <- !app_assoc. cbn [app]. destruct m as [c p]. destruct c. reflexivity.
    + apply wrap64_in_int64.
    + rewrite <- app_assoc. exact Hnd.
    + destruct m as [c p]. destruct c. reflexivity.
Qed.

(** X13.  When the names of the endpoints are pairwise distinct,
    [handleEnableAll] sets the flag of every endpoint and changes nothing
    else; it reports as many updates as there are endpoints. *)
Theorem X13_enable_all_sets_every_flag (enabled : bool) (m : Manager) :
  NoDup (map ep_Name (Endpoints (config m))) ->
  handleEnableAll enabled m
  = (wrap64 (len (Endpoints (config m))),
     with_config
       (with_Endpoints (map (with_ep_Enabled enabled) (Endpoints (config m))) (config m)) m).
Proof.
  intros Hnd. unfold handleEnableAll, GetEndpoints.
  rewrite (enable_rest enabled (Endpoints (config m)) [] 0 m);
    [reflexivity | unfold in_int64, min_int64, max_int64; lia | exact Hnd | reflexivity].
Qed.

Lemma X13_enable_all_sets_every_flag_witness :
  let m := store_with_endpoint (IString "a") in
  NoDup (map ep_Name (Endpoints (config m)))
  /\ handleEnableAll false m
     = (wrap64 (len (Endpoints (config m))),
        with_config
          (with_Endpoints (map (with_ep_Enabled false) (Endpoints (config m))) (config m)) m).
Proof.
  cbv zeta.
  assert (H : NoDup (map ep_Name (Endpoints (config (store_with_endpoint (IString "a"))))))
    by (vm_compute; apply NoDup_singleton).
  split; [exact H | ].
  exact (X13_enable_all_sets_every_flag false (store_with_endpoint (IString "a")) H).
Defined.

(** *** Auth references *)

(** X14.  The descriptor [{ref: name}] resolves as the plain reference
    [name] does, to the named config or to the same error, for every name
    but the empty one and ["none"]; the plain reference ["none"] resolves
    to no auth, while [{ref: none}] looks up a config of that name. *)
Theorem X14_inline_ref_resolves_as_name (name : string) (configs : gmap string AuthConfig) :
  (name <> "" -> name <> "none" ->
   ResolveEndpointAuth (inline_ref name) configs
   = ResolveEndpointAuth (IString name) configs)
  /\ ResolveEndpointAuth (IString "none") configs = Ok none_AuthConfig
  /\ ResolveEndpointAuth (inline_ref "none") configs
     = match configs !! "none" with
       | Some cfg => Ok cfg
       | None => Err (ErrAuthConfigNotFound "none")
       end.
Proof.
  assert (Hinline : forall n, n <> "" ->
            ResolveEndpointAuth (inline_ref n) configs
            = match configs !! n with
              | Some cfg => Ok cfg
              | None => Err (ErrAuthConfigNotFound n)
              end).
  { intros n Hn. unfold inline_ref. cbn [ResolveEndpointAuth]. unfold parseAuthConfigMap.
    rewrite lookup_insert_eq. cbn [as_string].
    destruct (is_empty n) eqn:He; [apply is_empty_spec in He; contradiction | ].
    cbn [negb]. destruct (configs !! n) as [cfg | ]; [ | reflexivity].
    unfold override. rewrite !lookup_insert_ne, !lookup_empty by discriminate.
    reflexivity. }
  split; [ | split].
  - intros Hne Hnone. rewrite (Hinline name Hne). cbn [ResolveEndpointAuth].
    destruct (is_empty name) eqn:He; [apply is_empty_spec in He; contradiction | ].
    destruct (String.eqb_spec name AuthTypeNone); [contradiction | ]. reflexivity.
  - reflexivity.
  - apply Hinline. discriminate.
Qed.

(** X14 at the name ["a"]. *)
Lemma X14_inline_ref_resolves_as_name_witness :
  let configs : gmap string AuthConfig := <["a" := bearer_auth "a"]> ∅ in
  ResolveEndpointAuth (inline_ref "a") configs = Ok (bearer_auth "a")
  /\ ResolveEndpointAuth (IString "a") configs = Ok (bearer_auth "a").
Proof.
  cbv zeta.
  rewrite (proj1 (X14_inline_ref_resolves_as_name "a" (<["a" := bearer_auth "a"]> ∅))
             ltac:(discriminate) ltac:(discriminate)).
  split; reflexivity.
Defined.

(** *** Validation of the whole configuration *)

Lemma check_nil (c : bool) (p : problem) : check c p = [] <-> c = false.
Proof. unfold check. destruct c; split; intros H; congruence. Qed.

Lemma app_nil_iff {A} (l1 l2 : list A) : l1 ++ l2 = [] <-> l1 = [] /\ l2 = [].
Proof.
  split; [apply app_eq_nil | ]. intros [-> ->]. reflexivity.
Qed.

Lemma validate_endpoints_nil (l : list Endpoint) : forall (seen : gset string),
  validate_endpoints seen l = []
  <-> (forall name, In name (map ep_Name l) -> name ∉ seen)
      /\ NoDup (map ep_Name l)
      /\ Forall (fun e => ValidateEndpoint e = []) l.
Proof.
  induction l as [ | e l IH]; intros seen; cbn [validate_endpoints map].
  - split; [ | reflexivity]. intros _. split; [intros ? [] | ].
    split; [constructor | constructor].
  - rewrite !app_nil_iff, check_nil, IH, bool_decide_eq_false. split.
    + intros (Hnew & Hval & Hrest & Hnd & Hall). split; [ | split].
      * intros name [<- | Hin]; [exact Hnew | ].
        intros Hs. apply (Hrest name Hin). apply elem_of_union. right. exact Hs.
      * constructor; [ | exact Hnd]. intros Hin. apply list_elem_of_In in Hin.
        apply (Hrest _ Hin). apply elem_of_union. left. apply elem_of_singleton.
        reflexivity.
      * constructor; assumption.
    + intros (Hfresh & Hnd & Hall). apply NoDup_cons in Hnd. destruct Hnd as [Hnotin Hnd].
      apply Forall_cons in Hall. destruct Hall as [Hval Hall].
      split; [apply Hfresh; left; reflexivity | ]. split; [exact Hval | ].
      split; [ | split; assumption].
      intros name Hin Hs. apply elem_of_union in Hs. destruct Hs as [Hs | Hs].
      * apply elem_of_singleton in Hs. subst. apply Hnotin, list_elem_of_In. exact Hin.
      * apply (Hfresh name); [right; exact Hin | exact Hs].
Qed.

(** X15.  [Validate] reports no problem exactly when the multiplier is not
    negative, the number of concurrent requests is positive, there is at
    least one endpoint, the names of the endpoints are pairwise distinct
    and every endpoint validates. *)
Theorem X15_validate_accepts_exactly (m : Manager) :
  Validate m = []
  <-> PrimFloat.ltb (GlobalMultiplier (config m)) 0 = false
      /\ 0 < ConcurrentRequests (config m)
      /\ Endpoints (config m) <> []
      /\ NoDup (map ep_Name (Endpoints (config m)))
      /\ Forall (fun e => ValidateEndpoint e = []) (Endpoints (config m)).
Proof.
  unfold Validate. rewrite !app_nil_iff, !check_nil, validate_endpoints_nil.
  rewrite Z.leb_gt, Z.eqb_neq.
  assert (Hlen : len (Endpoints (config m)) <> 0 <-> Endpoints (config m) <> []).
  { unfold len. destruct (Endpoints (config m)); cbn [length]; split; intros H; try congruence; lia. }
  rewrite Hlen. split.
  - intros (? & ? & ? & _ & ? & ?). auto.
  - intros (? & ? & ? & ? & ?). repeat split; try assumption.
    intros name _. apply not_elem_of_empty.
Qed.

(** *** Replacement and import *)








End StoreFacts.

(** ** The simulated routes *)

Module ResponderFacts.

Import Go config api incoming ConfigFacts IncomingFacts.

Lemma select_cumulative_In (randVal : float) (responses : list IncomingResponseConfig) :
  forall (cumulative : float) (last : IncomingResponseConfig),
  In (select_cumulative randVal cumulative responses last) (last :: responses).
Proof.
  induction responses as [ | resp responses IH]; intros cumulative last;
    cbn [select_cumulative]; [left; reflexivity | ].
  destruct (PrimFloat.ltb randVal _); [right; left; reflexivity | ].
  destruct (IH (PrimFloat.add cumulative (Share resp)) last) as [H | H];
    [left; exact H | right; right; exact H].
Qed.

Lemma last_In {A} (l : list A) (d : A) : l <> [] -> In (List.last l d) l.
Proof.
  induction l as [ | x l IH]; [congruence | ]. intros _.
  destruct l as [ | y l]; [left; reflexivity | ].
  right. apply IH. discriminate.
Qed.

(** X17.  From a list of responses that is not empty
    [selectWeightedResponse] returns one of the responses of the list; it
    takes one draw from the random source when the list has two responses
    or more, and none otherwise. *)
Theorem X17_selected_response_is_listed
    (responses : list IncomingResponseConfig) (r : Rand) :
  responses <> [] ->
  In (fst (selectWeightedResponse responses r)) responses
  /\ draws (snd (selectWeightedResponse responses r)) = draws r
  /\ taken (snd (selectWeightedResponse responses r))
     = if (2 <=? len responses) then S (taken r) else taken r.
Proof.
  intros Hne. destruct responses as [ | first rest]; [congruence | ].
  destruct rest as [ | second rest].
  - cbn. auto.
  - cbn [selectWeightedResponse]. unfold Float64. cbn [fst snd draws taken].
    split; [ | split; [reflexivity | ]].
    + destruct (select_cumulative_In (draws r (taken r)) (first :: second :: rest) 0
                  (List.last (first :: second :: rest) first)) as [H | H]; [ | exact H].
      rewrite <- H. apply last_In. discriminate.
    + unfold len. cbn [length].
      destruct (Z.leb_spec 2 (Z.of_nat (S (S (length rest))))); [reflexivity | lia].
Qed.

Lemma X17_selected_response_is_listed_witness :
  let ok := {| StatusCode := 200; Share := 0.5; MinResponseMs := 0; MaxResponseMs := 10 |} in
  let busy := {| StatusCode := 503; Share := 0.5; MinResponseMs := 0; MaxResponseMs := 0 |} in
  let r := {| draws := fun _ => 0.75%float; taken := 0 |} in
  [ok; busy] <> []
  /\ In (fst (selectWeightedResponse [ok; busy] r)) [ok; busy]
  /\ taken (snd (selectWeightedResponse [ok; busy] r)) = 1%nat.
Proof.
  cbv zeta.
  pose proof (X17_selected_response_is_listed
                [{| StatusCode := 200; Share := 0.5; MinResponseMs := 0; MaxResponseMs := 10 |};
                 {| StatusCode := 503; Share := 0.5; MinResponseMs := 0; MaxResponseMs := 0 |}]
                {| draws := fun _ => 0.75%float; taken := 0 |}
                ltac:(discriminate)) as (Hin & _ & Htaken).
  split; [discriminate | ]. split; [exact Hin | exact Htaken].
Defined.

Lemma Intn_range (n draw k : Z) : Intn n draw = Some k -> 0 < n /\ 0 <= k < n.
Proof.
  unfold Intn. destruct (Z.leb_spec n 0); [discriminate | ]. intros [= <-].
  split; [lia | ]. apply Z.mod_pos_bound. lia.
Qed.

(** X18.  For [int] arguments [randomDuration] panics exactly when
    [maxMs - minMs] is [math.MaxInt64] or more (the size of the range
    wraps around and [rand.Intn] refuses it).  Otherwise it returns
    [minMs] when [maxMs <= minMs] and a value from [minMs] to [maxMs]
    when [minMs <= maxMs]. *)
Theorem X18_random_duration_within_bounds (minMs maxMs draw : Z) :
  in_int64 minMs -> in_int64 maxMs ->
  (randomDuration minMs maxMs draw = None <-> max_int64 <= maxMs - minMs)
  /\ (forall d, randomDuration minMs maxMs draw = Some d ->
        (maxMs <= minMs -> d = minMs) /\ (minMs <= maxMs -> minMs <= d <= maxMs)).
Proof.
  unfold in_int64, min_int64, max_int64. intros Hmin Hmax. unfold randomDuration.
  destruct (Z.leb_spec maxMs minMs) as [Hle | Hlt].
  - split; [split; [discriminate | lia] | ]. intros d [= <-]. split; lia.
  - destruct (Z_lt_le_dec (maxMs - minMs) (2 ^ 63 - 1)) as [Hfit | Hwide].
    + rewrite (RingBufferFacts.wrap64_small (maxMs - minMs))
        by (unfold in_int64, min_int64, max_int64; lia).
      rewrite (RingBufferFacts.wrap64_small (maxMs - minMs + 1))
        by (unfold in_int64, min_int64, max_int64; lia).
      destruct (Intn (maxMs - minMs + 1) draw) as [k | ] eqn:Hk.
      * apply Intn_range in Hk.
        rewrite RingBufferFacts.wrap64_small by (unfold in_int64, min_int64, max_int64; lia).
        split; [split; [discriminate | lia] | ]. intros d [= <-]. split; lia.
      * unfold Intn in Hk. destruct (Z.leb_spec (maxMs - minMs + 1) 0); [lia | discriminate].
    + assert (Hn : wrap64 (wrap64 (maxMs - minMs) + 1) <= 0).
      { destruct (Z.eq_dec (maxMs - minMs) (2 ^ 63 - 1)) as [E | NE].
        - rewrite E. vm_compute. discriminate.
        - assert (E1 : wrap64 (maxMs - minMs) = maxMs - minMs - 2 ^ 64).
          { unfold wrap64.
            replace (maxMs - minMs + 2 ^ 63) with ((maxMs - minMs - 2 ^ 63) + 1 * 2 ^ 64) by lia.
            rewrite Z.mod_add by lia. rewrite Z.mod_small by lia. lia. }
          rewrite E1.
          rewrite RingBufferFacts.wrap64_small by (unfold in_int64, min_int64, max_int64; lia).
          lia. }
      unfold Intn. destruct (Z.leb_spec (wrap64 (wrap64 (maxMs - minMs) + 1)) 0); [ | lia].
      split; [split; [lia | reflexivity] | ]. intros d [=].
Qed.

Lemma X18_random_duration_within_bounds_witness :
  in_int64 10 /\ in_int64 20
  /\ (randomDuration 10 20 7 = None <-> max_int64 <= 20 - 10)
  /\ (forall d, randomDuration 10 20 7 = Some d ->
        (20 <= 10 -> d = 10) /\ (10 <= 20 -> 10 <= d <= 20)).
Proof.
  assert (H10 : in_int64 10) by (unfold in_int64, min_int64, max_int64; lia).
  assert (H20 : in_int64 20) by (unfold in_int64, min_int64, max_int64; lia).
  split; [exact H10 | ]. split; [exact H20 | ].
  exact (X18_random_duration_within_bounds 10 20 7 H10 H20).
Defined.

Lemma select_listed (responses : list IncomingResponseConfig) (r : Rand) :
  responses <> [] -> In (fst (selectWeightedResponse responses r)) responses.
Proof.
  intros Hne. destruct responses as [ | first rest]; [congruence | ].
  destruct rest as [ | second rest]; [left; reflexivity | ].
  cbn [selectWeightedResponse]. unfold Float64. cbn [fst].
  destruct (select_cumulative_In (draws r (taken r)) (first :: second :: rest) 0
              (List.last (first :: second :: rest) first)) as [H | H]; [ | exact H].
  rewrite <- H. apply last_In. discriminate.
Qed.

Lemma randomDuration_fits (minMs maxMs draw : Z) :
  0 <= minMs <= maxMs -> maxMs < max_int64 ->
  exists d, randomDuration minMs maxMs draw = Some d /\ minMs <= d <= maxMs.
Proof.
  unfold max_int64. intros Hmin Hmax. unfold randomDuration.
  destruct (Z.leb_spec maxMs minMs) as [Hle | Hlt]; [exists minMs; split; [reflexivity | lia] | ].
  rewrite (RingBufferFacts.wrap64_small (maxMs - minMs))
    by (unfold in_int64, min_int64, max_int64; lia).
  rewrite (RingBufferFacts.wrap64_small (maxMs - minMs + 1))
    by (unfold in_int64, min_int64, max_int64; lia).
  destruct (Intn (maxMs - minMs + 1) draw) as [k | ] eqn:Hk.
  - apply Intn_range in Hk.
    rewrite RingBufferFacts.wrap64_small by (unfold in_int64, min_int64, max_int64; lia).
    eexists. split; [reflexivity | lia].
  - unfold Intn in Hk. destruct (Z.leb_spec (maxMs - minMs + 1) 0); [lia | discriminate].
Qed.

Lemma concat_nil_Forall {A} (ls : list (list A)) : concat ls = [] -> Forall (fun l => l = []) ls.
Proof.
  induction ls as [ | l ls IH]; cbn [concat]; intros H; constructor.
  - destruct l; [reflexivity | discriminate].
  - apply IH. destruct l; [exact H | discriminate].
Qed.

Lemma check_false (b : bool) (p : problem) : check b p = [] -> b = false.
Proof. destruct b; [discriminate | reflexivity]. Qed.

Lemma ValidateResponse_nil (resp : IncomingResponseConfig) (name : string) (i : nat) :
  ValidateResponse resp name i = [] ->
  100 <= StatusCode resp <= 599 /\ 0 <= MinResponseMs resp <= MaxResponseMs resp.
Proof.
  unfold ValidateResponse. intros H.
  apply app_eq_nil in H. destruct H as [H1 H]. apply check_false in H1.
  apply app_eq_nil in H. destruct H as [_ H].
  apply app_eq_nil in H. destruct H as [H3 H]. apply check_false in H3.
  apply app_eq_nil in H. destruct H as [_ H5]. apply check_false in H5.
  apply orb_false_iff in H1. destruct H1 as [H1 H2].
  apply Z.ltb_ge in H1, H2, H3, H5. lia.
Qed.

Lemma ValidateIncomingEndpoint_responses (route : IncomingEndpoint) :
  ValidateIncomingEndpoint route = [] ->
  ie_Responses route <> []
  /\ forall resp, In resp (ie_Responses route) ->
       100 <= StatusCode resp <= 599 /\ 0 <= MinResponseMs resp <= MaxResponseMs resp.
Proof.
  unfold ValidateIncomingEndpoint. intros H.
  apply app_eq_nil in H. destruct H as [_ H].
  apply app_eq_nil in H. destruct H as [_ H].
  apply app_eq_nil in H. destruct H as [_ H].
  apply app_eq_nil in H. destruct H as [Hlen H]. apply check_false in Hlen.
  apply app_eq_nil in H. destruct H as [Hall _].
  split.
  - intros E. rewrite E in Hlen. discriminate Hlen.
  - intros resp Hin. apply concat_nil_Forall in Hall.
    apply list_elem_of_In, list_elem_of_lookup_1 in Hin. destruct Hin as [i Hi].
    rewrite Forall_forall in Hall.
    apply (ValidateResponse_nil resp (ie_Name route) i). apply Hall.
    apply (list_elem_of_lookup_2 _ i).
    rewrite list_lookup_imap, Hi. reflexivity.
Qed.

Lemma MatchIncomingRoute_In
    (sortSlice : list IncomingEndpoint -> list IncomingEndpoint)
    (path method : string) (m : Manager) (route : IncomingEndpoint) (suffix : string) :
  sorts_longest_first sortSlice ->
  MatchIncomingRoute sortSlice path method m = Some (route, suffix) ->
  In route (IncomingRoutes (config m)).
Proof.
  intros Hsort. unfold MatchIncomingRoute.
  destruct (IncomingEnabled (config m)); cbn [negb]; [ | discriminate].
  intros Hf. destruct (first_match_Some _ _ _ _ _ Hf) as (l1 & l2 & Hl & _).
  apply (Permutation_in _ (proj1 (Hsort _))). rewrite Hl. apply in_or_app. right. left.
  reflexivity.
Qed.

(** X19.  When every incoming route of the store passes validation (and
    no delay is [math.MaxInt64]), [handleSimulatedRoute] does not panic,
    whatever the random source draws.  A request that matches no route is
    answered 404 and is not recorded; any other is answered with the
    status, from 100 to 599, of one of the responses of the route matched,
    after a delay within the bounds of that response, never with the
    fallback for an empty list, and is recorded once. *)
Theorem X19_simulated_route_answers_from_its_route
    (sortSlice : list IncomingEndpoint -> list IncomingEndpoint)
    (urlPath method : string) (draw now started : Z) (r : Rand)
    (requests : list incoming.op) (configManager : Manager) :
  sorts_longest_first sortSlice ->
  Forall (fun route => ValidateIncomingEndpoint route = [] /\ delays_fit route)
    (IncomingRoutes (config configManager)) ->
  exists c answer r' c',
    incoming.run requests (NewIncomingCollector started) = Some c
    /\ handleSimulatedRoute sortSlice urlPath method draw now r (Some c) configManager
       = Some (answer, r', Some c')
    /\ match answer with
       | NotFound _ => r' = r /\ c' = c
       | Responded route _ status delayMs =>
           In route (IncomingRoutes (config configManager))
           /\ (exists resp,
                 In resp (ie_Responses route)
                 /\ status = StatusCode resp
                 /\ MinResponseMs resp <= delayMs <= MaxResponseMs resp)
           /\ 100 <= status <= 599 /\ 0 <= delayMs
           /\ GetTotalRequests c' = wrap64 (GetTotalRequests c + 1)
       end.
Proof.
  intros Hsort Hvalid.
  assert (Hs0 : routes_sound (NewIncomingCollector started)).
  { intros ? ? H. cbn in H. rewrite lookup_empty in H. discriminate. }
  destruct (run_routes_sound requests _ Hs0) as (c & Hrun & Hsound).
  exists c. unfold handleSimulatedRoute.
  set (path := if is_empty (TrimPrefix urlPath SimulatedRoutePrefix) then "/"%string
               else TrimPrefix urlPath SimulatedRoutePrefix).
  cbv zeta.
  destruct (MatchIncomingRoute sortSlice path method configManager) as [[route suffix] | ] eqn:Hm.
  2: { exists (NotFound path), r, c. auto. }
  pose proof (MatchIncomingRoute_In _ _ _ _ _ _ Hsort Hm) as Hin.
  rewrite Forall_forall in Hvalid.
  destruct (Hvalid route (proj2 (list_elem_of_In _ _) Hin)) as [Hv Hfit].
  destruct (ValidateIncomingEndpoint_responses route Hv) as [Hne Hresp].
  destruct (selectWeightedResponse (ie_Responses route) r) as [selected r'] eqn:Hsel.
  assert (Hlisted : In selected (ie_Responses route)).
  { pose proof (select_listed (ie_Responses route) r Hne) as H. rewrite Hsel in H. exact H. }
  destruct (Hresp selected Hlisted) as [Hstatus Hdelay].
  unfold delays_fit in Hfit. rewrite Forall_forall in Hfit.
  specialize (Hfit selected (proj2 (list_elem_of_In _ _) Hlisted)).
  destruct (randomDuration_fits (MinResponseMs selected) (MaxResponseMs selected) draw
              ltac:(lia) Hfit) as (delayMs & Hd & Hrange).
  rewrite Hd.
  destruct (apply_op_routes_sound
              (OpRecord (ie_Name route) (ie_Path route) (StatusCode selected)
                 (float_of_int delayMs) now) c Hsound) as (c' & Hrec & _).
  cbn [incoming.apply_op] in Hrec. rewrite Hrec.
  exists (Responded route suffix (StatusCode selected) delayMs), r', c'.
  split; [exact Hrun | ]. split; [reflexivity | ].
  split; [exact Hin | ]. split; [exists selected; auto | ].
  split; [exact Hstatus | ]. split; [lia | ].
  unfold incoming.Record in Hrec.
  destruct (match routes c !! ie_Name route with
            | Some route0 => Some route0
            | None => NewIncomingRouteMetrics (ie_Name route) (ie_Path route)
            end) as [rm | ]; [ | discriminate].
  destruct (RecordRoute _ _ _ rm); [ | discriminate].
  injection Hrec as <-. reflexivity.
Qed.

Lemma X19_simulated_route_answers_from_its_route_witness :
  let m := manager_with_routes [open_route "/a"] in
  let r := {| draws := fun _ => 0.5%float; taken := 0 |} in
  sorts_longest_first insertion_sort
  /\ Forall (fun route => ValidateIncomingEndpoint route = [] /\ delays_fit route)
       (IncomingRoutes (config m))
  /\ exists c answer r' c',
       incoming.run [] (NewIncomingCollector 0) = Some c
       /\ handleSimulatedRoute insertion_sort "/sim/a/b" "GET" 7 1 r (Some c) m
          = Some (answer, r', Some c')
       /\ match answer with
          | NotFound _ => r' = r /\ c' = c
          | Responded route _ status delayMs =>
              In route (IncomingRoutes (config m))
              /\ (exists resp,
                    In resp (ie_Responses route)
                    /\ status = StatusCode resp
                    /\ MinResponseMs resp <= delayMs <= MaxResponseMs resp)
              /\ 100 <= status <= 599 /\ 0 <= delayMs
              /\ GetTotalRequests c' = wrap64 (GetTotalRequests c + 1)
          end.
Proof.
  cbv zeta.
  assert (H : Forall (fun route => ValidateIncomingEndpoint route = [] /\ delays_fit route)
                (IncomingRoutes (config (manager_with_routes [open_route "/a"])))).
  { constructor; [ | constructor]. split; [vm_compute; reflexivity | ].
    constructor; [vm_compute; reflexivity | constructor]. }
  split; [exact insertion_sort_sorts | ]. split; [exact H | ].
  exact (X19_simulated_route_answers_from_its_route insertion_sort "/sim/a/b" "GET" 7 1 0
           {| draws := fun _ => 0.5%float; taken := 0 |} []
           (manager_with_routes [open_route "/a"]) insertion_sort_sorts H).
Defined.

End ResponderFacts.

(** ** Tokens: what is stored is what is served *)

Module TokenCacheFacts.

Import Go client TokenFacts.


(** X20.  [SetToken] for a name without auth config is refused and the
    manager is unchanged.  For a config with a token endpoint the token set
    is what [GetToken] returns, without a refresh, until 60 s before its
    expiry; for a config without a token endpoint [GetToken] goes on
    returning the value of the environment variable (or the empty string
    when none is named), not the token that was set. *)
Theorem X20_set_token_then_get_token (getenv : string -> string) (w : world)
    (authName token : string) (expiresIn now now_store later : Z) (tm : TokenManager) :
  match authConfigs tm !! authName with
  | None =>
      SetToken authName token expiresIn now now_store tm
      = (Some (ErrAuthConfigNotFound authName), tm)
  | Some authCfg =>
      exists tm',
        SetToken authName token expiresIn now now_store tm = (None, tm')
        /\ authConfigs tm' = authConfigs tm
        /\ (forall other, other <> authName -> tokens tm' !! other = tokens tm !! other)
        /\ match config.ac_TokenEndpoint authCfg with
           | Some _ =>
               later <= now + expiresIn - 60 * Second ->
               GetToken getenv later w authName tm' = ((token, None), tm')
           | None =>
               GetToken getenv later w authName tm'
               = ((if config.is_empty (config.ac_EnvVar authCfg) then ""%string
                   else getenv (config.ac_EnvVar authCfg), None), tm')
           end
  end.
Proof.
  unfold SetToken. destruct (authConfigs tm !! authName) as [authCfg | ] eqn:Hcfg;
    [ | reflexivity].
  eexists. split; [reflexivity | ]. split; [reflexivity | ].
  split; [intros other Hne; cbn [tokens with_tokens]; apply lookup_insert_ne; congruence | ].
  unfold GetToken. cbn [authConfigs with_tokens tokens]. rewrite Hcfg.
  destruct (config.ac_TokenEndpoint authCfg) as [te | ].
  - intros Hlater. rewrite lookup_insert_eq. cbn [RefreshAt Value].
    destruct (Z.ltb_spec (now + expiresIn - 60 * Second) later); [lia | reflexivity].
  - destruct (config.is_empty (config.ac_EnvVar authCfg)); reflexivity.
Qed.



End TokenCacheFacts.

(** ** JSON paths *)

Module JSONPathFacts.

Import Go config.

Lemma split_dots_cons (s : string) : exists piece pieces, split_dots s = piece :: pieces.
Proof.
  induction s as [ | c s IH]; cbn [split_dots]; [eauto | ].
  destruct (Ascii.eqb c "."); [eauto | ]. destruct IH as (p & ps & ->). eauto.
Qed.

Lemma split_dots_dotless (s : string) : dotless s = true -> split_dots s = [s].
Proof.
  induction s as [ | c s IH]; cbn [split_dots dotless]; [reflexivity | ].
  destruct (Ascii.eqb c "."); cbn [negb andb]; [discriminate | ].
  intros H. rewrite (IH H). reflexivity.
Qed.

Lemma split_dots_app (p q : string) :
  dotless p = true ->
  split_dots (String.append p (String "."%char q)) = p :: split_dots q.
Proof.
  induction p as [ | c p IH].
  - intros _. reflexivity.
  - change (String c p +:+ String "."%char q) with (String c (p +:+ String "."%char q)).
    cbn [split_dots dotless].
    destruct (Ascii.eqb c "."); cbn [negb andb]; [discriminate | ].
    intros H. rewrite (IH H). reflexivity.
Qed.

Lemma walk_path_seen (seen seen' parts : list string) (current : Go.iface) :
  forall v, walk_path seen parts current = inr v -> walk_path seen' parts current = inr v.
Proof.
  revert seen seen' current.
  induction parts as [ | part parts IH]; intros seen seen' current v; cbn [walk_path];
    [auto | ].
  destruct current; try discriminate.
  destruct (m !! part); [ | discriminate]. apply IH.
Qed.

(** X22.  [ExtractJSONPath] refuses the empty path, and a path without
    a dot is a lookup of that key.  A path [p.q], where [p] has no dot and
    [q] is not empty, yields a value exactly when [p] holds an object in
    which the path [q] yields that value.  A path [p.] yields what that
    object holds under the empty key, although the empty path is
    refused. *)
Theorem X22_json_path_walks_the_segments (data : gmap string Go.iface) (p q : string) :
  dotless p = true ->
  ExtractJSONPath data "" = inl ErrPathEmpty
  /\ (p <> ""%string ->
      ExtractJSONPath data p
      = match data !! p with
        | Some value => inr value
        | None => inl (ErrSegmentNotFound p)
        end)
  /\ (q <> ""%string ->
      forall v,
        ExtractJSONPath data (String.append p (String "."%char q)) = inr v
        <-> exists inner, data !! p = Some (Go.IMap inner) /\ ExtractJSONPath inner q = inr v)
  /\ (forall v,
        ExtractJSONPath data (String.append p ".") = inr v
        <-> exists inner, data !! p = Some (Go.IMap inner) /\ inner !! ""%string = Some v).
Proof.
  intros Hp. split; [reflexivity | ]. split; [ | split].
  - intros Hne. unfold ExtractJSONPath.
    destruct p as [ | c p]; [congruence | ]. cbn [is_empty String.eqb].
    rewrite (split_dots_dotless _ Hp). cbn [walk_path].
    destruct (data !! String c p); reflexivity.
  - intros Hq v.
    assert (Hpath : is_empty (String.append p (String "."%char q)) = false).
    { destruct p; reflexivity. }
    assert (Hqe : is_empty q = false) by (destruct q; [congruence | reflexivity]).
    unfold ExtractJSONPath. rewrite Hpath, Hqe, (split_dots_app _ _ Hp).
    cbn [walk_path app]. destruct (split_dots_cons q) as (piece & pieces & Hsplit).
    rewrite Hsplit. destruct (data !! p) as [value | ].
    + split.
      * intros Hwalk. destruct value as [ | ? | ? | ? | ? | inner];
          try (cbn [walk_path] in Hwalk; discriminate Hwalk).
        exists inner. split; [reflexivity | ].
        exact (walk_path_seen _ _ _ _ v Hwalk).
      * intros (inner & [= ->] & Hwalk). exact (walk_path_seen _ _ _ _ v Hwalk).
    + split; [discriminate | intros (inner & [=] & _)].
  - intros v.
    assert (Hpath : is_empty (String.append p ".") = false) by (destruct p; reflexivity).
    unfold ExtractJSONPath. rewrite Hpath, (split_dots_app _ _ Hp).
    cbn [split_dots walk_path app]. destruct (data !! p) as [value | ].
    + split.
      * intros Hwalk. destruct value as [ | ? | ? | ? | ? | inner];
          try (cbn [walk_path] in Hwalk; discriminate Hwalk).
        exists inner. split; [reflexivity | ]. cbn [walk_path] in Hwalk.
        destruct (inner !! ""%string); [congruence | discriminate].
      * intros (inner & [= ->] & Hlook). cbn [walk_path]. rewrite Hlook. reflexivity.
    + split; [discriminate | intros (inner & [=] & _)].
Qed.

Lemma X22_json_path_walks_the_segments_witness :
  let data : gmap string Go.iface :=
    <["data"%string := Go.IMap (<["token"%string := Go.IString "T"]> ∅)]> ∅ in
  dotless "data" = true
  /\ ExtractJSONPath data "data.token" = inr (Go.IString "T").
Proof.
  cbv zeta. split; [reflexivity | ].
  apply (proj1 (proj2 (proj2 (X22_json_path_walks_the_segments
                                (<["data"%string := Go.IMap (<["token"%string := Go.IString "T"]> ∅)]> ∅)
                                "data" "token" eq_refl)))).
  - discriminate.
  - exists (<["token"%string := Go.IString "T"]> ∅). split; reflexivity.
Defined.

End JSONPathFacts.

(** ** The bulk deletion of endpoints *)

Module BulkFacts.

Import Go config api ConfigFacts StoreFacts.

Lemma remove_at_filter (name : string) (l : list Endpoint) (i : nat) :
  NoDup (map ep_Name l) ->
  find_index (has_name name) l = Some i ->
  remove_at i l = List.filter (fun e => negb (has_name name e)) l
  /\ In name (map ep_Name l).
Proof.
  revert i. induction l as [ | x l IH]; intros i Hnd; cbn [find_index]; [discriminate | ].
  cbn [map] in Hnd. apply NoDup_cons in Hnd. destruct Hnd as [Hx Hnd].
  cbn [List.filter map]. destruct (has_name name x) eqn:Hhas; cbn [negb].
  - intros [= <-]. unfold remove_at. cbn [take drop app].
    unfold has_name in Hhas. apply String.eqb_eq in Hhas. split; [ | left; exact Hhas].
    symmetry. apply forallb_filter_id. apply forallb_forall. intros e He.
    unfold has_name. destruct (String.eqb_spec (ep_Name e) name) as [E | ]; [ | reflexivity].
    elim Hx. apply list_elem_of_In. rewrite Hhas, <- E. apply in_map. exact He.
  - destruct (find_index (has_name name) l) as [j | ] eqn:Hfind; [ | discriminate].
    cbn [option_map]. intros [= <-]. destruct (IH j Hnd eq_refl) as [Hrem Hin].
    split; [ | right; exact Hin].
    unfold remove_at in *. cbn [take drop app]. f_equal. exact Hrem.
Qed.

Lemma find_index_absent (name : string) (l : list Endpoint) :
  find_index (has_name name) l = None ->
  List.filter (fun e => negb (has_name name e)) l = l /\ ~ In name (map ep_Name l).
Proof.
  induction l as [ | x l IH]; cbn [find_index List.filter map]; [intros _; split; [reflexivity | intros []] | ].
  destruct (has_name name x) eqn:Hhas; [discriminate | ]. cbn [negb].
  destruct (find_index (has_name name) l); [discriminate | ]. intros _.
  destruct (IH eq_refl) as [Hf Hn]. split; [f_equal; exact Hf | ].
  intros [E | Hin]; [ | exact (Hn Hin)].
  unfold has_name in Hhas. rewrite E, String.eqb_refl in Hhas. discriminate.
Qed.

(** [DeleteEndpoint] on a store with distinct names removes the endpoints
    of that name, and fails exactly when there is none. *)
Lemma DeleteEndpoint_filter (name : string) (m : Manager) :
  NoDup (map ep_Name (Endpoints (config m))) ->
  snd (DeleteEndpoint name m)
  = with_config
      (with_Endpoints (List.filter (fun e => negb (has_name name e)) (Endpoints (config m)))
         (config m)) m
  /\ (fst (DeleteEndpoint name m) = None <-> In name (map ep_Name (Endpoints (config m))))
  /\ (fst (DeleteEndpoint name m) = None
      \/ fst (DeleteEndpoint name m) = Some (ErrEndpointNotFound name)).
Proof.
  intros Hnd. unfold DeleteEndpoint.
  destruct (find_index (has_name name) (Endpoints (config m))) as [i | ] eqn:Hfind; cbn [fst snd].
  - destruct (remove_at_filter name _ i Hnd Hfind) as [-> Hin].
    split; [reflexivity | ]. split; [tauto | left; reflexivity].
  - destruct (find_index_absent name _ Hfind) as [-> Hn].
    split; [symmetry; apply with_Endpoints_same | ].
    split; [split; [discriminate | tauto] | right; reflexivity].
Qed.

Lemma NoDup_map_filter {A B} (f : A -> B) (p : A -> bool) (l : list A) :
  NoDup (map f l) -> NoDup (map f (List.filter p l)).
Proof.
  induction l as [ | x l IH]; cbn [map List.filter]; [auto | ].
  intros Hnd. apply NoDup_cons in Hnd. destruct Hnd as [Hx Hnd].
  destruct (p x); [ | auto]. cbn [map]. apply NoDup_cons. split; [ | auto].
  intros Hin. apply Hx. apply list_elem_of_In in Hin. apply list_elem_of_In.
  apply in_map_iff in Hin. destruct Hin as (y & Hy & Hin). apply filter_In in Hin.
  apply in_map_iff. exists y. tauto.
Qed.

Lemma filter_filter {A} (p q : A -> bool) (l : list A) :
  List.filter p (List.filter q l) = List.filter (fun x => q x && p x) l.
Proof.
  induction l as [ | x l IH]; cbn [List.filter]; [reflexivity | ].
  destruct (q x); cbn [List.filter andb]; [ | exact IH].
  destruct (p x); rewrite IH; reflexivity.
Qed.

Lemma endpoints_but_cons (name : string) (names : list string) (store : Manager) :
  endpoints_but names
    (with_config
       (with_Endpoints
          (List.filter (fun e => negb (has_name name e)) (Endpoints (config store)))
          (config store)) store)
  = endpoints_but (name :: names) store.
Proof.
  unfold endpoints_but. destruct store as [c p]. destruct c. cbn.
  rewrite filter_filter. apply filter_ext. intros e. unfold has_name.
  rewrite negb_orb. reflexivity.
Qed.

(** The loop of the bulk deletion, from any state of its three variables. *)
Lemma bulk_delete_loop (names : list string) :
  forall (deleted : list string) (errors : list (string * error)) (store : Manager),
  NoDup (map ep_Name (Endpoints (config store))) ->
  exists more failed,
    fold_left
      (fun acc name =>
         let '(deleted, errors, store) := acc in
         match DeleteEndpoint name store with
         | (Some err, store') => (deleted, errors ++ [(name, err)], store')
         | (None, store') => (deleted ++ [name], errors, store')
         end)
      names (deleted, errors, store)
    = (deleted ++ more, errors ++ failed,
       with_config (with_Endpoints (endpoints_but names store) (config store)) store)
    /\ len more + len failed = len names
    /\ NoDup more
    /\ (forall n, In n more <-> In n names /\ In n (map ep_Name (Endpoints (config store))))
    /\ (forall n e, In (n, e) failed -> In n names /\ e = ErrEndpointNotFound n).
Proof.
  induction names as [ | name names IH]; intros deleted errors store Hnd.
  - exists [], []. cbn [fold_left]. rewrite !app_nil_r. unfold endpoints_but. cbn [existsb negb].
    split.
    { f_equal. rewrite forallb_filter_id by (apply forallb_forall; reflexivity).
      symmetry. apply with_Endpoints_same. }
    split; [reflexivity | ]. split; [constructor | ].
    split; [intros n; split; [intros [] | intros [[] _]] | intros n e []].
  - cbn [fold_left].
    destruct (DeleteEndpoint_filter name store Hnd) as (Hsnd & Hfst & Herr).
    destruct (DeleteEndpoint name store) as [err store1] eqn:Hdel. cbn [fst snd] in *.
    assert (Hnd1 : NoDup (map ep_Name (Endpoints (config store1)))).
    { rewrite Hsnd. destruct store as [c p]. destruct c. cbn. apply NoDup_map_filter.
      exact Hnd. }
    assert (Hnames1 : forall n, In n (map ep_Name (Endpoints (config store1)))
                                <-> In n (map ep_Name (Endpoints (config store))) /\ n <> name).
    { intros n. rewrite Hsnd. destruct store as [c p]. destruct c. cbn.
      rewrite !in_map_iff. split.
      - intros (e & <- & He). apply filter_In in He. destruct He as [He Hne].
        split; [eauto | ]. unfold has_name in Hne.
        destruct (String.eqb_spec (ep_Name e) name); [discriminate | assumption].
      - intros [(e & <- & He) Hne]. exists e. split; [reflexivity | ].
        apply filter_In. split; [exact He | ]. unfold has_name.
        destruct (String.eqb_spec (ep_Name e) name); [contradiction | reflexivity]. }
    assert (Hfinal : with_config (with_Endpoints (endpoints_but names store1) (config store1)) store1
                     = with_config (with_Endpoints (endpoints_but (name :: names) store)
                                      (config store)) store).
    { rewrite <- endpoints_but_cons. rewrite Hsnd. destruct store as [c p]. destruct c.
      reflexivity. }
    destruct err as [err | ].
    + destruct Herr as [? | [= ->]]; [discriminate | ].
      destruct (IH deleted (errors ++ [(name, ErrEndpointNotFound name)]) store1 Hnd1)
        as (more & failed & Hfold & Hlen & Hnodup & Hmore & Hfailed).
      exists more, ((name, ErrEndpointNotFound name) :: failed).
      rewrite Hfold, Hfinal, <- app_assoc. split; [reflexivity | ].
      split; [unfold len in *; cbn [length]; lia | ]. split; [exact Hnodup | ].
      split.
      * intros n. rewrite Hmore, Hnames1. cbn [In]. split.
        -- intros (Hn & Hs & _). tauto.
        -- intros [[<- | Hn] Hs]; [ | split; [exact Hn | split; [exact Hs | ]]].
           ++ exfalso. apply Hfst in Hs. discriminate Hs.
           ++ intros ->. apply Hfst in Hs. discriminate Hs.
      * intros n e [[= <- <-] | Hin]; [split; [left; reflexivity | reflexivity] | ].
        destruct (Hfailed n e Hin). split; [right; assumption | assumption].
    + assert (Hin : In name (map ep_Name (Endpoints (config store)))) by (apply Hfst; reflexivity).
      destruct (IH (deleted ++ [name]) errors store1 Hnd1)
        as (more & failed & Hfold & Hlen & Hnodup & Hmore & Hfailed).
      exists (name :: more), failed.
      rewrite Hfold, Hfinal, <- app_assoc. split; [reflexivity | ].
      split; [unfold len in *; cbn [length]; lia | ].
      split.
      { apply NoDup_cons. split; [ | exact Hnodup]. intros Hn. apply list_elem_of_In in Hn.
        apply Hmore in Hn. destruct Hn as [_ Hn]. apply Hnames1 in Hn. tauto. }
      split.
      * intros n. cbn [In]. rewrite Hmore, Hnames1. split.
        -- intros [<- | (Hn & Hs & _)]; tauto.
        -- intros [[<- | Hn] Hs]; [left; reflexivity | ].
           destruct (String.eqb_spec name n) as [E | NE]; [left; exact E | right]. 
           split; [exact Hn | split; [exact Hs | congruence]].
      * intros n e Hin'. destruct (Hfailed n e Hin'). split; [right; assumption | assumption].
Qed.

(** X26.  On a store whose endpoints have distinct names the bulk
    deletion removes exactly the endpoints whose name is in the request
    and changes nothing else.  It reports each name of the request once,
    as deleted or as failed: the names deleted are, without repetition,
    the names of the request that the store held, and every failure is
    "not found".  The status is 200 when nothing failed, 400 when nothing
    was deleted and something failed, and 206 otherwise. *)
Theorem X26_bulk_delete_removes_the_named (names : list string) (store : Manager) :
  NoDup (map ep_Name (Endpoints (config store))) ->
  exists status deleted errors,
    handleBulkDeleteEndpoints names store
    = (status, deleted, errors,
       with_config (with_Endpoints (endpoints_but names store) (config store)) store)
    /\ len deleted + len errors = len names
    /\ NoDup deleted
    /\ (forall n, In n deleted <-> In n names /\ In n (map ep_Name (Endpoints (config store))))
    /\ (forall n e, In (n, e) errors -> In n names /\ e = ErrEndpointNotFound n)
    /\ (status = 200 /\ errors = []
        \/ status = 400 /\ deleted = [] /\ errors <> []
        \/ status = 206 /\ deleted <> [] /\ errors <> []).
Proof.
  intros Hnd. unfold handleBulkDeleteEndpoints.
  destruct (bulk_delete_loop names [] [] store Hnd)
    as (deleted & errors & Hfold & Hlen & Hnodup & Hdeleted & Herrors).
  cbn [app] in Hfold. rewrite Hfold. eexists _, deleted, errors.
  split; [reflexivity | ]. split; [exact Hlen | ]. split; [exact Hnodup | ].
  split; [exact Hdeleted | ]. split; [exact Herrors | ].
  unfold len. destruct deleted as [ | d deleted], errors as [ | e errors]; cbn [length].
  - left. split; reflexivity.
  - right. left. split; [reflexivity | ]. split; [reflexivity | discriminate].
  - left. split; reflexivity.
  - right. right. 
    assert (H1 : (Z.of_nat (S (length deleted)) =? 0) = false) by (apply Z.eqb_neq; lia).
    assert (H2 : (0 <? Z.of_nat (S (length errors))) = true) by (apply Z.ltb_lt; lia).
    rewrite H1, H2. cbn [andb]. split; [reflexivity | split; discriminate].
Qed.

Lemma X26_bulk_delete_removes_the_named_witness :
  let store := store_with_endpoint (IString "a") in
  NoDup (map ep_Name (Endpoints (config store)))
  /\ exists status deleted errors,
       handleBulkDeleteEndpoints ["e"; "x"]%string store
       = (status, deleted, errors,
          with_config (with_Endpoints (endpoints_but ["e"; "x"]%string store) (config store))
            store)
       /\ len deleted + len errors = 2.
Proof.
  cbv zeta.
  assert (Hnd : NoDup (map ep_Name (Endpoints (config (store_with_endpoint (IString "a"))))))
    by (vm_compute; apply NoDup_singleton).
  split; [exact Hnd | ].
  destruct (X26_bulk_delete_removes_the_named ["e"; "x"]%string
              (store_with_endpoint (IString "a")) Hnd)
    as (status & deleted & errors & Hrun & Hlen & _).
  exists status, deleted, errors. split; [exact Hrun | exact Hlen].
Defined.

End BulkFacts.

(** ** Routes that were added are served *)

Module RouteFacts.

Import Go config ConfigFacts.

(** X27.  A route that [AddIncomingRoute] accepted is served: with the
    incoming routes enabled and the route enabled, every request for its
    path, or for a path below it, with a method the stored route accepts
    is matched, by that route or by one with a path at least as long,
    whatever order the sort gives to routes with paths of equal length. *)
Theorem X27_added_route_is_served
    (sortSlice : list IncomingEndpoint -> list IncomingEndpoint)
    (route : IncomingEndpoint) (m m' : Manager) (method rest : string) :
  sorts_longest_first sortSlice ->
  AddIncomingRoute route m = (None, m') ->
  IncomingEnabled (config m) = true ->
  ie_Enabled route = true ->
  (ie_Method (default_route_method route) = "*"%string
   \/ ie_Method (default_route_method route) = method) ->
  forall path,
    path = ie_Path route \/ path = String.append (ie_Path route) (String "/"%char rest) ->
    exists matched suffix,
      MatchIncomingRoute sortSlice path method m' = Some (matched, suffix)
      /\ In matched (IncomingRoutes (config m'))
      /\ (String.length (ie_Path route) <= String.length (ie_Path matched))%nat.
Proof.
  intros Hsort Hadd Hon Henabled Hmethod path Hpath. unfold AddIncomingRoute in Hadd.
  destruct (existsb _ _); [discriminate | ].
  destruct (prepare_route route) as [stored | ] eqn:Hprep; [ | discriminate].
  injection Hadd as <-.
  assert (Hstored : stored = default_route_method route).
  { unfold prepare_route in Hprep.
    destruct (ValidateIncomingEndpoint (default_route_method route)); [ | discriminate].
    congruence. }
  assert (Hfields : ie_Path stored = ie_Path route /\ ie_Enabled stored = ie_Enabled route).
  { rewrite Hstored. unfold default_route_method. destruct (is_empty (ie_Method route));
      split; reflexivity. }
  destruct Hfields as [Hp He].
  assert (Hanswers : exists suffix, route_match path method stored = Some suffix).
  { destruct Hpath as [-> | ->].
    - exists ""%string. apply route_match_spec. unfold answers.
      rewrite He, Hp, <- Hstored in *. split; [exact Henabled | ]. split; [exact Hmethod | ].
      split; [ | left; reflexivity].
      clear. induction (ie_Path route) as [ | c s IH]; [reflexivity | ].
      change (String c s +:+ "")%string with (String c (s +:+ "")). f_equal. exact IH.
    - exists (String "/"%char rest). apply route_match_spec. unfold answers.
      rewrite He, Hp, <- Hstored in *. split; [exact Henabled | ]. split; [exact Hmethod | ].
      split; [reflexivity | right; exists rest; reflexivity]. }
  destruct Hanswers as [suffix Hmatch].
  unfold MatchIncomingRoute.
  replace (IncomingEnabled (config (with_config
             (with_IncomingRoutes (IncomingRoutes (config m) ++ [stored]) (config m)) m)))
    with true by (destruct m as [c p]; destruct c; symmetry; exact Hon).
  replace (IncomingRoutes (config (with_config
             (with_IncomingRoutes (IncomingRoutes (config m) ++ [stored]) (config m)) m)))
    with (IncomingRoutes (config m) ++ [stored])
    by (destruct m as [c p]; destruct c; reflexivity).
  cbn [negb].
  destruct (Hsort (IncomingRoutes (config m) ++ [stored])) as [Hperm Hsorted].
  assert (Hin : In stored (sortSlice (IncomingRoutes (config m) ++ [stored]))).
  { apply (Permutation_in _ (Permutation_sym Hperm)). apply in_or_app. right. left.
    reflexivity. }
  destruct (first_match path method (sortSlice (IncomingRoutes (config m) ++ [stored])))
    as [[matched sfx] | ] eqn:Hfirst.
  - exists matched, sfx. split; [reflexivity | ].
    destruct (first_match_Some _ _ _ _ _ Hfirst) as (l1 & l2 & Hl & _).
    split.
    + apply (Permutation_in _ Hperm). rewrite Hl. apply in_or_app. right. left. reflexivity.
    + rewrite <- Hp.
      apply (first_match_longest path method _ matched sfx Hsorted Hfirst stored Hin).
      congruence.
  - exfalso. rewrite first_match_None in Hfirst. rewrite (Hfirst stored Hin) in Hmatch.
    discriminate.
Qed.

Lemma X27_added_route_is_served_witness :
  let m' := snd (AddIncomingRoute (open_route "/a") NewManager) in
  sorts_longest_first insertion_sort
  /\ AddIncomingRoute (open_route "/a") NewManager = (None, m')
  /\ exists matched suffix,
       MatchIncomingRoute insertion_sort "/a/x" "GET" m' = Some (matched, suffix)
       /\ In matched (IncomingRoutes (config m'))
       /\ (String.length (ie_Path (open_route "/a")) <= String.length (ie_Path matched))%nat.
Proof.
  cbv zeta.
  assert (Hadd : AddIncomingRoute (open_route "/a") NewManager
                 = (None, snd (AddIncomingRoute (open_route "/a") NewManager)))
    by (vm_compute; reflexivity).
  split; [exact insertion_sort_sorts | ]. split; [exact Hadd | ].
  exact (X27_added_route_is_served insertion_sort (open_route "/a") NewManager
           (snd (AddIncomingRoute (open_route "/a") NewManager)) "GET" "x"
           insertion_sort_sorts Hadd eq_refl eq_refl (or_introl eq_refl)
           "/a/x" (or_intror eq_refl)).
Defined.

End RouteFacts.

(** ** The dispatch loop *)

Module DispatchFacts.

Import Go scheduler SchedulerFacts.

Lemma tick_endpoint_spec (now : Z) (globalMultiplier : float)
    (spawned : list config.Endpoint) (next : gmap string Z) (s : Scheduler)
    (e : config.Endpoint) :
  exists next1,
    tick_endpoint now globalMultiplier (spawned, next, s) e
    = (spawned ++ (if due now next e then [e] else []), next1,
       if due now next e then spawn s else s)
    /\ next1 !! config.ep_Name e
       = (if due now next e
          then Some (now + calculateInterval (config.ep_FrequencyPerMin e) globalMultiplier)
          else next !! config.ep_Name e)
    /\ forall name, name <> config.ep_Name e -> next1 !! name = next !! name.
Proof.
  unfold tick_endpoint, due.
  destruct (config.ep_Enabled e); cbn [negb andb].
  - destruct (next !! config.ep_Name e) as [nextTime | ] eqn:Hlook.
    + destruct (nextTime <=? now).
      * eexists. split; [reflexivity | ]. split; [apply lookup_insert_eq | ].
        intros name Hne. apply lookup_insert_ne. congruence.
      * exists next. rewrite app_nil_r. auto.
    + rewrite Z.leb_refl. eexists. split; [reflexivity | ].
      split; [apply lookup_insert_eq | ].
      intros name Hne. rewrite !lookup_insert_ne by congruence. reflexivity.
  - exists next. rewrite app_nil_r. auto.
Qed.

Lemma due_ext (now : Z) (next next' : gmap string Z) (e : config.Endpoint) :
  next' !! config.ep_Name e = next !! config.ep_Name e -> due now next' e = due now next e.
Proof. unfold due. intros ->. reflexivity. Qed.

(** The loop of [tick] over endpoints with distinct names. *)
Lemma tick_loop (now : Z) (globalMultiplier : float) (endpoints : list config.Endpoint) :
  forall (spawned : list config.Endpoint) (next : gmap string Z) (s : Scheduler),
  NoDup (map config.ep_Name endpoints) ->
  in_int64 (requestsScheduled s) ->
  exists next' s',
    fold_left (tick_endpoint now globalMultiplier) endpoints (spawned, next, s)
    = (spawned ++ List.filter (due now next) endpoints, next', s')
    /\ requestsScheduled s'
       = wrap64 (requestsScheduled s + len (List.filter (due now next) endpoints))
    /\ configManager s' = configManager s /\ paused s' = paused s
    /\ hasCancelFunc s' = hasCancelFunc s /\ ctxCancelled s' = ctxCancelled s
    /\ requestsInFlight s' = requestsInFlight s /\ requestsSkipped s' = requestsSkipped s
    /\ (forall e, In e endpoints ->
          next' !! config.ep_Name e
          = if due now next e
            then Some (now + calculateInterval (config.ep_FrequencyPerMin e) globalMultiplier)
            else next !! config.ep_Name e)
    /\ (forall name, ~ In name (map config.ep_Name endpoints) -> next' !! name = next !! name).
Proof.
  induction endpoints as [ | e endpoints IH]; intros spawned next s Hnd Hfit.
  - exists next, s. cbn [fold_left List.filter]. rewrite app_nil_r. unfold len. cbn [length].
    split; [reflexivity | ].
    split; [rewrite Z.add_0_r, RingBufferFacts.wrap64_small by exact Hfit; reflexivity | ].
    do 6 (split; [reflexivity | ]). split; [intros e [] | reflexivity].
  - apply NoDup_cons in Hnd. destruct Hnd as [Hfresh Hnd].
    destruct (tick_endpoint_spec now globalMultiplier spawned next s e)
      as (next1 & Hstep & Hself & Hothers).
    cbn [fold_left]. rewrite Hstep.
    destruct (IH (spawned ++ (if due now next e then [e] else [])) next1
                (if due now next e then spawn s else s) Hnd
                ltac:(destruct (due now next e); [apply StoreFacts.wrap64_in_int64 | exact Hfit]))
      as (next' & s' & Hfold & Hcount & Hcm & Hp & Hcf & Hcc & Hfl & Hsk & Hin & Hout).
    assert (Hsame : forall e', In e' endpoints -> due now next1 e' = due now next e').
    { intros e' He'. apply due_ext, Hothers. intros E. apply Hfresh.
      rewrite <- E. apply list_elem_of_In. apply in_map. exact He'. }
    assert (Hfilter : List.filter (due now next1) endpoints
                      = List.filter (due now next) endpoints).
    { apply filter_ext_in. exact Hsame. }
    rewrite Hfilter in *. exists next', s'. cbn [List.filter].
    split; [rewrite Hfold; destruct (due now next e); cbn [app];
            rewrite <- app_assoc; reflexivity | ].
    split.
    { rewrite Hcount. destruct (due now next e); [ | reflexivity].
      cbn [spawn requestsScheduled]. rewrite MetricsFacts.wrap64_idem_l. f_equal. unfold len.
      cbn [length]. lia. }
    split; [rewrite Hcm; destruct (due now next e); reflexivity | ].
    split; [rewrite Hp; destruct (due now next e); reflexivity | ].
    split; [rewrite Hcf; destruct (due now next e); reflexivity | ].
    split; [rewrite Hcc; destruct (due now next e); reflexivity | ].
    split; [rewrite Hfl; destruct (due now next e); reflexivity | ].
    split; [rewrite Hsk; destruct (due now next e); reflexivity | ].
    split.
    + intros e' [<- | He'].
      * rewrite Hout; [exact Hself | ]. intros Hin'. apply Hfresh.
        apply list_elem_of_In. exact Hin'.
      * rewrite (Hin e' He'), (Hsame e' He'). rewrite Hothers; [reflexivity | ].
        intros E. apply Hfresh. rewrite <- E. apply list_elem_of_In, in_map. exact He'.
    + intros name Hname. cbn [map] in Hname.
      rewrite Hout by (intros H; apply Hname; right; exact H).
      apply Hothers. intros E. apply Hname. left. congruence.
Qed.



Lemma tick_halted (now : Z) (next : gmap string Z) (s : Scheduler) :
  halted s = true -> tick now next s = ([], next, s).
Proof.
  unfold halted, tick. destruct (IsPaused s); [reflexivity | ]. cbn [orb].
  intros ->. reflexivity.
Qed.

Lemma tick_running (now : Z) (next : gmap string Z) (s : Scheduler) :
  halted s = false ->
  tick now next s
  = fold_left (tick_endpoint now (config.GlobalMultiplier (config.config (configManager s))))
      (config.Endpoints (config.config (configManager s))) ([], next, s).
Proof.
  unfold halted, tick, config.GetConfig. destruct (IsPaused s); [discriminate | ]. cbn [orb].
  intros ->. reflexivity.
Qed.

(** X23.  While the scheduler is paused or the master switch is off a
    tick does nothing.  Otherwise, the endpoints having distinct names, it
    spawns one request for each enabled endpoint whose next request time
    has come or that has none yet, in the order of the configuration, and
    for no other; it counts them as scheduled, and moves the next request
    time of each to one interval after the tick, so that an endpoint it
    spawned is not due again before then. *)
Theorem X23_tick_spawns_what_is_due (now : Z) (next : gmap string Z) (s : Scheduler) :
  NoDup (map config.ep_Name (config.Endpoints (config.config (configManager s)))) ->
  in_int64 (requestsScheduled s) ->
  let endpoints := config.Endpoints (config.config (configManager s)) in
  let interval e :=
    calculateInterval (config.ep_FrequencyPerMin e)
      (config.GlobalMultiplier (config.config (configManager s))) in
  (halted s = true -> tick now next s = ([], next, s))
  /\ (halted s = false ->
      exists next' s',
        tick now next s = (List.filter (due now next) endpoints, next', s')
        /\ requestsScheduled s'
           = wrap64 (requestsScheduled s + len (List.filter (due now next) endpoints))
        /\ halted s' = false
        /\ requestsInFlight s' = requestsInFlight s
        /\ requestsSkipped s' = requestsSkipped s
        /\ (forall e, In e endpoints -> due now next e = false ->
              next' !! config.ep_Name e = next !! config.ep_Name e)
        /\ (forall e, In e endpoints -> due now next e = true ->
              next' !! config.ep_Name e = Some (now + interval e)
              /\ forall later, later < now + interval e -> due later next' e = false)).
Proof.
  intros Hnd Hfit endpoints interval. split; [apply tick_halted | ].
  intros Hrun. rewrite (tick_running now next s Hrun).
  destruct (tick_loop now (config.GlobalMultiplier (config.config (configManager s)))
              endpoints [] next s Hnd Hfit)
    as (next' & s' & Hfold & Hcount & Hcm & Hp & _ & _ & Hfl & Hsk & Hin & _).
  exists next', s'. cbn [app] in Hfold.
  split; [exact Hfold | ]. split; [exact Hcount | ].
  split; [unfold halted, IsPaused in *; rewrite Hcm, Hp; exact Hrun | ].
  split; [exact Hfl | ]. split; [exact Hsk | ]. split.
  - intros e He Hdue. rewrite (Hin e He), Hdue. reflexivity.
  - intros e He Hdue. pose proof (Hin e He) as Hnext. rewrite Hdue in Hnext.
    split; [exact Hnext | ]. intros later Hlater. unfold due. rewrite Hnext.
    unfold interval in *. rewrite (proj2 (Z.leb_gt _ _)) by lia. apply andb_false_r.
Qed.

Lemma X23_tick_spawns_what_is_due_witness :
  let s := Start (New (config.store_with_endpoint (IString "a"))) in
  let endpoints := config.Endpoints (config.config (configManager s)) in
  NoDup (map config.ep_Name endpoints)
  /\ in_int64 (requestsScheduled s)
  /\ halted s = false
  /\ exists next' s',
       tick 0 ∅ s = (List.filter (due 0 ∅) endpoints, next', s')
       /\ requestsScheduled s'
          = wrap64 (requestsScheduled s + len (List.filter (due 0 ∅) endpoints)).
Proof.
  cbv zeta.
  assert (Hnd : NoDup (map config.ep_Name
                         (config.Endpoints
                            (config.config
                               (configManager
                                  (Start (New (config.store_with_endpoint (IString "a")))))))))
    by (vm_compute; apply NoDup_singleton).
  assert (Hfit : in_int64 (requestsScheduled
                             (Start (New (config.store_with_endpoint (IString "a"))))))
    by (unfold in_int64, min_int64, max_int64; cbn; lia).
  split; [exact Hnd | ]. split; [exact Hfit | ]. split; [reflexivity | ].
  destruct (proj2 (X23_tick_spawns_what_is_due 0 ∅
                     (Start (New (config.store_with_endpoint (IString "a")))) Hnd Hfit)
              eq_refl) as (next' & s' & Htick & Hcount & _).
  exists next', s'. split; [exact Htick | exact Hcount].
Defined.








End DispatchFacts.
